(** * Bootstrap index results, commit log and segment reader of m3db

    A shallow embedding of
    - [result.IndexResults] and [result.IndexBlock] (bootstrap index
      results accumulator),
    - [xio.segmentReader.Read] (byte reader over a head/tail segment),
    - the commit log writer/flusher/iterator contract,
    together with the properties stated about them. *)

From stdpp Require Import gmap list strings.
From Stdlib Require Import ZArith Lia.

Open Scope Z_scope.

(** ** Instants and durations

    A [time.Time] is modelled by the number of nanoseconds elapsed since
    Go's zero instant (January 1, year 1, 00:00:00 UTC), the quantity on
    which [Time.Truncate], [Time.Before], [Time.After] and [Time.IsZero]
    operate.  A [time.Duration] is a number of nanoseconds. *)

Module XTime.

Definition Time := Z.
Definition Duration := Z.

Definition zeroTime : Time := 0.

Definition IsZero (t : Time) : bool := t =? 0.
Definition Before (t u : Time) : bool := t <? u.
Definition After (t u : Time) : bool := u <? t.
Definition Add (t : Time) (d : Duration) : Time := t + d.

(** [t.Truncate(d)]: rounds [t] down to a multiple of [d] since the zero
    instant; returns [t] unchanged when [d <= 0]. *)
Definition Truncate (t : Time) (d : Duration) : Time :=
  if d <=? 0 then t else t - t mod d.

(** Seconds between the zero instant and the Unix epoch. *)
Definition unixToInternal : Z := 62135596800.

(** Two's complement reduction to a signed 64-bit integer. *)
Definition wrap64 (z : Z) : Z := (z + 2 ^ 63) mod 2 ^ 64 - 2 ^ 63.

(** [xtime.ToUnixNano(t)], i.e. [UnixNano(t.UnixNano())]: an [int64]
    computed with wrap-around. *)
Definition ToUnixNano (t : Time) : Z :=
  wrap64 (t - unixToInternal * 1000000000).

(** The instants whose Unix nanoseconds fit an [int64]: on these
    [ToUnixNano] does not wrap. *)
Definition representable (t : Time) : Prop :=
  - 2 ^ 63 <= t - unixToInternal * 1000000000 < 2 ^ 63.

(** [xtime.Range]: the half-open interval [[Start, End)]. *)
Record Range : Type := mkRange { Start : Time; Finish : Time }.

#[global] Instance Range_eq_dec : EqDecision Range.
Proof. solve_decision. Defined.

Definition Range_IsEmpty (x : Range) : bool := Finish x <=? Start x.

Definition Range_contains (x : Range) (t : Time) : Prop :=
  Start x <= t < Finish x.

Definition Range_containsb (x : Range) (t : Time) : bool :=
  (Start x <=? t) && (t <? Finish x).

(** The range [x] lies inside the half-open window [[lo, hi)]. *)
Definition Range_within (lo hi : Time) (x : Range) : Prop :=
  lo <= Start x /\ Finish x <= hi.

(** Smallest range covering both arguments. *)
Definition Range_hull (x y : Range) : Range :=
  mkRange (Z.min (Start x) (Start y)) (Z.max (Finish x) (Finish y)).

Definition Range_overlaps (x y : Range) : bool :=
  (Start x <? Finish y) && (Start y <? Finish x).

(** Modelled from the spec: [xtime.Ranges], whose source is missing; a
    set of disjoint half-open ranges kept in ascending start order
    (section 4.5). *)
Abbreviation Ranges := (list Range).

(** Modelled from the spec: the insertion behind [Ranges.AddRange],
    whose source is missing; the new range is coalesced with every
    range it overlaps or touches and put at its place in the order. *)
Fixpoint insertRange (x : Range) (l : Ranges) : Ranges :=
  match l with
  | [] => [x]
  | y :: l' =>
      if Finish y <? Start x then y :: insertRange x l'
      else if Finish x <? Start y then x :: y :: l'
      else insertRange (Range_hull x y) l'
  end.

(** Modelled from the spec: [Ranges.AddRange], whose source is missing;
    an empty range adds nothing. *)
Definition Ranges_AddRange (l : Ranges) (x : Range) : Ranges :=
  if Range_IsEmpty x then l else insertRange x l.

(** Modelled from the spec: [Ranges.AddRanges], whose source is
    missing; the union, one range at a time. *)
Definition Ranges_AddRanges (l other : Ranges) : Ranges :=
  fold_left Ranges_AddRange other l.

(** Modelled from the spec: [Ranges.IsEmpty], whose source is missing. *)
Definition Ranges_IsEmpty (l : Ranges) : bool :=
  match l with [] => true | _ => false end.

(** Every range of [l] starts after [lo]. *)
Definition Ranges_after (lo : Time) (l : Ranges) : Prop :=
  Forall (fun y => lo < Start y) l.

(** The invariant of [Ranges]: no range is empty, the ranges are in
    ascending order and neither overlap nor touch. *)
Fixpoint Ranges_canonical (l : Ranges) : Prop :=
  match l with
  | [] => True
  | x :: l' =>
      Start x < Finish x /\ Ranges_after (Finish x) l' /\ Ranges_canonical l'
  end.

Definition Ranges_contains (l : Ranges) (t : Time) : Prop :=
  Exists (fun x => Range_contains x t) l.

Definition Ranges_containsb (l : Ranges) (t : Time) : bool :=
  existsb (fun x => Range_containsb x t) l.

End XTime.

(** ** Bootstrap results: shard time ranges, index blocks, index results *)

Module Result.
Import XTime.

(** Modelled from the spec: [ShardTimeRanges], whose source is missing;
    a mapping from shard number (unsigned 32-bit) to a set of half-open
    time ranges (sections 3 and 4.5). *)
Abbreviation ShardTimeRanges := (gmap N Ranges).

(** Modelled from the spec: [ShardTimeRanges.IsEmpty], whose source is
    missing; true iff no shard has any range. *)
Definition STR_IsEmpty (m : ShardTimeRanges) : bool :=
  forallb (fun p => Ranges_IsEmpty (snd p)) (map_to_list m).

(** Modelled from the spec: [ShardTimeRanges.Copy], whose source is
    missing; a deep copy, which on values is the same mapping (module
    [Shared] below tracks the fresh identity of the copy). *)
Definition STR_Copy (m : ShardTimeRanges) : ShardTimeRanges := m.

(** Modelled from the spec: [ShardTimeRanges.AddRanges], whose source
    is missing; the union per shard, coalescing adjacent and
    overlapping ranges. *)
Definition STR_AddRanges (m other : ShardTimeRanges) : ShardTimeRanges :=
  union_with (fun l l' => Some (Ranges_AddRanges l l')) m other.

Definition STR_allRanges (m : ShardTimeRanges) : list Range :=
  concat (snd <$> map_to_list m).

(** Modelled from the spec: [ShardTimeRanges.MinMax], whose source is
    missing; the earliest start and the latest end across all ranges of
    all shards.  On a value without ranges the specification leaves the
    result undefined; Go's zero instants are returned there. *)
Definition STR_MinMax (m : ShardTimeRanges) : Time * Time :=
  match STR_allRanges m with
  | [] => (zeroTime, zeroTime)
  | x :: l =>
      (fold_left Z.min (Start <$> l) (Start x),
       fold_left Z.max (Finish <$> l) (Finish x))
  end.

(** The set of (shard, instant) points a value denotes. *)
Definition STR_covers (m : ShardTimeRanges) (shard : N) (t : Time) : Prop :=
  exists l, m !! shard = Some l /\ Ranges_contains l t.

Definition STR_coversb (m : ShardTimeRanges) (shard : N) (t : Time) : bool :=
  match m !! shard with
  | Some l => Ranges_containsb l t
  | None => false
  end.

(** Two values denote the same set of points. *)
Definition STR_equiv (m m' : ShardTimeRanges) : Prop :=
  forall shard t, STR_covers m shard t <-> STR_covers m' shard t.

(** [m] denotes the union of the sets of [a] and [b]. *)
Definition STR_is_union (m a b : ShardTimeRanges) : Prop :=
  forall shard t,
    STR_covers m shard t <-> STR_covers a shard t \/ STR_covers b shard t.

(** No point is denoted by both values. *)
Definition STR_disjoint (a b : ShardTimeRanges) : Prop :=
  forall shard t, ~ (STR_covers a shard t /\ STR_covers b shard t).

Definition STR_disjointb (a b : ShardTimeRanges) : bool :=
  forallb
    (fun p =>
       match b !! fst p with
       | Some l' =>
           forallb (fun x => forallb (fun y => negb (Range_overlaps x y)) l')
                   (snd p)
       | None => true
       end)
    (map_to_list a).

(** The invariant of [ShardTimeRanges]: the ranges of every shard are
    canonical; a shard without ranges has no entry. *)
Definition STR_canonical (m : ShardTimeRanges) : Prop :=
  forall shard l, m !! shard = Some l -> l <> [] /\ Ranges_canonical l.

(** Every range of every shard lies inside [[lo, hi)]. *)
Definition STR_within (lo hi : Time) (m : ShardTimeRanges) : Prop :=
  forall shard l, m !! shard = Some l -> Forall (Range_within lo hi) l.

(** *** Segments

    The code tells mutable from immutable segments by a run-time type
    assertion to [segment.MutableSegment]; a segment is a tagged value
    carrying its identity. *)
Record MutableSegment : Type := mkMutable { msegId : nat }.

Inductive Segment : Type :=
  | SegMutable (m : MutableSegment)
  | SegImmutable (id : nat).

#[global] Instance MutableSegment_eq_dec : EqDecision MutableSegment.
Proof. solve_decision. Defined.

#[global] Instance Segment_eq_dec : EqDecision Segment.
Proof. solve_decision. Defined.

(** [seg.(segment.MutableSegment)] *)
Definition asMutable (s : Segment) : option MutableSegment :=
  match s with
  | SegMutable m => Some m
  | SegImmutable _ => None
  end.

Inductive error : Type :=
  | RangeOutOfBlock   (* fmt.Errorf("fulfilled range %s is outside of index block range: %s") *)
  | AllocError (code : nat).

(** [MutableSegmentAllocator]: [func() (segment.MutableSegment, error)] *)
Definition MutableSegmentAllocator := unit -> MutableSegment + error.

Record Options : Type := mkOptions {
  IndexMutableSegmentAllocator : MutableSegmentAllocator
}.

(** [namespace.IndexOptions], of which only [BlockSize()] is used. *)
Record IndexOptions : Type := mkIndexOptions { BlockSize : Duration }.

(** *** IndexBlock *)
Record IndexBlock : Type := mkIndexBlock {
  blockStart : Time;
  segments : list Segment;
  fulfilled : ShardTimeRanges
}.

(** [NewIndexBlock]; a nil [fulfilled] is [None]. *)
Definition NewIndexBlock (start : Time) (segs : list Segment)
    (ful : option ShardTimeRanges) : IndexBlock :=
  let ful' := match ful with None => (∅ : ShardTimeRanges) | Some f => f end in
  mkIndexBlock start segs ful'.

Definition BlockStart (b : IndexBlock) : Time := blockStart b.
Definition Segments (b : IndexBlock) : list Segment := segments b.
Definition Fulfilled (b : IndexBlock) : ShardTimeRanges := fulfilled b.

(** [IndexBlock.Merged] *)
Definition Merged (b other : IndexBlock) : IndexBlock :=
  let r := b in
  let r :=
    if (0 <? length (segments other))%nat
    then mkIndexBlock (blockStart r) (segments r ++ segments other) (fulfilled r)
    else r in
  let r :=
    if negb (STR_IsEmpty (fulfilled other))
    then mkIndexBlock (blockStart r) (segments r)
           (STR_AddRanges (STR_Copy (fulfilled b)) (fulfilled other))
    else r in
  r.

(** *** IndexResults: [map[xtime.UnixNano]IndexBlock] *)
Abbreviation IndexResults := (gmap Z IndexBlock).

(** The invariant of [IndexResults]: every block is stored under the
    Unix nanoseconds of its start. *)
Definition keyed (r : IndexResults) : Prop :=
  forall k b, r !! k = Some b -> ToUnixNano (blockStart b) = k.

(** [IndexResults.Add]; the diagnostic prints have no effect on the
    map and are left out. *)
Definition Add (r : IndexResults) (block : IndexBlock) : IndexResults :=
  if IsZero (BlockStart block) then r
  else
    let key := ToUnixNano (BlockStart block) in
    match r !! key with
    | None => <[key := block]> r
    | Some existing => <[key := Merged existing block]> r
    end.

(** [IndexResults.AddResults]: [blocks] is the sequence in which the
    [range] loop visits the blocks of [other]. *)
Definition AddResults (r : IndexResults) (blocks : list IndexBlock)
    : IndexResults :=
  fold_left Add blocks r.

(** The loop of [GetOrAddSegment]: the first segment that is mutable. *)
Fixpoint firstMutable (segs : list Segment) : option MutableSegment :=
  match segs with
  | [] => None
  | seg :: rest =>
      match asMutable seg with
      | Some mutable => Some mutable
      | None => firstMutable rest
      end
  end.

(** [IndexResults.GetOrAddSegment]: returns the segment or the error,
    and the map after the call. *)
Definition GetOrAddSegment (t : Time) (idxopts : IndexOptions)
    (opts : Options) (r : IndexResults)
    : (MutableSegment + error) * IndexResults :=
  let start := Truncate t (BlockSize idxopts) in
  let blockStartNanos := ToUnixNano start in
  let '(block, r) :=
    match r !! blockStartNanos with
    | Some block => (block, r)
    | None =>
        let block := NewIndexBlock start [] None in
        (block, <[blockStartNanos := block]> r)
    end in
  match firstMutable (Segments block) with
  | Some mutable => (inl mutable, r)
  | None =>
      let alloc := IndexMutableSegmentAllocator opts in
      match alloc tt with
      | inr err => (inr err, r)
      | inl mutable =>
          let segs := [SegMutable mutable] in
          (inl mutable,
           <[blockStartNanos := Merged block (NewIndexBlock start segs None)]> r)
      end
  end.

(** [IndexResults.MarkFulfilled]: returns the error, if any, and the map
    after the call. *)
Definition MarkFulfilled (t : Time) (ful : ShardTimeRanges)
    (idxopts : IndexOptions) (r : IndexResults)
    : option error * IndexResults :=
  let start := Truncate t (BlockSize idxopts) in
  let blockStartNanos := ToUnixNano start in
  let blockRange := mkRange start (XTime.Add start (BlockSize idxopts)) in
  let '(min, max) := STR_MinMax ful in
  if Before min (Start blockRange) || After max (Finish blockRange)
  then (Some RangeOutOfBlock, r)
  else
    let '(block, r) :=
      match r !! blockStartNanos with
      | Some block => (block, r)
      | None =>
          let block := NewIndexBlock start [] None in
          (block, <[blockStartNanos := block]> r)
      end in
    (None,
     <[blockStartNanos := Merged block (NewIndexBlock start [] (Some ful))]> r).

(** *** indexBootstrapResult *)
Record indexBootstrapResult : Type := mkIndexBootstrapResult {
  results : IndexResults;
  unfulfilled : ShardTimeRanges
}.

Definition NewIndexBootstrapResult : indexBootstrapResult :=
  mkIndexBootstrapResult ∅ ∅.

(** Sum of [len(ir.Segments())] over the blocks of a result. *)
Definition totalSegments (r : IndexResults) : nat :=
  sum_list ((fun p => length (Segments (snd p))) <$> map_to_list r).

(** A [range] loop over a Go map visits its entries in an unspecified
    order: an iteration order maps a map to an enumeration of its
    entries. *)
Definition IterOrder := IndexResults -> list (Z * IndexBlock).

Definition valid_order (order : IterOrder) : Prop :=
  forall m, order m ≡ₚ map_to_list m.

(** What [MergedIndexBootstrapResult] does to the operand it keeps:
    [base.IndexResults().AddResults(other.IndexResults())] and
    [base.Unfulfilled().AddRanges(other.Unfulfilled())]. *)
Definition foldInto (order : IterOrder) (base other : indexBootstrapResult)
    : indexBootstrapResult :=
  mkIndexBootstrapResult
    (AddResults (results base) (snd <$> order (results other)))
    (STR_AddRanges (unfulfilled base) (unfulfilled other)).

(** An [IndexBootstrapResult] is an interface value holding a pointer to
    an [indexBootstrapResult], or nil ([None]); the structures pointed
    to live in a heap. *)
Abbreviation Heap := (gmap positive indexBootstrapResult).

(** [MergedIndexBootstrapResult]: mutates the larger operand in place
    and returns it; the heap after the call is returned as well.  A
    pointer outside the heap does not arise in Go; the call is then
    given the result nil. *)
Definition MergedIndexBootstrapResult (order : IterOrder) (h : Heap)
    (i j : option positive) : option positive * Heap :=
  match i, j with
  | None, _ => (j, h)
  | _, None => (i, h)
  | Some pi, Some pj =>
      match h !! pi, h !! pj with
      | Some ri, Some rj =>
          let sizeI := totalSegments (results ri) in
          let sizeJ := totalSegments (results rj) in
          if (sizeJ <=? sizeI)%nat
          then (Some pi, <[pi := foldInto order ri rj]> h)
          else (Some pj, <[pj := foldInto order rj ri]> h)
      | _, _ => (None, h)
      end
  end.

(** [indexBootstrapResult.Add]: adds the block to the index results and
    the ranges to the unfulfilled ranges. *)
Definition BootstrapAdd (r : indexBootstrapResult) (block : IndexBlock)
    (unf : ShardTimeRanges) : indexBootstrapResult :=
  mkIndexBootstrapResult (Add (results r) block)
    (STR_AddRanges (unfulfilled r) unf).

(** The index results a program can build: [make(IndexResults)]
    followed by calls of the methods. *)
Inductive built : IndexResults -> Prop :=
  | built_empty : built ∅
  | built_Add r block : built r -> built (Add r block)
  | built_AddResults r blocks : built r -> built (AddResults r blocks)
  | built_GetOrAddSegment r t idxopts opts :
      built r -> built (snd (GetOrAddSegment t idxopts opts r))
  | built_MarkFulfilled r t ful idxopts :
      built r -> built (snd (MarkFulfilled t ful idxopts r)).

(** The blocks [Add] does not drop: those whose start is not the zero
    instant. *)
Definition nonZeroStart (b : IndexBlock) : bool := negb (IsZero (BlockStart b)).

(** Number of segments held by a list of blocks. *)
Definition segmentCount (blocks : list IndexBlock) : nat :=
  sum_list ((fun b => length (Segments b)) <$> blocks).



End Result.

(** ** Sharing of fulfilled ranges

    A [ShardTimeRanges] is a Go map, hence a reference: an [IndexBlock]
    holds the address of its fulfilled ranges, [Copy] allocates a fresh
    map and [AddRanges] updates its receiver in place.  This module
    follows [IndexBlock.Merged] over a store of such maps. *)

Module Shared.
Import XTime Result.

Definition loc := positive.

Abbreviation store := (gmap positive (gmap N Ranges)).

Definition deref (σ : store) (l : loc) : ShardTimeRanges :=
  default ∅ (σ !! l).

Record IndexBlockRef : Type := mkIndexBlockRef {
  refBlockStart : Time;
  refSegments : list Segment;
  refFulfilled : loc
}.

(** The value an [IndexBlockRef] denotes in a store. *)
Definition view (σ : store) (b : IndexBlockRef) : IndexBlock :=
  mkIndexBlock (refBlockStart b) (refSegments b) (deref σ (refFulfilled b)).

(** [r.Copy()]: a fresh map with the same contents. *)
Definition CopyRef (σ : store) (l : loc) : loc * store :=
  let l' := fresh (dom σ) in
  (l', <[l' := STR_Copy (deref σ l)]> σ).

(** [r.AddRanges(other)]: updates the map at [l] in place. *)
Definition AddRangesRef (σ : store) (l : loc) (other : ShardTimeRanges)
    : store :=
  <[l := STR_AddRanges (deref σ l) other]> σ.

(** [IndexBlock.Merged] with the fulfilled ranges held by reference. *)
Definition MergedRef (σ : store) (b other : IndexBlockRef)
    : IndexBlockRef * store :=
  let r := b in
  let r :=
    if (0 <? length (refSegments other))%nat
    then mkIndexBlockRef (refBlockStart r)
           (refSegments r ++ refSegments other) (refFulfilled r)
    else r in
  if negb (STR_IsEmpty (deref σ (refFulfilled other)))
  then
    let '(l', σ) := CopyRef σ (refFulfilled b) in
    let σ := AddRangesRef σ l' (deref σ (refFulfilled other)) in
    (mkIndexBlockRef (refBlockStart r) (refSegments r) l', σ)
  else (r, σ).

(** A store with two maps: at address 1 the range [[0, 10)] of shard 1,
    at address 2 no ranges; and two blocks holding them. *)
Definition exampleStore : store :=
  <[1%positive := {[ 1%N := [mkRange 0 10] ]}]>
    (<[2%positive := ∅]> ∅).
Definition exampleA : IndexBlockRef := mkIndexBlockRef 3600 [] 1%positive.
Definition exampleB : IndexBlockRef := mkIndexBlockRef 3600 [] 2%positive.
Definition exampleExtra : ShardTimeRanges := {[ 1%N := [mkRange 20 30] ]}.

End Shared.

(** ** Segment reader *)

Module Xio.

(** [ts.Segment]: a head and a tail buffer, either of which may be nil. *)
Record Segment : Type := mkSegment {
  Head : option (list Byte.byte);
  Tail : option (list Byte.byte)
}.

(** [segmentReader]: the segment and the read position [si]; the pool
    and the time bounds play no part in [Read].  The position starts at
    zero and only grows, it is a natural number. *)
Record segmentReader : Type := mkSegmentReader {
  segment : Segment;
  si : nat
}.

Inductive ioError : Type := EOF.

Definition NewSegmentReader (seg : Segment) : segmentReader :=
  mkSegmentReader seg 0.

(** Go's [copy(dst, src)]: overwrites the first
    [min (len dst) (len src)] bytes of [dst]; returns the new contents
    of [dst] and the number of bytes copied. *)
Definition copy (dst src : list Byte.byte) : list Byte.byte * nat :=
  let k := Nat.min (length dst) (length src) in
  (take k src ++ drop k dst, k).

(** [b.Get()] on a possibly nil buffer. *)
Definition bytesOf (b : option (list Byte.byte)) : list Byte.byte :=
  match b with Some bs => bs | None => [] end.

(** The bytes of a segment: its head followed by its tail. *)
Definition contents (seg : Segment) : list Byte.byte :=
  bytesOf (Head seg) ++ bytesOf (Tail seg).

(** [segmentReader.Read(b)]: returns the contents of [b] after the call,
    the count [n], the error, and the reader after the call. *)
Definition Read (sr : segmentReader) (b : list Byte.byte)
    : list Byte.byte * nat * option ioError * segmentReader :=
  if (length b =? 0)%nat then (b, 0%nat, None, sr)
  else
    let head := bytesOf (Head (segment sr)) in
    let tail := bytesOf (Tail (segment sr)) in
    let nh := length head in
    let nt := length tail in
    if (nh + nt <=? si sr)%nat then (b, 0%nat, Some EOF, sr)
    else
      let n := 0%nat in
      let '(b, n, pos, full) :=
        if (si sr <? nh)%nat then
          let '(b', nRead) := copy b (drop (si sr) head) in
          let pos := (si sr + nRead)%nat in
          let n := (n + nRead)%nat in
          (b', n, pos, (n =? length b)%nat)
        else (b, n, si sr, false) in
      if full then (b, n, None, mkSegmentReader (segment sr) pos)
      else
        let '(b, n, pos) :=
          if (pos <? nh + nt)%nat then
            let '(rest, nRead) := copy (drop n b) (drop (pos - nh) tail) in
            (take n b ++ rest, (n + nRead)%nat, (pos + nRead)%nat)
          else (b, n, pos) in
        if (n =? 0)%nat then (b, 0%nat, Some EOF, mkSegmentReader (segment sr) pos)
        else (b, n, None, mkSegmentReader (segment sr) pos).

(** The bytes a call delivered: the first [n] bytes of the buffer. *)
Definition delivered (res : list Byte.byte * nat * option ioError * segmentReader)
    : list Byte.byte :=
  let '(b, n, _, _) := res in take n b.

Definition bufferOf (res : list Byte.byte * nat * option ioError * segmentReader)
    : list Byte.byte :=
  let '(b, _, _, _) := res in b.

Definition readerOf (res : list Byte.byte * nat * option ioError * segmentReader)
    : segmentReader :=
  let '(_, _, _, sr) := res in sr.

Definition errorOf (res : list Byte.byte * nat * option ioError * segmentReader)
    : option ioError :=
  let '(_, _, e, _) := res in e.

Definition countOf (res : list Byte.byte * nat * option ioError * segmentReader)
    : nat :=
  let '(_, n, _, _) := res in n.

(** Successive calls of [Read], one per buffer of [bufs]; the bytes
    delivered by the calls, concatenated, and the reader at the end. *)
Fixpoint readMany (sr : segmentReader) (bufs : list (list Byte.byte))
    : list Byte.byte * segmentReader :=
  match bufs with
  | [] => ([], sr)
  | b :: rest =>
      let res := Read sr b in
      let '(out, sr') := readMany (readerOf res) rest in
      (delivered res ++ out, sr')
  end.

(** Reads into one buffer [b], again and again, until [Read] reports
    [EOF]; [None] when the fuel runs out first. *)
Fixpoint readAll (fuel : nat) (sr : segmentReader) (b : list Byte.byte)
    : option (list Byte.byte) :=
  match fuel with
  | O => None
  | S fuel' =>
      let res := Read sr b in
      match errorOf res with
      | Some EOF => Some []
      | None =>
          match readAll fuel' (readerOf res) (bufferOf res) with
          | Some out => Some (delivered res ++ out)
          | None => None
          end
      end
  end.

(** [segmentReader.Clone]: a new reader over the same segment (and the
    same time bounds); the read position is not carried over. *)
Definition Clone (sr : segmentReader) : segmentReader :=
  NewSegmentReader (segment sr).

(** [segmentReader.Reset]: another segment, read from its start. *)
Definition Reset (sr : segmentReader) (seg : Segment) : segmentReader :=
  mkSegmentReader seg 0.

End Xio.

(** ** Commit log *)

Module CommitLog.
Import XTime.

(** *** Writes, as the property test of the commit log generates them *)

Record Series : Type := mkSeries {
  UniqueIndex : N;
  Namespace : string;
  ID : string;
  Shard : N
}.

(** [ts.Datapoint]; the float64 value is kept as its IEEE-754 bit
    pattern, a 64-bit word. *)
Record Datapoint : Type := mkDatapoint {
  Timestamp : Time;
  Value : Z
}.

(** The biased exponent (bits 52 to 62) and the fraction (bits 0 to 51)
    of a float64 bit pattern. *)
Definition float64_exponent (v : Z) : Z := Z.land (Z.shiftr v 52) 0x7FF.
Definition float64_fraction (v : Z) : Z := Z.land v 0xFFFFFFFFFFFFF.

(** A NaN: all exponent bits set and a fraction that is not zero. *)
Definition float64_isNaN (v : Z) : bool :=
  (float64_exponent v =? 0x7FF) && negb (float64_fraction v =? 0).

(** Plus or minus zero: every bit but the sign bit is clear. *)
Definition float64_isZero (v : Z) : bool :=
  Z.land v 0x7FFFFFFFFFFFFFFF =? 0.

(** Go's [==] on float64 values, on their bit patterns: a NaN equals
    nothing, not even itself; plus zero equals minus zero; any other
    value equals the values of the same bit pattern only.  Go's [!=] is
    its negation. *)
Definition float64_eq (a b : Z) : bool :=
  negb (float64_isNaN a) && negb (float64_isNaN b)
  && ((Z.land a 0xFFFFFFFFFFFFFFFF =? Z.land b 0xFFFFFFFFFFFFFFFF)
      || (float64_isZero a && float64_isZero b)).

#[global] Opaque float64_eq.

Inductive Unit : Type :=
  | UnitNone | Second | Millisecond | Microsecond | Nanosecond
  | Minute | Hour | Day | Year.

Record generatedWrite : Type := mkWrite {
  series : Series;
  datapoint : Datapoint;
  unit : Unit;
  annotation : list Byte.byte
}.

#[global] Instance Series_eq_dec : EqDecision Series.
Proof. solve_decision. Defined.
#[global] Instance Datapoint_eq_dec : EqDecision Datapoint.
Proof. solve_decision. Defined.
#[global] Instance Unit_eq_dec : EqDecision Unit.
Proof. solve_decision. Defined.
#[global] Instance Byte_eq_dec : EqDecision Byte.byte.
Proof. intros x y. destruct (Byte.byte_eq_dec x y); [left | right]; done. Defined.
#[global] Instance generatedWrite_eq_dec : EqDecision generatedWrite.
Proof. solve_decision. Defined.

(** *** The state machine of the property test ([clState] and the
    commands [Open], [Close], [WriteBehind]) *)

Record clState : Type := mkClState {
  open : bool;
  pendingWrites : list generatedWrite
}.

Inductive Command : Type :=
  | CmdOpen
  | CmdClose
  | CmdWriteBehind (w : generatedWrite).

(** [PreConditionFunc] of each command. *)
Definition PreCondition (s : clState) (c : Command) : bool :=
  match c with
  | CmdOpen => negb (open s)
  | CmdClose => open s
  | CmdWriteBehind _ => open s
  end.

(** [NextStateFunc] of each command. *)
Definition NextState (s : clState) (c : Command) : clState :=
  match c with
  | CmdOpen => mkClState true (pendingWrites s)
  | CmdClose => mkClState false (pendingWrites s)
  | CmdWriteBehind w => mkClState (open s) (pendingWrites s ++ [w])
  end.

(** The first loop of [writesArePresent]: the writes read back, keyed by
    series ID and then by timestamp; a later write with the same keys
    replaces an earlier one. *)
Definition recordOnDisk (writesOnDisk : gmap string (gmap Z generatedWrite))
    (w : generatedWrite) : gmap string (gmap Z generatedWrite) :=
  let idString := ID (series w) in
  let seriesMap := default ∅ (writesOnDisk !! idString) in
  <[idString := <[ToUnixNano (Timestamp (datapoint w)) := w]> seriesMap]>
    writesOnDisk.

(** The second loop of [writesArePresent]: [true] stands for a nil
    error, [false] for [missingErr]. *)
Definition writePresent (writesOnDisk : gmap string (gmap Z generatedWrite))
    (w : generatedWrite) : bool :=
  match writesOnDisk !! ID (series w) with
  | None => false
  | Some seriesMap =>
      match seriesMap !! ToUnixNano (Timestamp (datapoint w)) with
      | None => false
      | Some gw =>
          negb (negb (bool_decide (Namespace (series gw) = Namespace (series w)))
                || negb (bool_decide (Shard (series gw) = Shard (series w)))
                || negb (float64_eq (Value (datapoint gw)) (Value (datapoint w))))
      end
  end.

(** [clState.writesArePresent], given what the iterator yields. *)
Definition writesArePresent (yielded writes : list generatedWrite) : bool :=
  let writesOnDisk := fold_left recordOnDisk yielded ∅ in
  forallb (writePresent writesOnDisk) writes.

(** The entry of [writesOnDisk] under the keys of [w]. *)
Definition lookupDisk (writesOnDisk : gmap string (gmap Z generatedWrite))
    (w : generatedWrite) : option generatedWrite :=
  writesOnDisk !! ID (series w)
    ≫= (fun seriesMap => seriesMap !! ToUnixNano (Timestamp (datapoint w))).

(** [x] and [w] have the keys of [writesArePresent] in common. *)
Definition sameKeys (x w : generatedWrite) : Prop :=
  ID (series x) = ID (series w) /\
  ToUnixNano (Timestamp (datapoint x)) = ToUnixNano (Timestamp (datapoint w)).

#[global] Instance sameKeys_dec x w : Decision (sameKeys x w).
Proof. unfold sameKeys. apply _. Defined.

(** [x] and [w] have the same namespace, shard and value, bit for
    bit. *)
Definition sameFields (x w : generatedWrite) : Prop :=
  Namespace (series x) = Namespace (series w) /\
  Shard (series x) = Shard (series w) /\
  Value (datapoint x) = Value (datapoint w).

(** [x] and [w] pass the comparison of [writesArePresent]: the same
    namespace and shard, and values that are equal as floats. *)
Definition equalFields (x w : generatedWrite) : Prop :=
  Namespace (series x) = Namespace (series w) /\
  Shard (series x) = Shard (series w) /\
  float64_eq (Value (datapoint x)) (Value (datapoint w)) = true.

(** [x] and [y] agree on every field [writesArePresent] reads. *)
Definition comparedAlike (x y : generatedWrite) : Prop :=
  sameKeys x y /\ sameFields x y.

(** [x] has the keys of one of [writes]. *)
Definition askedFor (writes : list generatedWrite) (x : generatedWrite) : bool :=
  existsb (fun w => bool_decide (sameKeys x w)) writes.

(** Writes of one series at one timestamp agree with each other. *)
Definition keyConsistent (ws : list generatedWrite) : Prop :=
  forall x w, x ∈ ws -> w ∈ ws -> sameKeys x w -> equalFields x w.

(** *** The log

    The code of the commit log writer, flusher, file rotator and
    iterator is missing, only their property test is present: they are
    modelled from sections 4.1, 4.2, 4.3, 5 and 7 of the specification.
    Concurrent callers are taken in the order in which the log
    serialises them under its batch mutex; a timer expiry is an event
    of its own; every attempt to flush carries the answer of the
    storage ([true]: the flush reaches stable storage). *)

(** Modelled from the spec: the two write strategies of the commit log,
    whose source is missing (section 4.1). *)
Inductive Strategy : Type := StrategyWriteWait | StrategyWriteBehind.

(** Modelled from the spec: the options of the commit log, whose source
    is missing; [encodedSize] stands for the codec: the size in bytes of
    an encoded record, [None] when it cannot be encoded. *)
Record Options : Type := mkOptions {
  strategy : Strategy;
  blockSize : Duration;
  flushSize : nat;
  encodedSize : generatedWrite -> option nat
}.

(** Modelled from the spec: the error kinds of the commit log, whose
    source is missing (section 7). *)
Inductive error : Type := Closed | AlreadyOpen | Encoding | FlushIO.

(** Modelled from the spec: the series-identity block of an encoded
    record of the commit log, whose source is missing: namespace,
    series ID and shard (section 4.2). *)
Record Identity : Type := mkIdentity {
  idNamespace : string;
  idID : string;
  idShard : N
}.

(** Modelled from the spec: the body of an encoded record of the commit
    log, whose source is missing (section 4.2): the unique index of the
    series, the series-identity block only when the unique index has not
    appeared in the file before, the datapoint, the unit and the
    annotation.  Length prefix and checksum are left out: no record is
    corrupted here. *)
Record Entry : Type := mkEntry {
  entryIndex : N;
  entryIdentity : option Identity;
  entryDatapoint : Datapoint;
  entryUnit : Unit;
  entryAnnotation : list Byte.byte
}.

(** Modelled from the spec: a log file, whose source is missing; its
    creation instant (a logical clock), its logical block window and
    the encoded records it holds, oldest first (sections 3 and 4.2). *)
Record File : Type := mkFile {
  created : nat;
  fileBlockStart : Time;
  fileBlockSize : Duration;
  records : list Entry
}.

Definition identityOf (s : Series) : Identity :=
  mkIdentity (Namespace s) (ID s) (Shard s).

(** Modelled from the spec: whether a unique index has appeared in a
    file of the commit log, whose source is missing (section 4.2). *)
Definition seenIn (recs : list Entry) (i : N) : bool :=
  existsb (fun e => (entryIndex e =? i)%N) recs.

(** Modelled from the spec: the encoder of the commit log, whose source
    is missing (section 4.2): the record for [w] in a file that holds
    [recs]; the series identity is written only at the first occurrence
    of the unique index in the file. *)
Definition encode (recs : list Entry) (w : generatedWrite) : Entry :=
  let i := UniqueIndex (series w) in
  mkEntry i
    (if seenIn recs i then None else Some (identityOf (series w)))
    (datapoint w) (unit w) (annotation w).

(** Modelled from the spec: the writer of the commit log, whose source
    is missing, appending the writes [ws] to a file that holds [recs],
    in order (sections 4.2 and 5). *)
Definition appendRecords (recs : list Entry) (ws : list generatedWrite)
    : list Entry :=
  fold_left (fun recs w => recs ++ [encode recs w]) ws recs.

(** Modelled from the spec: the decoder of the commit log, whose source
    is missing (section 4.2), on one record; [table] holds the series
    identities read so far in the file, by unique index.  A record that
    carries its identity is read with it and the identity is kept for
    the index; a record that carries the index alone is read with the
    identity kept for the index.  The writer produces no record with an
    index alone that no earlier record of the file identifies; such a
    record would not be surfaced. *)
Definition decodeEntry (table : gmap N Identity) (e : Entry)
    : gmap N Identity * option generatedWrite :=
  let build (id : Identity) :=
    mkWrite (mkSeries (entryIndex e) (idNamespace id) (idID id) (idShard id))
      (entryDatapoint e) (entryUnit e) (entryAnnotation e) in
  match entryIdentity e with
  | Some id => (<[entryIndex e := id]> table, Some (build id))
  | None => (table, build <$> table !! entryIndex e)
  end.

(** Modelled from the spec: the decoder of the commit log, whose source
    is missing, on the records of a file, in order (sections 4.2 and
    4.3). *)
Fixpoint decodeFrom (table : gmap N Identity) (recs : list Entry)
    : list generatedWrite :=
  match recs with
  | [] => []
  | e :: rest =>
      let '(table', w) := decodeEntry table e in
      match w with
      | Some w => w :: decodeFrom table' rest
      | None => decodeFrom table' rest
      end
  end.

Definition decodeFile (f : File) : list generatedWrite :=
  decodeFrom ∅ (records f).

(** The identities the decoder holds after the records [recs]. *)
Definition tableAfter (table : gmap N Identity) (recs : list Entry)
    : gmap N Identity :=
  fold_left (fun t e => fst (decodeEntry t e)) recs table.

(** Modelled from the spec: the life cycle of a commit log, whose source
    is missing: not yet opened, open, closed (sections 4.1 and 7). *)
Inductive LogState : Type := NotOpen | IsOpen | IsClosed.

(** Modelled from the spec: the commit log and its directory, whose
    source is missing (sections 2 and 4.1). *)
Record System : Type := mkSystem {
  state : LogState;
  finalized : list File;       (* files closed by rotation or shutdown *)
  active : option File;        (* the file being written *)
  batch : list generatedWrite; (* enqueued, not yet flushed *)
  retained : bool;             (* a flush error retained on the log *)
  clock : nat                  (* next creation instant *)
}.

(** Modelled from the spec: a new commit log, whose source is missing,
    over an empty directory. *)
Definition initial : System := mkSystem NotOpen [] None [] false 0.

(** Modelled from the spec: the files of the log directory of the
    commit log, whose source is missing (section 6). *)
Definition directory (s : System) : list File :=
  finalized s ++ match active s with Some f => [f] | None => [] end.

(** Modelled from the spec: the logical block window of a log file,
    whose source is missing: [[block-start, block-start + block-size)]. *)
Definition inWindow (f : File) (t : Time) : bool :=
  (fileBlockStart f <=? t) && (t <? fileBlockStart f + fileBlockSize f).

(** Modelled from the spec: the file the rotator opens, whose source is
    missing; its window is the block of [t]. *)
Definition newFile (o : Options) (stamp : nat) (t : Time) : File :=
  mkFile stamp (Truncate t (blockSize o)) (blockSize o) [].

(** Modelled from the spec: a successful flush of the flusher, whose
    source is missing; the batch is encoded into the active file as a
    unit, in enqueue order (sections 4.2 and 5). *)
Definition flush (s : System) : System :=
  match active s with
  | Some f =>
      mkSystem (state s) (finalized s)
        (Some (mkFile (created f) (fileBlockStart f) (fileBlockSize f)
                 (appendRecords (records f) (batch s))))
        [] (retained s) (clock s)
  | None => s
  end.

(** Modelled from the spec: the rotation of the file rotator, whose
    source is missing; it finalizes the active file and opens a new one
    whose window contains [t] (section 4.1). *)
Definition rotate (o : Options) (t : Time) (s : System) : System :=
  mkSystem (state s) (directory s) (Some (newFile o (clock s) t))
    (batch s) (retained s) (S (clock s)).

(** Modelled from the spec: the append to the current batch by the
    writer, whose source is missing (section 5). *)
Definition enqueue (w : generatedWrite) (s : System) : System :=
  mkSystem (state s) (finalized s) (active s) (batch s ++ [w])
    (retained s) (clock s).

(** Modelled from the spec: the size in bytes of the current batch of
    the writer, whose source is missing. *)
Definition batchBytes (o : Options) (l : list generatedWrite) : nat :=
  sum_list ((fun w => default 0%nat (encodedSize o w)) <$> l).

(** Modelled from the spec: the flush error retained on the commit log,
    whose source is missing (section 7). *)
Definition setRetained (b : bool) (s : System) : System :=
  mkSystem (state s) (finalized s) (active s) (batch s) b (clock s).

(** Modelled from the spec: [Open()] of the commit log, whose source is
    missing; a log that is not open (a new log over the directory) opens
    its first file, whose window contains the current instant; an open
    log answers [AlreadyOpen]. *)
Definition Open (o : Options) (now : Time) (s : System)
    : option error * System :=
  match state s with
  | IsOpen => (Some AlreadyOpen, s)
  | _ =>
      (None,
       mkSystem IsOpen (directory s) (Some (newFile o (clock s) now))
         [] false (S (clock s)))
  end.

(** Modelled from the spec: [Write] of the commit log, whose source is
    missing.  A log that is not open answers [Closed]; a retained flush
    error is replayed; a write that cannot be encoded answers
    [Encoding]; a write outside the window of the active file flushes
    the batch and rotates; the write is enqueued; the batch is flushed
    under the write-wait strategy and when it passes the flush size.
    When the storage rejects a flush the call needs, the call answers
    [FlushIO] and leaves the log as it was.  [None] means that the
    write was accepted. *)
Definition Write (o : Options) (w : generatedWrite) (diskOk : bool)
    (s : System) : option error * System :=
  match state s with
  | IsOpen =>
      if retained s then (Some FlushIO, setRetained false s)
      else
        match encodedSize o w with
        | None => (Some Encoding, s)
        | Some _ =>
            let t := Timestamp (datapoint w) in
            let rotates :=
              match active s with
              | Some f => negb (inWindow f t)
              | None => true
              end in
            let s1 := if rotates then rotate o t (flush s) else s in
            let s2 := enqueue w s1 in
            let flushes :=
              match strategy o with
              | StrategyWriteWait => true
              | StrategyWriteBehind =>
                  (flushSize o <? batchBytes o (batch s2))%nat
              end in
            if (rotates || flushes) && negb diskOk then (Some FlushIO, s)
            else (None, if flushes then flush s2 else s2)
        end
  | _ => (Some Closed, s)
  end.

(** Modelled from the spec: the expiry of the flush timer of the
    flusher, whose source is missing; a non-empty batch is flushed, or
    retained together with the error when the storage rejects it. *)
Definition Tick (diskOk : bool) (s : System) : System :=
  match state s, batch s with
  | IsOpen, _ :: _ => if diskOk then flush s else setRetained true s
  | _, _ => s
  end.

(** Modelled from the spec: [Close()] of the commit log, whose source is
    missing; it replays a retained flush error, else drains the batch
    and finalizes the active file. *)
Definition Close (diskOk : bool) (s : System) : option error * System :=
  match state s with
  | IsOpen =>
      if retained s then (Some FlushIO, setRetained false s)
      else if negb diskOk then (Some FlushIO, s)
      else
        let s' := flush s in
        (None, mkSystem IsClosed (directory s') None [] false (clock s'))
  | _ => (Some Closed, s)
  end.

(** Modelled from the spec: what happens to a commit log, whose source
    is missing: the calls of its owner and the expiry of its timer. *)
Inductive Event : Type :=
  | EvOpen (now : Time)
  | EvWrite (w : generatedWrite) (diskOk : bool)
  | EvTick (diskOk : bool)
  | EvClose (diskOk : bool).

(** Modelled from the spec: one event on the commit log, whose source
    is missing. *)
Definition step (o : Options) (s : System) (e : Event)
    : option error * System :=
  match e with
  | EvOpen now => Open o now s
  | EvWrite w ok => Write o w ok s
  | EvTick ok => (None, Tick ok s)
  | EvClose ok => Close ok s
  end.

(** Modelled from the spec: a sequence of events on the commit log,
    whose source is missing; returns the final system and the writes
    that were accepted, in order. *)
Fixpoint run (o : Options) (s : System) (es : list Event)
    : System * list generatedWrite :=
  match es with
  | [] => (s, [])
  | e :: es' =>
      let '(res, s') := step o s e in
      let '(s'', ws) := run o s' es' in
      (s'',
       match e, res with
       | EvWrite w _, None => w :: ws
       | _, _ => ws
       end)
  end.

(** *** The iterator *)

(** Modelled from the spec: the ordering of log files by the iterator,
    whose source is missing: insertion by creation instant. *)
Fixpoint insertByCreated (f : File) (l : list File) : list File :=
  match l with
  | [] => [f]
  | g :: l' =>
      if (created f <? created g)%nat then f :: g :: l'
      else g :: insertByCreated f l'
  end.

(** Modelled from the spec: the files sorted by creation instant by the
    iterator, whose source is missing (section 4.3). *)
Definition sortByCreated (l : list File) : list File :=
  foldr insertByCreated [] l.

(** Modelled from the spec: the commit log iterator, whose source is
    missing (section 4.3); what [Next]/[Current] yield until [Next]
    returns false: the records of every file the file filter accepts,
    decoded, files in creation order, records in file order, skipping
    the series the series filter rejects. *)
Definition iterate (fileFilter : File -> bool) (seriesFilter : Series -> bool)
    (dir : list File) : list generatedWrite :=
  flat_map
    (fun f => List.filter (fun w => seriesFilter (series w)) (decodeFile f))
    (List.filter fileFilter (sortByCreated dir)).

(** Section 3 of the specification: the unique index is assigned per
    series, and the shard is a function of the series: writes with the
    same unique index are of the same series identity. *)
Definition indexIdentifies (ws : list generatedWrite) : Prop :=
  forall x y, x ∈ ws -> y ∈ ws ->
    UniqueIndex (series x) = UniqueIndex (series y) -> series x = series y.


(** The file [f] holds the writes [p], encoded in order. *)
Definition holds (f : File) (p : list generatedWrite) : Prop :=
  records f = appendRecords [] p.

(** The creation instants of [l] increase strictly, from [lo] at least
    to below [hi]. *)
Fixpoint ascending (lo : nat) (l : list File) (hi : nat) : Prop :=
  match l with
  | [] => (lo <= hi)%nat
  | f :: l' => (lo <= created f)%nat /\ ascending (S (created f)) l' hi
  end.

(** What holds of a log that has accepted the writes [ws] since its
    directory was empty: the files are in creation order, all created
    before the current clock; the writes encoded into the files,
    followed by the batch, are [ws]; an open log has an active file, a
    log that is not open has none and its batch is empty. *)
Definition consistent (s : System) (ws : list generatedWrite) : Prop :=
  ascending 0 (directory s) (clock s) /\
  (exists parts, Forall2 holds (directory s) parts /\
                 concat parts ++ batch s = ws) /\
  match state s with
  | IsOpen => is_Some (active s)
  | _ => active s = None /\ batch s = []
  end.

(** The state of the property test and the log agree. *)
Definition linked (st : clState) (s : System) : Prop :=
  consistent s (pendingWrites st) /\
  (open st = true <-> state s = IsOpen) /\
  retained s = false.

(** Modelled from the spec: [ReadAllPredicate()] and
    [ReadAllSeriesPredicate()], whose source is missing: the predicates
    that are always true (section 6). *)
Definition ReadAllPredicate : File -> bool := fun _ => true.
Definition ReadAllSeriesPredicate : Series -> bool := fun _ => true.

(** Runs the commands of the property test against the log, all
    storage answers being positive; [None] when a command is issued
    whose precondition fails, [Some] of the final states and of the
    verdicts of the post-conditions of the [Close] commands otherwise. *)
Fixpoint runCommands (o : Options) (now : Time) (st : clState) (s : System)
    (cs : list Command) : option (clState * System * list bool) :=
  match cs with
  | [] => Some (st, s, [])
  | c :: cs' =>
      if PreCondition st c then
        let '(res, s') :=
          match c with
          | CmdOpen => Open o now s
          | CmdClose => Close true s
          | CmdWriteBehind w => Write o w true s
          end in
        let st' := NextState st c in
        let verdict :=
          match c, res with
          | CmdClose, None =>
              [writesArePresent
                 (iterate ReadAllPredicate ReadAllSeriesPredicate (directory s'))
                 (pendingWrites st')]
          | _, None => []
          | _, Some _ => [false]
          end in
        match runCommands o now st' s' cs' with
        | Some (st'', s'', vs) => Some (st'', s'', verdict ++ vs)
        | None => None
        end
      else None
  end.

(** *** Unique indexes of the generated series ([uniqueID])

    [globalMetricIdx]: the next index, an unsigned 64-bit counter, and
    the indexes handed out, by namespace and then by series ID; the
    mutex serialises the calls. *)
Record globalMetricIdx : Type := mkMetricIdx {
  idx : N;
  idToIdx : gmap string (gmap string N)
}.

(** [metricIdx] as the package initialises it. *)
Definition metricIdx0 : globalMetricIdx := mkMetricIdx 0 ∅.

(** [uniqueID(ns, s)]: the index of the series and the state of
    [metricIdx] after the call; [idx++] wraps at 2^64. *)
Definition uniqueID (st : globalMetricIdx) (ns s : string)
    : N * globalMetricIdx :=
  let '(nsMap, m) :=
    match idToIdx st !! ns with
    | Some nsMap => (nsMap, idToIdx st)
    | None => (∅, <[ns := ∅]> (idToIdx st))
    end in
  match nsMap !! s with
  | Some i => (i, mkMetricIdx (idx st) m)
  | None =>
      let i := idx st in
      (i, mkMetricIdx ((idx st + 1) mod 2 ^ 64)
            (<[ns := <[s := i]> nsMap]> m))
  end.

(** Successive calls of [uniqueID]; the indexes returned, in order, and
    the final state. *)
Fixpoint uniqueIDs (st : globalMetricIdx) (calls : list (string * string))
    : list N * globalMetricIdx :=
  match calls with
  | [] => ([], st)
  | (ns, s) :: rest =>
      let '(i, st') := uniqueID st ns s in
      let '(ids, st'') := uniqueIDs st' rest in
      (i :: ids, st'')
  end.

(** The index recorded for a series, if any. *)
Definition recordedIdx (st : globalMetricIdx) (ns s : string) : option N :=
  idToIdx st !! ns ≫= (fun nsMap => nsMap !! s).

(** The indexes recorded are below the counter and no two series share
    one. *)
Definition distinctIdx (st : globalMetricIdx) : Prop :=
  (forall ns s v, recordedIdx st ns s = Some v -> (v < idx st)%N) /\
  (forall ns s ns' s' v,
     recordedIdx st ns s = Some v -> recordedIdx st ns' s' = Some v ->
     ns = ns' /\ s = s').

(** *** The check of [TestCommitLogReadWrite]

    The test writes a list of generated writes, closes the log and
    compares what an iterator yields with the writes, series by
    series.  The iterator is taken by what it yields, without error. *)

Record seriesWritesAndReadPosition : Type := mkSeriesWrites {
  writes : list generatedWrite;
  readPosition : nat
}.

(** [writesBySeries[id]]: the zero value when the key is absent. *)
Definition seriesEntry (m : gmap string seriesWritesAndReadPosition)
    (id : string) : seriesWritesAndReadPosition :=
  default (mkSeriesWrites [] 0) (m !! id).

(** One round of the loop that groups the writes by series ID. *)
Definition groupWrite (m : gmap string seriesWritesAndReadPosition)
    (write : generatedWrite) : gmap string seriesWritesAndReadPosition :=
  let seriesWrites := seriesEntry m (ID (series write)) in
  <[ID (series write) :=
      mkSeriesWrites (writes seriesWrites ++ [write])
                     (readPosition seriesWrites)]> m.

Definition writesBySeries (ws : list generatedWrite)
    : gmap string seriesWritesAndReadPosition :=
  fold_left groupWrite ws ∅.

(** The five [require] checks on a record read back. *)
Definition requireEqual (write x : generatedWrite) : bool :=
  bool_decide (ID (series write) = ID (series x))
  && bool_decide (Namespace (series write) = Namespace (series x))
  && bool_decide (Shard (series write) = Shard (series x))
  && float64_eq (Value (datapoint write)) (Value (datapoint x))
  && bool_decide (Timestamp (datapoint write) = Timestamp (datapoint x)).

(** One round of the reading loop on the record [x]; [None] when the
    index is out of range or a [require] fails. *)
Definition checkNext (st : gmap string seriesWritesAndReadPosition * nat)
    (x : generatedWrite)
    : option (gmap string seriesWritesAndReadPosition * nat) :=
  let '(m, i) := st in
  let seriesWrites := seriesEntry m (ID (series x)) in
  match writes seriesWrites !! readPosition seriesWrites with
  | None => None
  | Some write =>
      if requireEqual write x then
        Some (<[ID (series x) :=
                  mkSeriesWrites (writes seriesWrites)
                                 (S (readPosition seriesWrites))]> m, S i)
      else None
  end.

Fixpoint checkAll (yielded : list generatedWrite)
    (st : gmap string seriesWritesAndReadPosition * nat)
    : option (gmap string seriesWritesAndReadPosition * nat) :=
  match yielded with
  | [] => Some st
  | x :: rest =>
      match checkNext st x with
      | Some st' => checkAll rest st'
      | None => None
      end
  end.

(** The part of [TestCommitLogReadWrite] after the log is closed, for
    the writes [ws] and an iterator that yields [yielded]: [true] when
    the test passes. *)
Definition readWriteCheck (ws yielded : list generatedWrite) : bool :=
  match checkAll yielded (writesBySeries ws, 0%nat) with
  | Some (_, i) => bool_decide (length ws = i)
  | None => false
  end.

(** The writes of [l] for the series [id], in the order of [l]. *)
Definition ofSeries (id : string) (l : list generatedWrite)
    : list generatedWrite :=
  List.filter (fun w => bool_decide (ID (series w) = id)) l.

(** The records of each series, in order, are what the writes of the
    series hold from the read position on. *)
Definition fits (m : gmap string seriesWritesAndReadPosition)
    (ys : list generatedWrite) : Prop :=
  forall id, exists matched rest,
    drop (readPosition (seriesEntry m id)) (writes (seriesEntry m id))
      = matched ++ rest /\
    Forall2 (fun x w => requireEqual w x = true) (ofSeries id ys) matched.

(** The record [x] read back has the namespace, shard and instant of
    the write [w], and a value equal to its value as a float. *)
Definition readBack (x w : generatedWrite) : Prop :=
  Namespace (series w) = Namespace (series x) /\
  Shard (series w) = Shard (series x) /\
  float64_eq (Value (datapoint w)) (Value (datapoint x)) = true /\
  Timestamp (datapoint w) = Timestamp (datapoint x).

End CommitLog.

(** ** Sample values

    The values of the scenarios of the specification, on which the
    definitions above are evaluated below. *)

Module Samples.
Import XTime.

Definition hour : Duration := 3600 * 1000000000.
Definition minute : Duration := 60 * 1000000000.

(** An instant aligned to the hour: 2018-06-01 00:00:00 UTC. *)
Definition B0 : Time := (unixToInternal + 1527811200) * 1000000000.

Definition idxopts1h : Result.IndexOptions := Result.mkIndexOptions hour.

Definition seg1 : Result.Segment := Result.SegImmutable 1.
Definition seg2 : Result.Segment := Result.SegImmutable 2.
Definition fresh7 : Result.MutableSegment := Result.mkMutable 7.

Definition allocFresh7 : Result.Options :=
  Result.mkOptions (fun _ => inl fresh7).

Definition fulA : gmap N Ranges := {[ 1%N := [mkRange B0 (B0 + 10 * minute)] ]}.
Definition fulB : gmap N Ranges :=
  {[ 1%N := [mkRange (B0 + 5 * minute) (B0 + 15 * minute)] ]}.
Definition fulC : gmap N Ranges :=
  {[ 1%N := [mkRange (B0 + 20 * minute) (B0 + 30 * minute)] ]}.
Definition fulOut : gmap N Ranges :=
  {[ 1%N := [mkRange (B0 - 1) (B0 + 10 * minute)] ]}.

Definition blockA : Result.IndexBlock := Result.mkIndexBlock B0 [seg1] fulA.
Definition blockB : Result.IndexBlock := Result.mkIndexBlock B0 [seg2] fulB.
Definition blockC : Result.IndexBlock := Result.mkIndexBlock B0 [seg2] fulC.

Definition resultsA : gmap Z Result.IndexBlock := {[ ToUnixNano B0 := blockA ]}.

Definition bootstrapA : Result.indexBootstrapResult :=
  Result.mkIndexBootstrapResult resultsA fulC.

(** A heap with [bootstrapA] at address 1 and an empty result at
    address 2. *)
Definition heapA : gmap positive Result.indexBootstrapResult :=
  <[1%positive := bootstrapA]>
    (<[2%positive := Result.NewIndexBootstrapResult]> ∅).

Definition segHT : Xio.Segment :=
  Xio.mkSegment (Some [Byte.x01; Byte.x02; Byte.x03])
                (Some [Byte.x04; Byte.x05]).
Definition buf2 : list Byte.byte := [Byte.x00; Byte.x00].

Definition logOpts : CommitLog.Options :=
  CommitLog.mkOptions CommitLog.StrategyWriteBehind hour 1024
    (fun w => Some (21 + length (CommitLog.annotation w))%nat).

Definition logOptsWait : CommitLog.Options :=
  CommitLog.mkOptions CommitLog.StrategyWriteWait hour 1024
    (fun w => Some (21 + length (CommitLog.annotation w))%nat).

Definition mkW (i : N) (id : string) (t : Time) (v : Z)
    : CommitLog.generatedWrite :=
  CommitLog.mkWrite (CommitLog.mkSeries i "ns" id 3)
    (CommitLog.mkDatapoint t v) CommitLog.Nanosecond [].

Definition w1 := mkW 0 "a" (B0 + 1) 10.
Definition w2 := mkW 1 "b" (B0 + hour + 1) 20.
Definition w3 := mkW 0 "a" (B0 + hour + 2) 30.


(** Open, two writes the second of which rotates, a timer flush the
    storage rejects, a write that reports the retained error, the same
    write again, accepted, and once more, close. *)
Definition trace : list CommitLog.Event :=
  [CommitLog.EvOpen B0; CommitLog.EvWrite w1 true; CommitLog.EvWrite w2 true;
   CommitLog.EvTick false; CommitLog.EvWrite w3 true;
   CommitLog.EvWrite w3 true; CommitLog.EvWrite w3 true;
   CommitLog.EvClose true].

(** Index options with a block size of 2^62 nanoseconds (146 years),
    and two instants, in 2018 and in 2602, whose block starts, 2^64
    nanoseconds apart, have the same int64 Unix nanoseconds. *)
Definition idxoptsWide : Result.IndexOptions := Result.mkIndexOptions (2 ^ 62).
Definition tEarly : Time := B0.
Definition tLate : Time := B0 + 2 ^ 64.

(** An allocator that fails. *)
Definition allocFails : Result.Options :=
  Result.mkOptions (fun _ => inr (Result.AllocError 1)).

(** Index results built by the methods: a block added, a segment
    obtained for the next hour, a range marked fulfilled. *)
Definition resultsBuilt : gmap Z Result.IndexBlock :=
  snd (Result.MarkFulfilled B0 fulB idxopts1h
         (snd (Result.GetOrAddSegment (B0 + hour + 7) idxopts1h allocFresh7
                 (Result.Add ∅ blockA)))).

Definition blockNext : Result.IndexBlock :=
  Result.mkIndexBlock (B0 + hour) [seg2; Result.SegMutable fresh7] fulC.

(** A second result, with one block of two segments in the next hour. *)
Definition bootstrapB : Result.indexBootstrapResult :=
  Result.mkIndexBootstrapResult {[ ToUnixNano (B0 + hour) := blockNext ]} fulA.

(** [w1] as the iterator could yield it, with another unit, annotation
    and unique index. *)
Definition w1OnDisk : CommitLog.generatedWrite :=
  CommitLog.mkWrite (CommitLog.mkSeries 7 "ns" "a" 3)
    (CommitLog.mkDatapoint (B0 + 1) 10) CommitLog.Hour [Byte.x2a].

(** Calls of [uniqueID] for three series, one of them asked for twice. *)
Definition idCalls : list (string * string) :=
  [("ns", "a"); ("ns", "b"); ("ns", "a"); ("other", "a")].

Definition heapAB : gmap positive Result.indexBootstrapResult :=
  <[1%positive := bootstrapA]> (<[2%positive := bootstrapB]> ∅).

End Samples.

(** * Properties *)

(** ** Ranges *)

Section RangesFacts.
Import XTime.

Lemma Range_containsb_spec x t :
  Range_containsb x t = true <-> Range_contains x t.
Proof.
  unfold Range_containsb, Range_contains.
  rewrite andb_true_iff, Z.leb_le, Z.ltb_lt. tauto.
Qed.

Lemma ToUnixNano_representable t :
  representable t -> ToUnixNano t = t - unixToInternal * 1000000000.
Proof.
  unfold representable, ToUnixNano, wrap64. intros H.
  rewrite Z.mod_small; lia.
Qed.

Lemma ToUnixNano_inj t u :
  representable t -> representable u -> ToUnixNano t = ToUnixNano u -> t = u.
Proof.
  intros Ht Hu. rewrite !ToUnixNano_representable by done. lia.
Qed.

(** A non-empty range lies inside a window exactly when each of its
    instants is an instant of the half-open window. *)
Lemma Range_within_points lo hi x :
  Start x < Finish x ->
  Range_within lo hi x <-> forall t, Range_contains x t -> lo <= t < hi.
Proof.
  unfold Range_within, Range_contains. intros Hx. split.
  - intros [H1 H2] t Ht. lia.
  - intros H. pose proof (H (Start x)). pose proof (H (Finish x - 1)). lia.
Qed.

Lemma Ranges_contains_nil t : ~ Ranges_contains [] t.
Proof. unfold Ranges_contains. intros H. by apply Exists_nil in H. Qed.

Lemma Ranges_contains_cons x l t :
  Ranges_contains (x :: l) t <-> Range_contains x t \/ Ranges_contains l t.
Proof. unfold Ranges_contains. by rewrite Exists_cons. Qed.

Lemma Ranges_containsb_spec l t :
  Ranges_containsb l t = true <-> Ranges_contains l t.
Proof.
  induction l as [|x l IH]; simpl.
  - split; [done | intros H; by apply Ranges_contains_nil in H].
  - rewrite orb_true_iff, Ranges_contains_cons, Range_containsb_spec, <- IH.
    tauto.
Qed.

(** The hull of two ranges that overlap or touch is their union. *)
Lemma Range_hull_contains x y t :
  Start x <= Finish y -> Start y <= Finish x ->
  Range_contains (Range_hull x y) t <-> Range_contains x t \/ Range_contains y t.
Proof. unfold Range_contains, Range_hull; simpl. lia. Qed.

Lemma insertRange_contains x l t :
  Ranges_contains (insertRange x l) t <->
  Range_contains x t \/ Ranges_contains l t.
Proof.
  revert x. induction l as [|y l IH]; intros x; simpl.
  - rewrite Ranges_contains_cons. tauto.
  - destruct (Finish y <? Start x) eqn:E1.
    + rewrite !Ranges_contains_cons, IH. tauto.
    + destruct (Finish x <? Start y) eqn:E2.
      * rewrite !Ranges_contains_cons. tauto.
      * apply Z.ltb_ge in E1, E2.
        rewrite IH, Ranges_contains_cons, Range_hull_contains by lia. tauto.
Qed.

Lemma Ranges_AddRange_contains l x t :
  Ranges_contains (Ranges_AddRange l x) t <->
  Ranges_contains l t \/ Range_contains x t.
Proof.
  unfold Ranges_AddRange, Range_IsEmpty.
  destruct (Finish x <=? Start x) eqn:E.
  - apply Z.leb_le in E. unfold Range_contains. intuition lia.
  - rewrite insertRange_contains. tauto.
Qed.

Lemma Ranges_AddRanges_contains l other t :
  Ranges_contains (Ranges_AddRanges l other) t <->
  Ranges_contains l t \/ Ranges_contains other t.
Proof.
  unfold Ranges_AddRanges. revert l.
  induction other as [|x other IH]; intros l; simpl.
  - pose proof (Ranges_contains_nil t). tauto.
  - rewrite IH, Ranges_AddRange_contains, Ranges_contains_cons. tauto.
Qed.

Lemma insertRange_within lo hi x l :
  Range_within lo hi x -> Forall (Range_within lo hi) l ->
  Forall (Range_within lo hi) (insertRange x l).
Proof.
  revert x. induction l as [|y l IH]; intros x Hx Hl; simpl.
  - by constructor.
  - inversion Hl as [|? ? Hy Hl']; subst.
    destruct (Finish y <? Start x).
    + constructor; [done | by apply IH].
    + destruct (Finish x <? Start y).
      * by constructor.
      * apply IH; [|done].
        unfold Range_within, Range_hull in *; simpl. lia.
Qed.

Lemma Ranges_AddRanges_within lo hi l other :
  Forall (Range_within lo hi) l -> Forall (Range_within lo hi) other ->
  Forall (Range_within lo hi) (Ranges_AddRanges l other).
Proof.
  unfold Ranges_AddRanges. revert l.
  induction other as [|x other IH]; intros l Hl Ho; simpl; [done|].
  inversion Ho; subst. apply IH; [|done].
  unfold Ranges_AddRange. destruct (Range_IsEmpty x); [done|].
  by apply insertRange_within.
Qed.

Lemma Ranges_after_weaken lo lo' l :
  lo' <= lo -> Ranges_after lo l -> Ranges_after lo' l.
Proof.
  intros H Hl. unfold Ranges_after in *.
  eapply Forall_impl; [exact Hl|]. intros y. simpl. lia.
Qed.

Lemma Ranges_canonical_after_contains lo l t :
  Ranges_after lo l -> Ranges_contains l t -> lo < t.
Proof.
  unfold Ranges_after, Ranges_contains. rewrite Forall_forall, Exists_exists.
  intros H (y & Hy & Hc). specialize (H y Hy). unfold Range_contains in Hc. lia.
Qed.

Lemma insertRange_after lo x l :
  lo < Start x -> Ranges_after lo l -> Ranges_after lo (insertRange x l).
Proof.
  revert x. induction l as [|y l IH]; intros x Hx Hl; simpl.
  - by repeat constructor.
  - inversion Hl as [|? ? Hy Hl']; subst.
    destruct (Finish y <? Start x).
    + constructor; [done | by apply IH].
    + destruct (Finish x <? Start y).
      * by repeat constructor.
      * apply IH; [|done]. simpl. lia.
Qed.

(** Adding a non-empty range keeps a set of ranges canonical. *)
Lemma insertRange_canonical x l :
  Start x < Finish x -> Ranges_canonical l ->
  Ranges_canonical (insertRange x l).
Proof.
  revert x. induction l as [|y l IH]; intros x Hx Hl; simpl.
  - repeat split; [done | constructor].
  - destruct Hl as (Hy & Ha & Hl).
    destruct (Finish y <? Start x) eqn:E1.
    + apply Z.ltb_lt in E1. simpl. split; [done|].
      split; [by apply insertRange_after | by apply IH].
    + destruct (Finish x <? Start y) eqn:E2.
      * apply Z.ltb_lt in E2. simpl. repeat split; try done.
        constructor; [done|].
        eapply Ranges_after_weaken; [|exact Ha]. lia.
      * apply IH; [|done]. simpl. lia.
Qed.

Lemma Ranges_AddRanges_canonical l other :
  Ranges_canonical l -> Ranges_canonical (Ranges_AddRanges l other).
Proof.
  unfold Ranges_AddRanges. revert l.
  induction other as [|x other IH]; intros l Hl; simpl; [done|].
  apply IH. unfold Ranges_AddRange, Range_IsEmpty.
  destruct (Finish x <=? Start x) eqn:E; [done|].
  apply Z.leb_gt in E. by apply insertRange_canonical.
Qed.

(** Canonical sets of ranges that contain the same instants are the
    same list. *)
Lemma Ranges_canonical_ext l1 l2 :
  Ranges_canonical l1 -> Ranges_canonical l2 ->
  (forall t, Ranges_contains l1 t <-> Ranges_contains l2 t) ->
  l1 = l2.
Proof.
  revert l2. induction l1 as [|x l1 IH]; intros [|y l2] H1 H2 Hext.
  - done.
  - destruct H2 as (Hy & _ & _). exfalso.
    apply (Ranges_contains_nil (Start y)), Hext, Ranges_contains_cons.
    left. unfold Range_contains. lia.
  - destruct H1 as (Hx & _ & _). exfalso.
    apply (Ranges_contains_nil (Start x)), Hext, Ranges_contains_cons.
    left. unfold Range_contains. lia.
  - destruct H1 as (Hx & Hax & Hc1). destruct H2 as (Hy & Hay & Hc2).
    assert (forall t, Ranges_contains (x :: l1) t -> Start x <= t) as Hlo1.
    { intros t Ht. apply Ranges_contains_cons in Ht as [Ht|Ht].
      - unfold Range_contains in Ht. lia.
      - pose proof (Ranges_canonical_after_contains _ _ _ Hax Ht). lia. }
    assert (forall t, Ranges_contains (y :: l2) t -> Start y <= t) as Hlo2.
    { intros t Ht. apply Ranges_contains_cons in Ht as [Ht|Ht].
      - unfold Range_contains in Ht. lia.
      - pose proof (Ranges_canonical_after_contains _ _ _ Hay Ht). lia. }
    assert (Start x = Start y) as Hs.
    { assert (Start y <= Start x).
      { apply Hlo2, Hext, Ranges_contains_cons. left.
        unfold Range_contains. lia. }
      assert (Start x <= Start y).
      { apply Hlo1, Hext, Ranges_contains_cons. left.
        unfold Range_contains. lia. }
      lia. }
    assert (forall (a b : Range) la lb,
              Start a = Start b -> Start a < Finish a ->
              Ranges_after (Finish a) la ->
              (forall t, Ranges_contains (a :: la) t <->
                         Ranges_contains (b :: lb) t) ->
              Finish b <= Finish a) as Hfin.
    { intros a b la lb Hab Ha Hla Hex.
      destruct (Z_le_gt_dec (Finish b) (Finish a)) as [|Hgt]; [done|].
      exfalso.
      assert (Ranges_contains (a :: la) (Finish a)) as Hin.
      { apply Hex, Ranges_contains_cons. left. unfold Range_contains. lia. }
      apply Ranges_contains_cons in Hin as [Hin|Hin].
      - unfold Range_contains in Hin. lia.
      - pose proof (Ranges_canonical_after_contains _ _ _ Hla Hin). lia. }
    assert (Finish x = Finish y) as Hf.
    { pose proof (Hfin x y l1 l2 Hs Hx Hax Hext).
      assert (forall t, Ranges_contains (y :: l2) t <->
                        Ranges_contains (x :: l1) t) as Hext'
        by (intros t; symmetry; apply Hext).
      pose proof (Hfin y x l2 l1 (eq_sym Hs) Hy Hay Hext'). lia. }
    assert (x = y) as -> by (destruct x, y; simpl in *; congruence).
    f_equal. apply IH; [done | done |].
    intros t. specialize (Hext t). rewrite !Ranges_contains_cons in Hext.
    split; intros Ht.
    + pose proof (Ranges_canonical_after_contains _ _ _ Hax Ht).
      destruct Hext as [[Hc|Hc] _]; [by right | | done].
      unfold Range_contains in Hc. lia.
    + pose proof (Ranges_canonical_after_contains _ _ _ Hay Ht).
      destruct Hext as [_ [Hc|Hc]]; [by right | | done].
      unfold Range_contains in Hc. lia.
Qed.

Lemma Ranges_AddRanges_comm l1 l2 :
  Ranges_canonical l1 -> Ranges_canonical l2 ->
  Ranges_AddRanges l1 l2 = Ranges_AddRanges l2 l1.
Proof.
  intros H1 H2. apply Ranges_canonical_ext.
  - by apply Ranges_AddRanges_canonical.
  - by apply Ranges_AddRanges_canonical.
  - intros t. rewrite !Ranges_AddRanges_contains. tauto.
Qed.

Lemma fold_left_min_le (l : list Z) (a : Z) :
  fold_left Z.min l a <= a /\ Forall (fun z => fold_left Z.min l a <= z) l.
Proof.
  revert a. induction l as [|z l IH]; intros a; simpl.
  - split; [lia | constructor].
  - destruct (IH (Z.min a z)) as [H1 H2]. split; [lia|].
    constructor; [lia | done].
Qed.

Lemma fold_left_max_ge (l : list Z) (a : Z) :
  a <= fold_left Z.max l a /\ Forall (fun z => z <= fold_left Z.max l a) l.
Proof.
  revert a. induction l as [|z l IH]; intros a; simpl.
  - split; [lia | constructor].
  - destruct (IH (Z.max a z)) as [H1 H2]. split; [lia|].
    constructor; [lia | done].
Qed.

End RangesFacts.

(** ** Shard time ranges *)

Section ShardTimeRangesFacts.
Import XTime Result.

Lemma STR_coversb_spec (m : ShardTimeRanges) shard t :
  STR_coversb m shard t = true <-> STR_covers m shard t.
Proof.
  unfold STR_coversb, STR_covers. destruct (m !! shard) as [l|].
  - rewrite Ranges_containsb_spec. split; [eauto|].
    intros (l' & [= <-] & H). done.
  - split; [done | intros (l' & [=] & _)].
Qed.

Lemma STR_IsEmpty_true (m : ShardTimeRanges) :
  STR_IsEmpty m = true <-> forall shard l, m !! shard = Some l -> l = [].
Proof.
  unfold STR_IsEmpty. rewrite forallb_forall. split.
  - intros H shard l Hl.
    apply elem_of_map_to_list, list_elem_of_In, H in Hl. simpl in Hl.
    by destruct l.
  - intros H [shard l] Hin. simpl.
    apply list_elem_of_In, elem_of_map_to_list, H in Hin. by subst.
Qed.

Lemma STR_IsEmpty_not_covers (m : ShardTimeRanges) shard t :
  STR_IsEmpty m = true -> ~ STR_covers m shard t.
Proof.
  intros He (l & Hl & Hc).
  rewrite STR_IsEmpty_true in He. apply He in Hl as ->.
  by apply Ranges_contains_nil in Hc.
Qed.

Lemma STR_IsEmpty_empty : STR_IsEmpty ∅ = true.
Proof. apply STR_IsEmpty_true. intros shard l H. by rewrite lookup_empty in H. Qed.

Lemma STR_AddRanges_lookup (m other : ShardTimeRanges) shard :
  STR_AddRanges m other !! shard =
  match m !! shard, other !! shard with
  | Some l, Some l' => Some (Ranges_AddRanges l l')
  | Some l, None => Some l
  | None, o => o
  end.
Proof.
  unfold STR_AddRanges. rewrite lookup_union_with.
  by destruct (m !! shard), (other !! shard).
Qed.

Lemma STR_AddRanges_covers (m other : ShardTimeRanges) shard t :
  STR_covers (STR_AddRanges m other) shard t <->
  STR_covers m shard t \/ STR_covers other shard t.
Proof.
  unfold STR_covers. rewrite STR_AddRanges_lookup.
  destruct (m !! shard) as [l|], (other !! shard) as [l'|].
  - split.
    + intros (l0 & [= <-] & H).
      apply Ranges_AddRanges_contains in H as [H|H]; eauto.
    + intros H. eexists; split; [done|].
      apply Ranges_AddRanges_contains.
      destruct H as [(l0 & [= <-] & H)|(l0 & [= <-] & H)]; tauto.
  - split; [eauto|]. intros [H|(l0 & [=] & _)]. done.
  - split; [eauto|]. intros [(l0 & [=] & _)|H]. done.
  - split; [eauto|]. intros [H|H]; done.
Qed.

Lemma STR_AddRanges_empty_r (m : ShardTimeRanges) : STR_AddRanges m ∅ = m.
Proof.
  apply map_eq. intros shard. rewrite STR_AddRanges_lookup, lookup_empty.
  by destruct (m !! shard).
Qed.

Lemma STR_AddRanges_empty_l (m : ShardTimeRanges) : STR_AddRanges ∅ m = m.
Proof.
  apply map_eq. intros shard. by rewrite STR_AddRanges_lookup, lookup_empty.
Qed.

Lemma insertRange_nonempty x l : insertRange x l <> [].
Proof.
  revert x. induction l as [|y l IH]; intros x; simpl; [done|].
  destruct (Finish y <? Start x); [done|].
  destruct (Finish x <? Start y); [done | apply IH].
Qed.

Lemma Ranges_AddRanges_nonempty l other :
  l <> [] -> Ranges_AddRanges l other <> [].
Proof.
  unfold Ranges_AddRanges. revert l.
  induction other as [|x other IH]; intros l Hl; simpl; [done|].
  apply IH. unfold Ranges_AddRange.
  destruct (Range_IsEmpty x); [done | apply insertRange_nonempty].
Qed.

(** [AddRanges] keeps the invariant of shard time ranges. *)
Lemma STR_AddRanges_canonical (m other : ShardTimeRanges) :
  STR_canonical m -> STR_canonical other ->
  STR_canonical (STR_AddRanges m other).
Proof.
  intros Hm Ho shard l. rewrite STR_AddRanges_lookup.
  destruct (m !! shard) as [l1|] eqn:E1, (other !! shard) as [l2|] eqn:E2;
    intros [= <-]; eauto.
  destruct (Hm _ _ E1) as [Hn Hc]. split.
  - by apply Ranges_AddRanges_nonempty.
  - by apply Ranges_AddRanges_canonical.
Qed.

(** On values that satisfy the invariant, [AddRanges] commutes. *)
Lemma STR_AddRanges_comm (m other : ShardTimeRanges) :
  STR_canonical m -> STR_canonical other ->
  STR_AddRanges m other = STR_AddRanges other m.
Proof.
  intros Hm Ho. apply map_eq. intros shard. rewrite !STR_AddRanges_lookup.
  destruct (m !! shard) as [l1|] eqn:E1, (other !! shard) as [l2|] eqn:E2;
    try done.
  f_equal. apply Ranges_AddRanges_comm; [by apply (Hm shard) | by apply (Ho shard)].
Qed.

Lemma STR_IsEmpty_canonical (m : ShardTimeRanges) :
  STR_canonical m -> STR_IsEmpty m = true -> m = ∅.
Proof.
  intros Hc He. apply map_eq. intros shard. rewrite lookup_empty.
  destruct (m !! shard) as [l|] eqn:E; [|done].
  destruct (Hc _ _ E) as [Hn _].
  rewrite STR_IsEmpty_true in He. by apply He in E.
Qed.

Lemma STR_AddRanges_within lo hi (m other : ShardTimeRanges) :
  STR_within lo hi m -> STR_within lo hi other ->
  STR_within lo hi (STR_AddRanges m other).
Proof.
  intros Hm Ho shard l. rewrite STR_AddRanges_lookup.
  destruct (m !! shard) as [l1|] eqn:E1, (other !! shard) as [l2|] eqn:E2;
    intros [= <-]; eauto.
  apply Ranges_AddRanges_within; eauto.
Qed.

Lemma STR_within_empty lo hi : STR_within lo hi ∅.
Proof. intros shard l H. by rewrite lookup_empty in H. Qed.

Lemma STR_allRanges_elem (m : ShardTimeRanges) shard l x :
  m !! shard = Some l -> x ∈ l -> x ∈ STR_allRanges m.
Proof.
  intros Hl Hx. unfold STR_allRanges.
  apply list_elem_of_In, in_concat. exists l. split; [|by apply list_elem_of_In].
  apply list_elem_of_In, list_elem_of_fmap. exists (shard, l). split; [done|].
  by apply elem_of_map_to_list.
Qed.

(** [MinMax] bounds every range of the value. *)
Lemma STR_MinMax_bounds (m : ShardTimeRanges) mn mx :
  STR_MinMax m = (mn, mx) -> STR_within mn mx m.
Proof.
  unfold STR_MinMax. intros HM shard l Hl.
  apply Forall_forall. intros x Hx.
  pose proof (STR_allRanges_elem _ _ _ _ Hl Hx) as Hin.
  destruct (STR_allRanges m) as [|y rest]; [by apply elem_of_nil in Hin|].
  injection HM as <- <-.
  destruct (fold_left_min_le (Start <$> rest) (Start y)) as [Hm1 Hm2].
  destruct (fold_left_max_ge (Finish <$> rest) (Finish y)) as [HM1 HM2].
  apply elem_of_cons in Hin as [->|Hin]; [done|].
  rewrite Forall_forall in Hm2, HM2. split.
  - apply Hm2, list_elem_of_fmap. eauto.
  - apply HM2, list_elem_of_fmap. eauto.
Qed.

(** On a non-empty value that satisfies the invariant, the earliest
    start is before the latest end. *)
Lemma STR_MinMax_span (m : ShardTimeRanges) :
  STR_canonical m -> STR_IsEmpty m = false ->
  fst (STR_MinMax m) < snd (STR_MinMax m).
Proof.
  intros Hc He.
  assert (exists shard l, m !! shard = Some l) as (shard & l & Hl).
  { destruct (map_to_list m) as [|[shard l] rest] eqn:E.
    - apply map_to_list_empty_iff in E. subst m.
      by rewrite STR_IsEmpty_empty in He.
    - exists shard, l. apply elem_of_map_to_list. rewrite E. by left. }
  destruct (Hc _ _ Hl) as [Hn Hcan].
  destruct l as [|x l]; [done|]. destruct Hcan as (Hx & _ & _).
  destruct (STR_MinMax m) as [mn mx] eqn:EM.
  pose proof (STR_MinMax_bounds m mn mx EM shard _ Hl) as Hb.
  inversion Hb as [|? ? [H1 H2] _]; subst. simpl. lia.
Qed.

Lemma STR_within_mono lo hi lo' hi' (m : ShardTimeRanges) :
  lo' <= lo -> hi <= hi' -> STR_within lo hi m -> STR_within lo' hi' m.
Proof.
  intros Hlo Hhi H shard l Hl. specialize (H shard l Hl).
  eapply Forall_impl; [exact H|]. unfold Range_within. intros x. simpl. lia.
Qed.

Lemma Range_overlaps_false x y t :
  Range_overlaps x y = false -> ~ (Range_contains x t /\ Range_contains y t).
Proof.
  unfold Range_overlaps, Range_contains. rewrite andb_false_iff, !Z.ltb_ge. lia.
Qed.

Lemma STR_disjointb_sound (a b : ShardTimeRanges) :
  STR_disjointb a b = true -> STR_disjoint a b.
Proof.
  unfold STR_disjointb. rewrite forallb_forall.
  intros H shard t [(la & Hla & Ha) (lb & Hlb & Hb)].
  apply elem_of_map_to_list, list_elem_of_In, H in Hla. cbn [fst snd] in Hla.
  rewrite Hlb in Hla. rewrite forallb_forall in Hla.
  apply Exists_exists in Ha as (x & Hx & Hxt).
  apply Exists_exists in Hb as (y & Hy & Hyt).
  apply list_elem_of_In, Hla in Hx. rewrite forallb_forall in Hx.
  apply list_elem_of_In, Hx in Hy. apply negb_true_iff in Hy.
  exact (Range_overlaps_false _ _ t Hy (conj Hxt Hyt)).
Qed.

End ShardTimeRangesFacts.

(** ** Index blocks *)

Section IndexBlockFacts.
Import XTime Result.

Lemma Merged_blockStart a b : blockStart (Merged a b) = blockStart a.
Proof.
  unfold Merged.
  by destruct (0 <? length (segments b))%nat, (STR_IsEmpty (fulfilled b)).
Qed.

Lemma Merged_segments a b : segments (Merged a b) = segments a ++ segments b.
Proof.
  unfold Merged.
  destruct (segments b) as [|s l] eqn:E; simpl.
  - rewrite app_nil_r. by destruct (STR_IsEmpty (fulfilled b)).
  - by destruct (STR_IsEmpty (fulfilled b)).
Qed.

Lemma Merged_fulfilled a b :
  fulfilled (Merged a b) =
  if STR_IsEmpty (fulfilled b) then fulfilled a
  else STR_AddRanges (fulfilled a) (fulfilled b).
Proof.
  unfold Merged, STR_Copy.
  by destruct (0 <? length (segments b))%nat, (STR_IsEmpty (fulfilled b)).
Qed.

Lemma Merged_fulfilled_union a b :
  STR_is_union (fulfilled (Merged a b)) (fulfilled a) (fulfilled b).
Proof.
  intros shard t. rewrite Merged_fulfilled.
  destruct (STR_IsEmpty (fulfilled b)) eqn:E.
  - pose proof (STR_IsEmpty_not_covers _ shard t E). tauto.
  - apply STR_AddRanges_covers.
Qed.

Lemma Merged_fulfilled_within lo hi a b :
  STR_within lo hi (fulfilled a) -> STR_within lo hi (fulfilled b) ->
  STR_within lo hi (fulfilled (Merged a b)).
Proof.
  intros Ha Hb. rewrite Merged_fulfilled.
  destruct (STR_IsEmpty (fulfilled b)); [done|].
  by apply STR_AddRanges_within.
Qed.

(** [Merged] keeps the invariant of the fulfilled ranges. *)
Lemma Merged_fulfilled_canonical a b :
  STR_canonical (fulfilled a) -> STR_canonical (fulfilled b) ->
  STR_canonical (fulfilled (Merged a b)).
Proof.
  intros Ha Hb. rewrite Merged_fulfilled.
  destruct (STR_IsEmpty (fulfilled b)); [done|].
  by apply STR_AddRanges_canonical.
Qed.

(** On blocks whose fulfilled ranges satisfy the invariant, the
    fulfilled ranges of [Merged a b] and [Merged b a] are the same
    mapping. *)
Lemma Merged_canonical_comm a b :
  STR_canonical (fulfilled a) -> STR_canonical (fulfilled b) ->
  fulfilled (Merged a b) = fulfilled (Merged b a).
Proof.
  intros Ha Hb. rewrite !Merged_fulfilled.
  destruct (STR_IsEmpty (fulfilled b)) eqn:Eb, (STR_IsEmpty (fulfilled a)) eqn:Ea.
  - rewrite (STR_IsEmpty_canonical _ Ha Ea). by rewrite (STR_IsEmpty_canonical _ Hb Eb).
  - rewrite (STR_IsEmpty_canonical _ Hb Eb). by rewrite STR_AddRanges_empty_l.
  - rewrite (STR_IsEmpty_canonical _ Ha Ea). by rewrite STR_AddRanges_empty_l.
  - by apply STR_AddRanges_comm.
Qed.

(** C4.  For index blocks [a] and [b] with equal block starts,
    [Merged a b] has the block start of [a], the segments of [a]
    followed by the segments of [b], in that order and with nothing
    removed, and fulfilled ranges denoting the union of the fulfilled
    ranges of [a] and of [b]. *)
Theorem Merged_spec (a b : IndexBlock) :
  blockStart a = blockStart b ->
  blockStart (Merged a b) = blockStart a /\
  segments (Merged a b) = segments a ++ segments b /\
  STR_is_union (fulfilled (Merged a b)) (fulfilled a) (fulfilled b).
Proof.
  intros _. split; [apply Merged_blockStart|].
  split; [apply Merged_segments | apply Merged_fulfilled_union].
Qed.

(** C7.  For index blocks [a] and [b] with equal block starts and
    disjoint fulfilled ranges, the fulfilled ranges of [Merged a b] and
    of [Merged b a] denote the same set, the union of the fulfilled
    ranges of [a] and of [b]; when the fulfilled ranges of [a] and [b]
    satisfy the invariant of shard time ranges, the two are the same
    mapping. *)
Theorem Merged_fulfilled_comm (a b : IndexBlock) :
  blockStart a = blockStart b ->
  STR_disjoint (fulfilled a) (fulfilled b) ->
  STR_equiv (fulfilled (Merged a b)) (fulfilled (Merged b a)) /\
  STR_is_union (fulfilled (Merged a b)) (fulfilled a) (fulfilled b) /\
  STR_is_union (fulfilled (Merged b a)) (fulfilled a) (fulfilled b) /\
  (STR_canonical (fulfilled a) -> STR_canonical (fulfilled b) ->
   fulfilled (Merged a b) = fulfilled (Merged b a)).
Proof.
  intros _ _.
  pose proof (Merged_fulfilled_union a b) as Hab.
  pose proof (Merged_fulfilled_union b a) as Hba.
  split; [|split; [|split]].
  - intros shard t. rewrite (Hab shard t), (Hba shard t). tauto.
  - done.
  - intros shard t. rewrite (Hba shard t). tauto.
  - apply Merged_canonical_comm.
Qed.

End IndexBlockFacts.

(** ** Index results *)

Section IndexResultsFacts.
Import XTime Result.

(** C8.  [Add r block] is [r] when the start of [block] is the zero
    instant; otherwise the entry at the key of the start of [block]
    becomes [block] when there was none, and the former entry merged
    with [block] when there was one; no other entry changes. *)
Theorem Add_spec (r : IndexResults) (block : IndexBlock) :
  let key := ToUnixNano (BlockStart block) in
  (BlockStart block = zeroTime -> Add r block = r) /\
  (BlockStart block <> zeroTime ->
   (r !! key = None -> Add r block = <[key := block]> r) /\
   (forall existing, r !! key = Some existing ->
      Add r block = <[key := Merged existing block]> r) /\
   (forall k, k <> key -> Add r block !! k = r !! k)).
Proof.
  intros key. unfold Add, IsZero, zeroTime. fold key. split.
  - intros ->. done.
  - intros Hnz. apply Z.eqb_neq in Hnz as ->.
    split; [|split].
    + intros ->. done.
    + intros existing ->. done.
    + intros k Hk. destruct (r !! key); by rewrite lookup_insert_ne.
Qed.

Lemma firstMutable_Some segs m :
  firstMutable segs = Some m ->
  exists pre post,
    segs = pre ++ SegMutable m :: post /\
    Forall (fun s => asMutable s = None) pre.
Proof.
  induction segs as [|s segs IH]; simpl; [done|].
  destruct s as [m'|id]; simpl.
  - intros [= ->]. exists [], segs. split; [done | constructor].
  - intros H. destruct (IH H) as (pre & post & -> & Hpre).
    exists (SegImmutable id :: pre), post. split; [done|].
    by constructor.
Qed.

Lemma firstMutable_None segs :
  firstMutable segs = None <-> Forall (fun s => asMutable s = None) segs.
Proof.
  induction segs as [|s segs IH]; simpl.
  - split; [constructor | done].
  - destruct s as [m'|id]; simpl.
    + split; [done | intros H; by inversion H].
    + rewrite IH. split; [by constructor | intros H; by inversion H].
Qed.

Lemma Merged_one_segment b start seg :
  Merged b (NewIndexBlock start [seg] None) =
  mkIndexBlock (blockStart b) (segments b ++ [seg]) (fulfilled b).
Proof. unfold Merged, NewIndexBlock; simpl. by rewrite STR_IsEmpty_empty. Qed.

(** What [GetOrAddSegment] computes, case by case. *)
Lemma GetOrAddSegment_cases t idxopts opts (r : IndexResults) :
  let start := Truncate t (BlockSize idxopts) in
  let key := ToUnixNano start in
  let block := default (NewIndexBlock start [] None) (r !! key) in
  GetOrAddSegment t idxopts opts r =
  match firstMutable (segments block) with
  | Some m => (inl m, r)
  | None =>
      match IndexMutableSegmentAllocator opts tt with
      | inl m =>
          (inl m,
           <[key := mkIndexBlock (blockStart block)
                      (segments block ++ [SegMutable m]) (fulfilled block)]> r)
      | inr e => (inr e, <[key := block]> r)
      end
  end.
Proof.
  intros start key block. unfold GetOrAddSegment. fold start key.
  unfold block. destruct (r !! key) as [old|] eqn:E; simpl.
  - unfold Segments. destruct (firstMutable (segments old)); [done|].
    destruct (IndexMutableSegmentAllocator opts tt) as [m|e].
    + by rewrite Merged_one_segment.
    + by rewrite insert_id.
  - destruct (IndexMutableSegmentAllocator opts tt) as [m|e]; [|done].
    by rewrite insert_insert_eq, Merged_one_segment.
Qed.

(** The operations keep every block under the key of its start. *)
Lemma Add_keyed (r : IndexResults) block : keyed r -> keyed (Add r block).
Proof.
  intros Hk. unfold Add. destruct (IsZero (BlockStart block)); [done|].
  destruct (r !! ToUnixNano (BlockStart block)) as [existing|] eqn:E;
    intros k b; rewrite lookup_insert;
    (case_decide as Hd; [intros [= <-] | by apply Hk]).
  - rewrite Merged_blockStart. rewrite <- Hd. by apply Hk.
  - by rewrite <- Hd.
Qed.

Lemma AddResults_keyed (r : IndexResults) blocks :
  keyed r -> keyed (AddResults r blocks).
Proof.
  unfold AddResults. revert r.
  induction blocks as [|b blocks IH]; intros r Hk; simpl; [done|].
  by apply IH, Add_keyed.
Qed.

Lemma GetOrAddSegment_keyed t idxopts opts (r : IndexResults) :
  keyed r -> keyed (snd (GetOrAddSegment t idxopts opts r)).
Proof.
  intros Hk. rewrite GetOrAddSegment_cases.
  set (start := Truncate t (BlockSize idxopts)).
  set (key := ToUnixNano start).
  assert (ToUnixNano
            (blockStart (default (NewIndexBlock start [] None) (r !! key)))
          = key) as Hb.
  { destruct (r !! key) as [old|] eqn:E; simpl; [by apply Hk | done]. }
  destruct (firstMutable _); [done|].
  destruct (IndexMutableSegmentAllocator opts tt); simpl;
    intros k b; rewrite lookup_insert;
    (case_decide as Hd; [intros [= <-]; by rewrite <- Hd | by apply Hk]).
Qed.

(** In a map that keeps every block under the key of its start, the
    entry at the key of a representable instant has that instant as its
    start, provided its own start is representable. *)
Lemma keyed_entry_start (r : IndexResults) start old :
  keyed r -> representable start -> representable (blockStart old) ->
  r !! ToUnixNano start = Some old -> blockStart old = start.
Proof.
  intros Hk Hs Ho Hl. apply ToUnixNano_inj; [done | done |]. by apply Hk.
Qed.

Lemma firstMutable_found pre m post :
  Forall (fun s => forall m', s <> SegMutable m') pre ->
  firstMutable (pre ++ SegMutable m :: post) = Some m.
Proof.
  induction 1 as [|s pre Hs _ IH]; simpl; [done|].
  destruct s as [m'|id]; simpl; [by destruct (Hs m') | done].
Qed.

Lemma firstMutable_absent segs :
  Forall (fun s => forall m', s <> SegMutable m') segs ->
  firstMutable segs = None.
Proof.
  intros H. apply firstMutable_None. eapply Forall_impl; [exact H|].
  intros [m'|id] Hs; simpl; [by destruct (Hs m') | done].
Qed.

(** C2, amended.  [GetOrAddSegment t idxopts opts] works on the entry
    keyed by [t] truncated to the block size, an absent entry counting
    as a new block without segments.  If the segments of that block
    contain a mutable one, the first such is returned and the map is
    unchanged.  Otherwise a segment is taken from the allocator of
    [opts], the block is stored with that segment appended after its
    former segments and with its start and fulfilled ranges unchanged,
    and the segment is returned.  Whenever a segment is returned it is
    among the segments of the entry keyed by the truncation of [t] and
    no other entry has changed; the start of that block is the
    truncation of [t] when the map holds every block under the key of
    its start and both the truncation of [t] and the start of the
    former entry are representable as int64 Unix nanoseconds. *)
Theorem GetOrAddSegment_spec t idxopts opts (r : IndexResults) :
  let start := Truncate t (BlockSize idxopts) in
  let key := ToUnixNano start in
  let block := default (NewIndexBlock start [] None) (r !! key) in
  (forall pre m post,
     segments block = pre ++ SegMutable m :: post ->
     Forall (fun s => forall m', s <> SegMutable m') pre ->
     GetOrAddSegment t idxopts opts r = (inl m, r) /\ r !! key = Some block) /\
  (Forall (fun s => forall m', s <> SegMutable m') (segments block) ->
   forall m, IndexMutableSegmentAllocator opts tt = inl m ->
     GetOrAddSegment t idxopts opts r =
     (inl m,
      <[key := mkIndexBlock (blockStart block)
                 (segments block ++ [SegMutable m]) (fulfilled block)]> r)) /\
  (forall m r', GetOrAddSegment t idxopts opts r = (inl m, r') ->
     exists b, r' !! key = Some b /\ SegMutable m ∈ segments b /\
       (forall k, k <> key -> r' !! k = r !! k) /\
       (keyed r -> representable start ->
        (forall old, r !! key = Some old -> representable (blockStart old)) ->
        blockStart b = start)).
Proof.
  intros start key block.
  pose proof (GetOrAddSegment_cases t idxopts opts r) as Hc.
  cbv zeta in Hc. fold start key block in Hc.
  split; [|split].
  - intros pre m post Hseg Hpre.
    rewrite Hseg, (firstMutable_found _ _ _ Hpre) in Hc. split; [done|].
    unfold block in *. destruct (r !! key); [done|].
    simpl in Hseg. by destruct pre.
  - intros Hall m Hm. by rewrite (firstMutable_absent _ Hall), Hm in Hc.
  - intros m r' Hr. rewrite Hc in Hr.
    assert (Hstart : keyed r -> representable start ->
              (forall old, r !! key = Some old -> representable (blockStart old)) ->
              blockStart block = start).
    { intros Hk Hs Ho. unfold block.
      destruct (r !! key) as [old|] eqn:E; simpl; [|done].
      apply (keyed_entry_start r); eauto. }
    destruct (firstMutable (segments block)) as [m0|] eqn:Hf.
    + injection Hr as <- <-.
      assert (He : r !! key = Some block).
      { unfold block in *. destruct (r !! key); [done|]. by simpl in Hf. }
      exists block. split; [done|]. split; [|by split].
      apply firstMutable_Some in Hf as (pre & post & -> & _).
      apply elem_of_app. right. by left.
    + destruct (IndexMutableSegmentAllocator opts tt) as [m0|e]; [|done].
      injection Hr as <- <-. eexists. split; [apply lookup_insert_eq|].
      simpl. split; [|split; [|done]].
      * apply elem_of_app. right. by left.
      * intros k Hk. by rewrite lookup_insert_ne.
Qed.

(** What [MarkFulfilled] computes, case by case. *)
Lemma MarkFulfilled_cases t ful idxopts (r : IndexResults) :
  let start := Truncate t (BlockSize idxopts) in
  let key := ToUnixNano start in
  let block := default (NewIndexBlock start [] None) (r !! key) in
  MarkFulfilled t ful idxopts r =
  if (fst (STR_MinMax ful) <? start)
     || (start + BlockSize idxopts <? snd (STR_MinMax ful))
  then (Some RangeOutOfBlock, r)
  else (None, <[key := Merged block (NewIndexBlock start [] (Some ful))]> r).
Proof.
  intros start key block. unfold MarkFulfilled. fold start key.
  destruct (STR_MinMax ful) as [mn mx]. simpl.
  unfold Before, After, XTime.Add.
  destruct ((mn <? start) || (start + BlockSize idxopts <? mx)); [done|].
  unfold block. destruct (r !! key) as [old|]; simpl; [done|].
  by rewrite insert_insert_eq.
Qed.

Lemma MarkFulfilled_keyed t ful idxopts (r : IndexResults) :
  keyed r -> keyed (snd (MarkFulfilled t ful idxopts r)).
Proof.
  intros Hk. rewrite MarkFulfilled_cases.
  set (start := Truncate t (BlockSize idxopts)).
  set (key := ToUnixNano start).
  destruct (_ || _); [done|]. simpl.
  intros k b. rewrite lookup_insert.
  case_decide as Hd; [intros [= <-] | by apply Hk].
  rewrite Merged_blockStart, <- Hd.
  destruct (r !! key) as [old|] eqn:E; simpl; [by apply Hk | done].
Qed.

(** C3.  For a non-empty [ful], [MarkFulfilled t ful idxopts] returns
    the range error exactly when the range from the earliest start to
    the latest end of [ful] does not lie inside the window that starts
    at the truncation of [t] and lasts one block size (for a [ful] that
    satisfies the invariant of shard time ranges: exactly when some
    instant of that range is outside the half-open window); with that
    error the map is unchanged; without it the entry at the truncation
    of [t] keeps its start and segments and its fulfilled ranges become
    the union of the former ones and [ful], no other entry changing. *)
Theorem MarkFulfilled_spec t ful idxopts (r : IndexResults) :
  STR_IsEmpty ful = false ->
  let start := Truncate t (BlockSize idxopts) in
  let key := ToUnixNano start in
  let block := default (NewIndexBlock start [] None) (r !! key) in
  let span := mkRange (fst (STR_MinMax ful)) (snd (STR_MinMax ful)) in
  let res := MarkFulfilled t ful idxopts r in
  (fst res = Some RangeOutOfBlock <->
   ~ Range_within start (start + BlockSize idxopts) span) /\
  (fst res = None <-> Range_within start (start + BlockSize idxopts) span) /\
  (STR_canonical ful ->
   (fst res = Some RangeOutOfBlock <->
    ~ forall u, Range_contains span u ->
                start <= u < start + BlockSize idxopts)) /\
  (fst res = Some RangeOutOfBlock -> snd res = r) /\
  (fst res = None ->
   exists b, snd res !! key = Some b /\
     blockStart b = blockStart block /\
     segments b = segments block /\
     STR_is_union (fulfilled b) (fulfilled block) ful /\
     forall k, k <> key -> snd res !! k = r !! k).
Proof.
  intros Hne start key block span res.
  pose proof (MarkFulfilled_cases t ful idxopts r) as Hc.
  cbv zeta in Hc. fold start key block res in Hc.
  assert (fst res = Some RangeOutOfBlock <->
          ~ Range_within start (start + BlockSize idxopts) span) as Herr.
  { unfold Range_within, span; simpl. rewrite Hc.
    destruct ((fst (STR_MinMax ful) <? start)
              || (start + BlockSize idxopts <? snd (STR_MinMax ful))) eqn:E;
      simpl.
    - apply orb_true_iff in E. rewrite !Z.ltb_lt in E. split; [lia | done].
    - apply orb_false_iff in E. rewrite !Z.ltb_ge in E. split; [done | lia]. }
  assert (fst res = None <->
          Range_within start (start + BlockSize idxopts) span) as Hok.
  { unfold Range_within, span; simpl. rewrite Hc.
    destruct ((fst (STR_MinMax ful) <? start)
              || (start + BlockSize idxopts <? snd (STR_MinMax ful))) eqn:E;
      simpl.
    - apply orb_true_iff in E. rewrite !Z.ltb_lt in E. split; [done | lia].
    - apply orb_false_iff in E. rewrite !Z.ltb_ge in E. split; [lia | done]. }
  split; [exact Herr|]. split; [exact Hok|]. split; [|split].
  - intros Hcan. rewrite Herr.
    rewrite (Range_within_points _ _ span); [done|].
    by apply STR_MinMax_span.
  - rewrite Hc. by destruct ((fst (STR_MinMax ful) <? start)
              || (start + BlockSize idxopts <? snd (STR_MinMax ful))).
  - rewrite Hc. destruct ((fst (STR_MinMax ful) <? start)
              || (start + BlockSize idxopts <? snd (STR_MinMax ful))); [done|].
    simpl. intros _. exists (Merged block (NewIndexBlock start [] (Some ful))).
    split; [by rewrite lookup_insert_eq|].
    rewrite Merged_blockStart, Merged_segments. simpl.
    rewrite app_nil_r. split; [done|]. split; [done|].
    split; [apply Merged_fulfilled_union|].
    intros k Hk. by rewrite lookup_insert_ne.
Qed.

(** C6.  If the fulfilled ranges of the entry at the truncation of [t]
    all lie inside the window of that block, they still do after a
    [MarkFulfilled t ful idxopts] that returns no error. *)
Theorem MarkFulfilled_within t ful idxopts (r r' : IndexResults) :
  let start := Truncate t (BlockSize idxopts) in
  let key := ToUnixNano start in
  (forall b, r !! key = Some b ->
     STR_within start (start + BlockSize idxopts) (fulfilled b)) ->
  MarkFulfilled t ful idxopts r = (None, r') ->
  exists b', r' !! key = Some b' /\
    STR_within start (start + BlockSize idxopts) (fulfilled b').
Proof.
  intros start key Hr Hm.
  rewrite MarkFulfilled_cases in Hm. fold start key in Hm.
  destruct ((fst (STR_MinMax ful) <? start)
            || (start + BlockSize idxopts <? snd (STR_MinMax ful))) eqn:E;
    [done|].
  apply orb_false_iff in E. rewrite !Z.ltb_ge in E.
  injection Hm as <-.
  exists (Merged (default (NewIndexBlock start [] None) (r !! key))
            (NewIndexBlock start [] (Some ful))).
  split; [by rewrite lookup_insert_eq|].
  apply Merged_fulfilled_within.
  - destruct (r !! key) as [old|] eqn:Eo; simpl; [by apply Hr|].
    apply STR_within_empty.
  - simpl. eapply STR_within_mono; [| |apply STR_MinMax_bounds].
    + apply E.
    + apply E.
    + by destruct (STR_MinMax ful).
Qed.

Lemma AddResults_nil (r : IndexResults) : AddResults r [] = r.
Proof. done. Qed.

Lemma valid_order_empty order : valid_order order -> order ∅ = [].
Proof.
  intros H. specialize (H ∅). rewrite map_to_list_empty in H.
  by apply Permutation_nil_r in H.
Qed.

Lemma totalSegments_empty : totalSegments ∅ = 0%nat.
Proof. unfold totalSegments. by rewrite map_to_list_empty. Qed.

Lemma foldInto_empty order x :
  valid_order order -> foldInto order x NewIndexBootstrapResult = x.
Proof.
  intros Hord. destruct x as [res unf]. unfold foldInto. simpl.
  rewrite (valid_order_empty _ Hord). simpl.
  by rewrite STR_AddRanges_empty_r.
Qed.

Lemma Add_alt (r : IndexResults) block :
  Add r block =
  if IsZero (BlockStart block) then r
  else <[ToUnixNano (BlockStart block) :=
           match r !! ToUnixNano (BlockStart block) with
           | Some existing => Merged existing block
           | None => block
           end]> r.
Proof.
  unfold Add. destruct (IsZero (BlockStart block)); [done|].
  by destruct (r !! ToUnixNano (BlockStart block)).
Qed.

(** What adding a list of keyed blocks with distinct keys leaves under
    a key. *)
Lemma AddResults_lookup_list (l : list (Z * IndexBlock)) (r : IndexResults) k :
  NoDup (fst <$> l) ->
  Forall (fun p => ToUnixNano (blockStart (snd p)) = fst p) l ->
  AddResults r (snd <$> l) !! k =
  match (list_to_map l : IndexResults) !! k with
  | Some b =>
      if IsZero (BlockStart b) then r !! k
      else Some (match r !! k with Some a => Merged a b | None => b end)
  | None => r !! k
  end.
Proof.
  unfold AddResults. revert r.
  induction l as [|[k0 b0] l IH]; intros r Hnd Hkeys.
  - simpl. by rewrite lookup_empty.
  - apply NoDup_cons in Hnd as [Hk0 Hnd].
    apply Forall_cons in Hkeys as [Hb0 Hkeys]. simpl in Hb0.
    cbn [fmap list_fmap fold_left snd]. rewrite (IH _ Hnd Hkeys).
    cbn [list_to_map foldr fst snd uncurry].
    rewrite Add_alt. unfold BlockStart in *. rewrite Hb0.
    destruct (decide (k = k0)) as [->|Hne].
    + rewrite lookup_insert_eq.
      rewrite (not_elem_of_list_to_map_1 _ _ Hk0).
      destruct (IsZero (blockStart b0)); [done|]. by rewrite lookup_insert_eq.
    + rewrite lookup_insert_ne by done.
      destruct (IsZero (blockStart b0)); [done|].
      by rewrite lookup_insert_ne by done.
Qed.

(** What [AddResults] leaves under a key when the map added holds every
    block under the key of its start, whatever the order of the loop:
    the block of the map added, merged into the block of the receiver
    when there is one; blocks of a zero start are not added. *)
Lemma AddResults_lookup (order : IterOrder) (r other : IndexResults) k :
  valid_order order -> keyed other ->
  AddResults r (snd <$> order other) !! k =
  match other !! k with
  | Some b =>
      if IsZero (BlockStart b) then r !! k
      else Some (match r !! k with Some a => Merged a b | None => b end)
  | None => r !! k
  end.
Proof.
  intros Hord Hk.
  assert (NoDup (fst <$> order other)) as Hnd.
  { rewrite (Hord other). apply NoDup_fst_map_to_list. }
  rewrite AddResults_lookup_list; [|done|].
  - by rewrite (list_to_map_proper _ _ Hnd (Hord other)), list_to_map_to_list.
  - apply Forall_forall. intros [k' b'] Hin. rewrite (Hord other) in Hin.
    apply elem_of_map_to_list in Hin. simpl. by apply Hk.
Qed.

(** C5.  [MergedIndexBootstrapResult i j] is [j] when [i] is nil and
    [i] when [j] is nil.  Otherwise the operand with the greater total
    number of segments, [i] when the totals are equal, is returned,
    updated in place and nothing else changing: the blocks of the other
    operand have been added to its index results in the order of the
    loop, and its unfulfilled ranges cover what the unfulfilled ranges
    of either operand covered; when the other operand holds every block
    under the key of its start, each of its blocks with a start that is
    not zero is found under its key, merged into the block the kept
    operand had there, and the other entries of the kept operand are as
    they were.  Merging a result with an empty result returns that
    result, unchanged. *)
Theorem MergedIndexBootstrapResult_spec (order : IterOrder) (h : Heap) :
  valid_order order ->
  (forall j, MergedIndexBootstrapResult order h None j = (j, h)) /\
  (forall i, MergedIndexBootstrapResult order h i None = (i, h)) /\
  (forall pi pj ri rj,
     h !! pi = Some ri -> h !! pj = Some rj ->
     let keepI :=
       (totalSegments (results rj) <=? totalSegments (results ri))%nat in
     let pb := if keepI then pi else pj in
     let base := if keepI then ri else rj in
     let other := if keepI then rj else ri in
     exists res,
       MergedIndexBootstrapResult order h (Some pi) (Some pj)
       = (Some pb, <[pb := res]> h) /\
       results res = AddResults (results base) (snd <$> order (results other)) /\
       STR_is_union (unfulfilled res) (unfulfilled base) (unfulfilled other) /\
       (keyed (results other) ->
        forall k,
          results res !! k =
          match results other !! k with
          | Some b =>
              if IsZero (BlockStart b) then results base !! k
              else Some (match results base !! k with
                         | Some a => Merged a b
                         | None => b
                         end)
          | None => results base !! k
          end)) /\
  (forall px pe x,
     h !! px = Some x -> h !! pe = Some NewIndexBootstrapResult ->
     MergedIndexBootstrapResult order h (Some px) (Some pe) = (Some px, h)).
Proof.
  intros Hord. split; [|split; [|split]].
  - intros j. done.
  - intros [pi|]; done.
  - intros pi pj ri rj Hi Hj keepI pb base other.
    exists (foldInto order base other).
    split; [|split; [done|split]].
    + unfold pb, base, other, keepI. simpl. rewrite Hi, Hj.
      by destruct (totalSegments (results rj) <=? totalSegments (results ri))%nat.
    + intros shard t. apply STR_AddRanges_covers.
    + intros Hk k. by apply AddResults_lookup.
  - intros px pe x Hx He. simpl. rewrite Hx, He. simpl.
    rewrite totalSegments_empty. simpl.
    by rewrite (foldInto_empty _ _ Hord), insert_id.
Qed.

End IndexResultsFacts.

(** ** Sharing of fulfilled ranges between a block and its merge *)

Section SharedFacts.
Import XTime Result Shared.

Lemma deref_insert_eq (σ : store) l m : deref (<[l := m]> σ) l = m.
Proof. unfold deref. by rewrite lookup_insert_eq. Qed.

Lemma deref_insert_ne (σ : store) l l' m :
  l <> l' -> deref (<[l := m]> σ) l' = deref σ l'.
Proof. intros H. unfold deref. by rewrite lookup_insert_ne. Qed.

Lemma fresh_not_allocated (σ : store) l : l ∈ dom σ -> fresh (dom σ) <> l.
Proof. intros Hl Heq. subst l. by apply is_fresh in Hl. Qed.

Lemma nonempty_allocated (σ : store) l :
  STR_IsEmpty (deref σ l) = false -> l ∈ dom σ.
Proof.
  intros H. apply elem_of_dom. unfold deref in H.
  destruct (σ !! l); [done|]. simpl in H. by rewrite STR_IsEmpty_empty in H.
Qed.

(** [MergedRef] computes [Merged] on the values the blocks denote. *)
Lemma MergedRef_view (σ : store) (b other : IndexBlockRef) :
  view (snd (MergedRef σ b other)) (fst (MergedRef σ b other)) =
  Merged (view σ b) (view σ other).
Proof.
  unfold MergedRef, Merged, view, CopyRef, AddRangesRef; simpl.
  destruct (STR_IsEmpty (deref σ (refFulfilled other))) eqn:E; simpl.
  - by destruct (0 <? length (refSegments other))%nat.
  - pose proof (fresh_not_allocated σ _ (nonempty_allocated σ _ E)) as Hf.
    rewrite !deref_insert_eq, (deref_insert_ne _ _ _ _ Hf).
    by destruct (0 <? length (refSegments other))%nat.
Qed.

(** When the fulfilled ranges of [other] are empty, the merged block
    holds the very map of the receiver. *)
Lemma MergedRef_shares (σ : store) (b other : IndexBlockRef) :
  STR_IsEmpty (deref σ (refFulfilled other)) = true ->
  refFulfilled (fst (MergedRef σ b other)) = refFulfilled b /\
  snd (MergedRef σ b other) = σ.
Proof.
  intros E. unfold MergedRef. rewrite E. simpl.
  by destruct (0 <? length (refSegments other))%nat.
Qed.

(** C9, as stated, fails: merging [exampleA] with [exampleB], whose
    fulfilled ranges are empty, and then adding ranges to the fulfilled
    ranges of the result changes the fulfilled ranges of [exampleA]. *)
Lemma Merged_result_aliases_receiver :
  let r := fst (MergedRef exampleStore exampleA exampleB) in
  let σ1 := snd (MergedRef exampleStore exampleA exampleB) in
  let σ2 := AddRangesRef σ1 (refFulfilled r) exampleExtra in
  refFulfilled r = refFulfilled exampleA /\
  STR_coversb (deref exampleStore (refFulfilled exampleA)) 1%N 25 = false /\
  STR_coversb (deref σ2 (refFulfilled exampleA)) 1%N 25 = true /\
  deref σ2 (refFulfilled exampleA) <> deref exampleStore (refFulfilled exampleA).
Proof.
  cbv zeta. split; [by vm_compute|]. split; [by vm_compute|].
  split; [by vm_compute|].
  intros H. apply (f_equal (fun m => STR_coversb m 1%N 25)) in H.
  vm_compute in H. discriminate.
Qed.

(** C9, amended.  When the fulfilled ranges of [other] are not empty,
    [MergedRef σ b other] holds its fulfilled ranges in a map that was
    not allocated before, so that adding ranges to them afterwards
    changes neither the fulfilled ranges of [b] nor those of [other];
    when they are empty the result holds the map of [b] itself. *)
Theorem Merged_copy_on_write (σ : store) (b other : IndexBlockRef) :
  is_Some (σ !! refFulfilled b) ->
  let r := fst (MergedRef σ b other) in
  let σ1 := snd (MergedRef σ b other) in
  (STR_IsEmpty (deref σ (refFulfilled other)) = false ->
   (refFulfilled r ∉ dom σ) /\
   refFulfilled r <> refFulfilled b /\
   refFulfilled r <> refFulfilled other /\
   forall extra,
     let σ2 := AddRangesRef σ1 (refFulfilled r) extra in
     deref σ2 (refFulfilled b) = deref σ (refFulfilled b) /\
     deref σ2 (refFulfilled other) = deref σ (refFulfilled other)) /\
  (STR_IsEmpty (deref σ (refFulfilled other)) = true ->
   refFulfilled r = refFulfilled b /\ σ1 = σ).
Proof.
  intros Hb r σ1. apply elem_of_dom in Hb. split; [|apply MergedRef_shares].
  intros E. pose proof (nonempty_allocated σ _ E) as Ho.
  pose proof (fresh_not_allocated σ _ Hb) as Hfb.
  pose proof (fresh_not_allocated σ _ Ho) as Hfo.
  assert (Hr : refFulfilled r = fresh (dom σ)).
  { unfold r, MergedRef. rewrite E. done. }
  assert (Hσ : σ1 = <[fresh (dom σ) :=
                   STR_AddRanges (deref σ (refFulfilled b))
                     (deref σ (refFulfilled other))]> σ).
  { unfold σ1, MergedRef, CopyRef, AddRangesRef, STR_Copy. rewrite E. simpl.
    rewrite deref_insert_eq, (deref_insert_ne _ _ _ _ Hfo).
    by rewrite insert_insert_eq. }
  rewrite Hr. split; [apply is_fresh|]. split; [done|]. split; [done|].
  intros extra σ2. unfold σ2, AddRangesRef. rewrite Hσ.
  rewrite !(deref_insert_ne _ _ _ _ Hfb), !(deref_insert_ne _ _ _ _ Hfo).
  done.
Qed.

End SharedFacts.

(** ** Segment reader *)

Section SegmentReaderFacts.
Import Xio.

Lemma Read_empty_buffer sr b :
  length b = 0%nat -> Read sr b = (b, 0%nat, None, sr).
Proof. intros H. unfold Read. by rewrite H. Qed.

(** One call with a non-empty buffer: it delivers the next
    [min (len b) (remaining)] bytes of the contents and advances the
    position by as much; it reports [EOF] exactly when nothing
    remains. *)
Lemma Read_nonempty_buffer sr b :
  (0 < length b)%nat ->
  let data := contents (segment sr) in
  let n := Nat.min (length b) (length data - si sr) in
  Read sr b =
  (take n (drop (si sr) data) ++ drop n b, n,
   (if (length data <=? si sr)%nat then Some EOF else None),
   mkSegmentReader (segment sr) (si sr + n)).
Proof.
  intros Hb data n. unfold Read.
  destruct (length b =? 0)%nat eqn:E0; [apply Nat.eqb_eq in E0; lia|].
  destruct sr as [seg pos]. simpl in *.
  subst data n. unfold contents.
  set (head := bytesOf (Head seg)). set (tail := bytesOf (Tail seg)).
  rewrite length_app.
  destruct (length head + length tail <=? pos)%nat eqn:E1.
  - apply Nat.leb_le in E1.
    replace (length head + length tail - pos)%nat with 0%nat by lia.
    rewrite Nat.min_0_r, Nat.add_0_r. done.
  - apply Nat.leb_gt in E1.
    destruct (pos <? length head)%nat eqn:E2; simpl.
    + apply Nat.ltb_lt in E2. rewrite length_drop.
      destruct (decide (length b <= length head - pos)%nat) as [Hle|Hgt].
      * rewrite (Nat.min_l (length b) (length head - pos)) by lia.
        rewrite Nat.eqb_refl.
        rewrite (Nat.min_l (length b) (length head + length tail - pos)) by lia.
        rewrite drop_app_le by lia.
        rewrite take_app_le by (rewrite length_drop; lia).
        done.
      * rewrite (Nat.min_r (length b) (length head - pos)) by lia.
        destruct (length head - pos =? length b)%nat eqn:E3;
          [apply Nat.eqb_eq in E3; lia|].
        replace (pos + (length head - pos))%nat with (length head) by lia.
        rewrite (take_ge (drop pos head)) by (rewrite length_drop; lia).
        rewrite Nat.sub_diag, drop_0.
        rewrite drop_app_length' by (rewrite length_drop; lia).
        rewrite take_app_length' by (rewrite length_drop; lia).
        rewrite length_drop.
        set (k := Nat.min (length b - (length head - pos)) (length tail)).
        replace (Nat.min (length b) (length head + length tail - pos))
          with ((length head - pos) + k)%nat by lia.
        rewrite drop_app_le by lia.
        rewrite take_app_ge by (rewrite length_drop; lia).
        rewrite length_drop.
        replace (length head - pos + k - (length head - pos))%nat with k by lia.
        rewrite drop_drop, <- app_assoc.
        destruct (length head <? length head + length tail)%nat eqn:E4.
        -- destruct (length head - pos + k =? 0)%nat eqn:E5;
             [apply Nat.eqb_eq in E5; lia|].
           replace (pos + (length head - pos + k))%nat
             with (length head + k)%nat by lia.
           done.
        -- apply Nat.ltb_ge in E4.
           assert (k = 0)%nat as Hk by lia.
           destruct (length head - pos =? 0)%nat eqn:E5;
             [apply Nat.eqb_eq in E5; lia|].
           rewrite Hk, Nat.add_0_r. simpl.
           replace (pos + (length head - pos))%nat with (length head) by lia.
           done.
    + apply Nat.ltb_ge in E2. apply Nat.ltb_lt in E1 as E1'. rewrite E1'.
      simpl. rewrite !length_drop, Nat.sub_0_r, drop_0.
      set (k := Nat.min (length b) (length tail - (pos - length head))).
      replace (Nat.min (length b) (length head + length tail - pos))
        with k by lia.
      destruct (k =? 0)%nat eqn:E5; [apply Nat.eqb_eq in E5; lia|].
      rewrite drop_app_ge by lia. done.
Qed.

Lemma Read_delivered sr b :
  let data := contents (segment sr) in
  let n := Nat.min (length b) (length data - si sr) in
  delivered (Read sr b) = take n (drop (si sr) data) /\
  readerOf (Read sr b) = mkSegmentReader (segment sr) (si sr + n) /\
  length (bufferOf (Read sr b)) = length b.
Proof.
  intros data n. destruct (decide (length b = 0)%nat) as [H0|Hpos].
  - rewrite Read_empty_buffer by done. subst n. rewrite H0. simpl.
    rewrite Nat.add_0_r. by destruct sr.
  - rewrite Read_nonempty_buffer by lia. fold data n. simpl.
    assert (length (take n (drop (si sr) data)) = n) as Hn.
    { rewrite length_take, length_drop. lia. }
    split; [|split; [done|]].
    + by rewrite take_app_length' by done.
    + rewrite length_app, Hn, length_drop. lia.
Qed.

Lemma readMany_spec bufs sr :
  let data := contents (segment sr) in
  let total := sum_list (length <$> bufs) in
  readMany sr bufs =
  (take total (drop (si sr) data),
   mkSegmentReader (segment sr)
     (si sr + Nat.min total (length data - si sr))).
Proof.
  revert sr. induction bufs as [|b bufs IH]; intros sr; simpl.
  - rewrite Nat.add_0_r. by destruct sr.
  - destruct (Read_delivered sr b) as (Hd & Hr & _).
    rewrite Hd, Hr, IH. simpl.
    set (data := contents (segment sr)).
    set (n := Nat.min (length b) (length data - si sr)).
    set (total := sum_list (length <$> bufs)).
    f_equal.
    + destruct (decide (length b <= length data - si sr)%nat) as [Hle|Hgt].
      * replace n with (length b) by lia.
        rewrite <- drop_drop. by rewrite take_take_drop.
      * replace n with (length data - si sr)%nat by lia.
        rewrite (take_ge _ (length b + total)) by (rewrite length_drop; lia).
        rewrite (take_ge _ (length data - si sr)) by (rewrite length_drop; lia).
        rewrite (drop_ge data (si sr + _)) by lia.
        by rewrite take_nil, app_nil_r.
    + f_equal. subst n total. unfold fmap. lia.
Qed.

Lemma readAll_spec fuel sr b :
  (0 < length b)%nat ->
  (length (contents (segment sr)) - si sr < fuel)%nat ->
  readAll fuel sr b = Some (drop (si sr) (contents (segment sr))).
Proof.
  revert sr b. induction fuel as [|fuel IH]; intros sr b Hb Hf; [lia|].
  simpl. destruct (Read_delivered sr b) as (Hd & Hr & Hl).
  set (data := contents (segment sr)) in *.
  rewrite Read_nonempty_buffer in * by done. fold data in Hd, Hr, Hl |- *.
  simpl in *.
  destruct (length data <=? si sr)%nat eqn:E.
  - apply Nat.leb_le in E. by rewrite drop_ge.
  - apply Nat.leb_gt in E.
    set (n := Nat.min (length b) (length data - si sr)) in *.
    rewrite IH; simpl.
    + rewrite take_app_length' by (rewrite length_take, length_drop; lia).
      rewrite <- drop_drop. by rewrite take_drop.
    + lia.
    + fold data. lia.
Qed.

(** C10.  For a reader over a segment with head bytes [h] and tail
    bytes [t]: a [Read] into an empty buffer returns [(0, nil)] at any
    position, the end of the data included; a [Read] into a non-empty
    buffer returns [io.EOF] exactly when the position is at or past
    [len h + len t]; the bytes delivered by successive calls, put
    together, are the leading bytes of [h ++ t], and reading until
    [io.EOF] delivers [h ++ t]. *)
Theorem segmentReader_Read_spec (seg : Segment) :
  let h := bytesOf (Head seg) in
  let t := bytesOf (Tail seg) in
  (forall pos b, length b = 0%nat ->
     Read (mkSegmentReader seg pos) b =
     (b, 0%nat, None, mkSegmentReader seg pos)) /\
  (forall pos b, (0 < length b)%nat ->
     (errorOf (Read (mkSegmentReader seg pos) b) = Some EOF <->
      (length h + length t <= pos)%nat)) /\
  (forall bufs,
     fst (readMany (NewSegmentReader seg) bufs) =
     take (sum_list (length <$> bufs)) (h ++ t)) /\
  (forall b, (0 < length b)%nat ->
     readAll (S (length (h ++ t))) (NewSegmentReader seg) b = Some (h ++ t)).
Proof.
  intros h t. split; [|split; [|split]].
  - intros pos b Hb. by apply Read_empty_buffer.
  - intros pos b Hb. rewrite Read_nonempty_buffer by done. simpl.
    unfold contents. fold h t. rewrite length_app.
    destruct (length h + length t <=? pos)%nat eqn:E.
    + apply Nat.leb_le in E. done.
    + apply Nat.leb_gt in E. split; [done | lia].
  - intros bufs. rewrite readMany_spec. simpl. by rewrite drop_0.
  - intros b Hb. rewrite readAll_spec; simpl; [by rewrite drop_0 | done |].
    unfold contents. fold h t. lia.
Qed.

End SegmentReaderFacts.

(** ** Commit log *)

Section CommitLogFacts.
Import XTime CommitLog.

Lemma ascending_weaken lo lo' l hi :
  (lo' <= lo)%nat -> ascending lo l hi -> ascending lo' l hi.
Proof.
  destruct l; simpl; [lia|]. intros H [H1 H2]. split; [lia | done].
Qed.

Lemma ascending_bound lo l hi : ascending lo l hi -> (lo <= hi)%nat.
Proof.
  revert lo. induction l as [|f l IH]; intros lo; simpl; [done|].
  intros [H1 H2]. apply IH in H2. lia.
Qed.

Lemma ascending_raise lo l hi hi' :
  (hi <= hi')%nat -> ascending lo l hi -> ascending lo l hi'.
Proof.
  revert lo. induction l as [|f l IH]; intros lo Hh; simpl; [lia|].
  intros [H1 H2]. split; [done | by apply IH].
Qed.

Lemma ascending_snoc lo l f hi :
  ascending lo l (created f) -> (created f < hi)%nat ->
  ascending lo (l ++ [f]) hi.
Proof.
  revert lo. induction l as [|g l IH]; intros lo; simpl.
  - lia.
  - intros [H1 H2] Hh. split; [done | by apply IH].
Qed.

Lemma ascending_snoc_inv lo l f hi :
  ascending lo (l ++ [f]) hi ->
  ascending lo l (created f) /\ (created f < hi)%nat.
Proof.
  revert lo. induction l as [|g l IH]; intros lo; simpl.
  - lia.
  - intros [H1 H2]. apply IH in H2. tauto.
Qed.

Lemma insertByCreated_ascending f l hi :
  ascending (S (created f)) l hi -> insertByCreated f l = f :: l.
Proof.
  destruct l as [|g l]; simpl; [done|]. intros [H _].
  destruct (created f <? created g)%nat eqn:E; [done|].
  apply Nat.ltb_ge in E. lia.
Qed.

(** Files already in creation order are left in place by the sort. *)
Lemma sortByCreated_ascending lo l hi :
  ascending lo l hi -> sortByCreated l = l.
Proof.
  revert lo. induction l as [|f l IH]; intros lo; simpl; [done|].
  intros [_ H]. unfold sortByCreated in *. simpl.
  rewrite (IH _ H). by apply (insertByCreated_ascending _ _ hi).
Qed.

Lemma filter_all {A} (l : list A) : List.filter (fun _ => true) l = l.
Proof. induction l as [|x l IH]; simpl; [done | by rewrite IH]. Qed.

Lemma iterate_all_ascending lo dir hi :
  ascending lo dir hi ->
  iterate ReadAllPredicate ReadAllSeriesPredicate dir = flat_map decodeFile dir.
Proof.
  intros H. unfold iterate, ReadAllPredicate, ReadAllSeriesPredicate.
  rewrite (sortByCreated_ascending _ _ _ H), filter_all. clear H.
  induction dir as [|f dir IH]; simpl; [done|].
  by rewrite filter_all, IH.
Qed.

(** *** Encoding and decoding of a file *)

Lemma appendRecords_app recs l1 l2 :
  appendRecords recs (l1 ++ l2) = appendRecords (appendRecords recs l1) l2.
Proof. apply fold_left_app. Qed.

Lemma appendRecords_snoc recs l w :
  appendRecords recs (l ++ [w]) =
  appendRecords recs l ++ [encode (appendRecords recs l) w].
Proof. by rewrite appendRecords_app. Qed.

Lemma tableAfter_snoc t recs e :
  tableAfter t (recs ++ [e]) = fst (decodeEntry (tableAfter t recs) e).
Proof. unfold tableAfter. by rewrite fold_left_app. Qed.

Lemma decodeFrom_app t r1 r2 :
  decodeFrom t (r1 ++ r2) = decodeFrom t r1 ++ decodeFrom (tableAfter t r1) r2.
Proof.
  revert t. induction r1 as [|e r1 IH]; intros t; [done|].
  cbn [app decodeFrom]. unfold tableAfter. cbn [fold_left].
  fold (tableAfter (fst (decodeEntry t e)) r1).
  destruct (decodeEntry t e) as [t' [w|]]; cbn [fst]; by rewrite IH.
Qed.

Lemma seenIn_snoc recs e i :
  seenIn (recs ++ [e]) i = seenIn recs i || (entryIndex e =? i)%N.
Proof. unfold seenIn. rewrite existsb_app. simpl. by rewrite orb_false_r. Qed.

(** The indexes seen in a file are those of the writes encoded into
    it. *)
Lemma seenIn_encoded l i :
  seenIn (appendRecords [] l) i = true <->
  exists w, w ∈ l /\ UniqueIndex (series w) = i.
Proof.
  induction l as [|w l IH] using rev_ind.
  - simpl. split; [done|]. intros (w & Hw & _). by apply elem_of_nil in Hw.
  - rewrite appendRecords_snoc, seenIn_snoc, orb_true_iff, IH.
    cbn [encode entryIndex]. rewrite N.eqb_eq. split.
    + intros [(x & Hx & Hi)|Hi].
      * exists x. split; [|done]. apply elem_of_app. by left.
      * exists w. split; [|done]. apply elem_of_app. right. by left.
    + intros (x & Hx & Hi). apply elem_of_app in Hx as [Hx|Hx].
      * left. by exists x.
      * apply list_elem_of_singleton in Hx as ->. by right.
Qed.


Lemma indexIdentifies_app_l l1 l2 :
  indexIdentifies (l1 ++ l2) -> indexIdentifies l1.
Proof.
  intros H x y Hx Hy. apply H; apply elem_of_app; by left.
Qed.

Lemma indexIdentifies_app_r l1 l2 :
  indexIdentifies (l1 ++ l2) -> indexIdentifies l2.
Proof.
  intros H x y Hx Hy. apply H; apply elem_of_app; by right.
Qed.

(** After the decoder has read a file, it holds the identity of every
    series written to it, under its unique index. *)
Lemma tableAfter_encoded l w :
  indexIdentifies l -> w ∈ l ->
  tableAfter ∅ (appendRecords [] l) !! UniqueIndex (series w)
  = Some (identityOf (series w)).
Proof.
  revert w. induction l as [|w0 l IH] using rev_ind; intros w Hi Hw.
  - by apply elem_of_nil in Hw.
  - rewrite appendRecords_snoc, tableAfter_snoc.
    pose proof (indexIdentifies_app_l _ _ Hi) as Hl.
    unfold decodeEntry, encode. cbn [entryIdentity entryIndex].
    destruct (seenIn (appendRecords [] l) (UniqueIndex (series w0))) eqn:Es.
    + cbn [fst]. apply seenIn_encoded in Es as (x & Hx & Hxi).
      apply elem_of_app in Hw as [Hw|Hw]; [by apply IH|].
      apply list_elem_of_singleton in Hw as ->.
      rewrite <- Hxi, (IH x Hl Hx). f_equal. f_equal.
      apply Hi; [apply elem_of_app; by left | | done].
      apply elem_of_app. right. by left.
    + cbn [fst]. apply elem_of_app in Hw as [Hw|Hw].
      * rewrite lookup_insert_ne; [by apply IH|].
        intros Heq. apply not_true_iff_false in Es. apply Es.
        apply seenIn_encoded. by exists w.
      * apply list_elem_of_singleton in Hw as ->. by rewrite lookup_insert_eq.
Qed.

(** Round trip of a file: writes whose unique indexes identify their
    series are read back as they were written. *)
Lemma decode_encode l :
  indexIdentifies l -> decodeFrom ∅ (appendRecords [] l) = l.
Proof.
  induction l as [|w l IH] using rev_ind; intros Hi; [done|].
  pose proof (indexIdentifies_app_l _ _ Hi) as Hl.
  rewrite appendRecords_snoc, decodeFrom_app, (IH Hl). f_equal.
  cbn [decodeFrom]. unfold decodeEntry, encode.
  cbn [entryIdentity entryIndex entryDatapoint entryUnit entryAnnotation].
  destruct w as [[i ns id sh] dp u ann]. cbn [series UniqueIndex datapoint unit annotation].
  destruct (seenIn (appendRecords [] l) i) eqn:Es.
  - apply seenIn_encoded in Es as (x & Hx & Hxi).
    rewrite <- Hxi, (tableAfter_encoded l x Hl Hx). cbn [fmap option_fmap option_map].
    assert (series x = mkSeries i ns id sh) as Hs.
    { apply (Hi x (mkWrite (mkSeries i ns id sh) dp u ann));
        [apply elem_of_app; by left | apply elem_of_app; right; by left | done]. }
    rewrite Hs. cbn [identityOf idNamespace idID idShard Namespace ID Shard UniqueIndex].
    rewrite Hs in Hxi. simpl in Hxi. by subst.
  - done.
Qed.

Lemma holds_snoc_inv l f parts :
  Forall2 holds (l ++ [f]) parts ->
  exists ps p, parts = ps ++ [p] /\ Forall2 holds l ps /\ holds f p.
Proof.
  intros H. apply Forall2_app_inv_l in H as (ps & k & Hps & Hk & ->).
  apply Forall2_cons_inv_l in Hk as (p & k' & Hp & Hk' & ->).
  apply Forall2_nil_inv_l in Hk' as ->. by exists ps, p.
Qed.

Lemma holds_snoc l f ps p :
  Forall2 holds l ps -> holds f p -> Forall2 holds (l ++ [f]) (ps ++ [p]).
Proof. intros H1 H2. apply Forall2_app; [done|]. by repeat constructor. Qed.

Lemma concat_snoc {A} (ps : list (list A)) p : concat (ps ++ [p]) = concat ps ++ p.
Proof. rewrite concat_app. simpl. by rewrite app_nil_r. Qed.

(** Reading back files that hold writes whose indexes identify their
    series. *)
Lemma decode_parts dir parts :
  Forall2 holds dir parts -> indexIdentifies (concat parts) ->
  flat_map decodeFile dir = concat parts.
Proof.
  induction 1 as [|f p dir parts Hf _ IH]; intros Hi; [done|].
  simpl in *. rewrite IH by (by apply indexIdentifies_app_r in Hi).
  f_equal. unfold decodeFile. rewrite Hf.
  apply decode_encode. by apply indexIdentifies_app_l in Hi.
Qed.

Lemma directory_active st fin f b r c :
  directory (mkSystem st fin (Some f) b r c) = fin ++ [f].
Proof. done. Qed.

Lemma directory_inactive st fin b r c :
  directory (mkSystem st fin None b r c) = fin.
Proof. unfold directory; simpl. by rewrite app_nil_r. Qed.

Lemma consistent_initial : consistent initial [].
Proof.
  unfold consistent, initial, directory; simpl.
  split; [lia|]. split; [|done]. exists []. split; [constructor | done].
Qed.

Lemma flush_state s : state (flush s) = state s.
Proof. unfold flush. by destruct (active s). Qed.

Lemma flush_consistent s ws : consistent s ws -> consistent (flush s) ws.
Proof.
  intros H. unfold flush.
  destruct (active s) as [f|] eqn:E; [|done].
  destruct H as (Ha & (parts & Hp & Hr) & Hs).
  unfold consistent, directory in *. simpl. rewrite E in Ha, Hp, Hs.
  split; [|split].
  - apply ascending_snoc_inv in Ha as [Ha Hc]. by apply ascending_snoc.
  - apply holds_snoc_inv in Hp as (ps & p & -> & Hps & Hf).
    exists (ps ++ [p ++ batch s]). split.
    + apply holds_snoc; [done|]. unfold holds in *. simpl.
      by rewrite Hf, <- appendRecords_app.
    + rewrite concat_snoc in *. by rewrite app_nil_r, app_assoc.
  - destruct (state s); [by destruct Hs | done | by destruct Hs].
Qed.

Lemma flush_open_batch s ws :
  consistent s ws -> state s = IsOpen -> batch (flush s) = [].
Proof.
  intros (_ & _ & Hs) Ho. rewrite Ho in Hs. destruct Hs as [f Hf].
  unfold flush. by rewrite Hf.
Qed.

Lemma rotate_consistent o t s ws :
  state s = IsOpen -> consistent s ws -> consistent (rotate o t s) ws.
Proof.
  intros Ho (Ha & (parts & Hp & Hr) & Hs). unfold consistent, rotate.
  rewrite directory_active. simpl.
  split; [|split].
  - apply ascending_snoc; simpl; [done | lia].
  - exists (parts ++ [[]]). split; [by apply holds_snoc|].
    by rewrite concat_snoc, app_nil_r.
  - by rewrite Ho.
Qed.

Lemma enqueue_consistent w s ws :
  state s = IsOpen -> consistent s ws -> consistent (enqueue w s) (ws ++ [w]).
Proof.
  intros Ho (Ha & (parts & Hp & Hr) & Hs).
  unfold consistent, enqueue, directory in *; simpl.
  split; [done|]. split; [|by rewrite Ho in *].
  exists parts. split; [done|]. by rewrite app_assoc, Hr.
Qed.

Lemma setRetained_consistent b s ws :
  consistent s ws -> consistent (setRetained b s) ws.
Proof. done. Qed.

Lemma Open_consistent o now s ws :
  consistent s ws -> consistent (snd (Open o now s)) ws.
Proof.
  intros H. unfold Open.
  assert (state s <> IsOpen ->
          consistent
            (mkSystem IsOpen (directory s) (Some (newFile o (clock s) now))
               [] false (S (clock s))) ws) as Hnew.
  { intros Hn. destruct H as (Ha & (parts & Hp & Hr) & Hs).
    assert (batch s = []) as Hb by (destruct (state s); [apply Hs|done|apply Hs]).
    rewrite Hb, app_nil_r in Hr.
    unfold consistent. rewrite directory_active. simpl. split; [|split].
    - apply ascending_snoc; simpl; [done | lia].
    - exists (parts ++ [[]]). split; [by apply holds_snoc|].
      by rewrite concat_snoc, !app_nil_r.
    - done. }
  destruct (state s) eqn:E; simpl; [by apply Hnew | done | by apply Hnew].
Qed.

Lemma Write_consistent o w ok s ws :
  consistent s ws ->
  consistent (snd (Write o w ok s))
    (ws ++ match fst (Write o w ok s) with None => [w] | Some _ => [] end).
Proof.
  intros H. unfold Write.
  destruct (state s) eqn:Es; simpl; try by rewrite app_nil_r.
  destruct (retained s); simpl; [by rewrite app_nil_r|].
  destruct (encodedSize o w); simpl; [|by rewrite app_nil_r].
  set (rotates := match active s with
                  | Some f => negb (inWindow f (Timestamp (datapoint w)))
                  | None => true
                  end).
  set (s1 := if rotates then rotate o (Timestamp (datapoint w)) (flush s) else s).
  set (flushes := match strategy o with
                  | StrategyWriteWait => true
                  | StrategyWriteBehind =>
                      (flushSize o <? batchBytes o (batch s1 ++ [w]))%nat
                  end).
  assert (state s1 = IsOpen /\ consistent s1 ws) as [Ho1 H1].
  { unfold s1. destruct rotates; [|done]. split.
    - simpl. by rewrite flush_state.
    - apply rotate_consistent; [by rewrite flush_state|].
      by apply flush_consistent. }
  destruct ((rotates || flushes) && negb ok); simpl; [by rewrite app_nil_r|].
  pose proof (enqueue_consistent w s1 ws Ho1 H1) as H2.
  destruct flushes; [by apply flush_consistent | done].
Qed.

Lemma Tick_consistent ok s ws : consistent s ws -> consistent (Tick ok s) ws.
Proof.
  intros H. unfold Tick. destruct (state s); [done| |done].
  destruct (batch s); [done|]. destruct ok; [by apply flush_consistent|done].
Qed.

Lemma Close_consistent ok s ws :
  consistent s ws -> consistent (snd (Close ok s)) ws.
Proof.
  intros H. unfold Close. destruct (state s) eqn:Es; [done| |done].
  destruct (retained s); [done|]. destruct ok; simpl; [|done].
  pose proof (flush_open_batch s ws H Es) as Hb.
  apply flush_consistent in H. destruct H as (Ha & (parts & Hp & Hr) & _).
  unfold consistent. rewrite directory_inactive. simpl.
  split; [done|]. split; [|done].
  exists parts. split; [done|]. by rewrite Hb in Hr.
Qed.

Lemma step_consistent o s e ws :
  consistent s ws ->
  consistent (snd (step o s e))
    (ws ++ match e, fst (step o s e) with
           | EvWrite w _, None => [w]
           | _, _ => []
           end).
Proof.
  intros H. destruct e as [now|w ok|ok|ok]; simpl.
  - rewrite app_nil_r. by apply Open_consistent.
  - pose proof (Write_consistent o w ok s ws H) as Hw.
    by destruct (fst (Write o w ok s)).
  - rewrite app_nil_r. by apply Tick_consistent.
  - rewrite app_nil_r. by apply Close_consistent.
Qed.

Lemma run_consistent o es s ws :
  consistent s ws ->
  consistent (fst (run o s es)) (ws ++ snd (run o s es)).
Proof.
  revert s ws. induction es as [|e es IH]; intros s ws H; simpl.
  - by rewrite app_nil_r.
  - pose proof (step_consistent o s e ws H) as Hs.
    destruct (step o s e) as [res s'] eqn:E. cbn [fst snd] in Hs.
    specialize (IH s' _ Hs).
    destruct (run o s' es) as [s'' ws'] eqn:E'. cbn [fst snd] in *.
    destruct e as [now|w ok|ok|ok];
      try (by rewrite app_nil_r in IH).
    rewrite E in IH. cbn [fst] in IH.
    destruct res; [by rewrite app_nil_r in IH|].
    by rewrite <- app_assoc in IH.
Qed.

(** A log that is closed and has accepted writes whose unique indexes
    identify their series is read back as these writes, in the order of
    acceptance. *)
Lemma closed_consistent_iterates s ws :
  consistent s ws -> state s = IsClosed -> indexIdentifies ws ->
  iterate ReadAllPredicate ReadAllSeriesPredicate (directory s) = ws.
Proof.
  intros (Ha & (parts & Hp & Hr) & Hs) Hc Hi.
  rewrite Hc in Hs. destruct Hs as [_ Hb].
  rewrite Hb, app_nil_r in Hr. subst ws.
  rewrite (iterate_all_ascending _ _ _ Ha). by apply decode_parts.
Qed.

(** After any sequence of events on a log over a directory that was
    empty, a log that is closed has every accepted write on file, in
    the order of acceptance. *)
Lemma closed_log_iterates_in_order o es :
  state (fst (run o initial es)) = IsClosed ->
  indexIdentifies (snd (run o initial es)) ->
  iterate ReadAllPredicate ReadAllSeriesPredicate
    (directory (fst (run o initial es))) = snd (run o initial es).
Proof.
  intros Hc Hi. apply closed_consistent_iterates; [|done..].
  apply (run_consistent o es initial [] consistent_initial).
Qed.


End CommitLogFacts.

(** ** The property test of the commit log, run against the log *)

Section PropertyTestFacts.
Import XTime CommitLog.

Lemma lookupDisk_recordOnDisk M x w :
  lookupDisk (recordOnDisk M x) w =
  if decide (sameKeys x w) then Some x else lookupDisk M w.
Proof.
  destruct (decide (sameKeys x w)) as [[Hid Ht]|Hn];
    unfold lookupDisk, recordOnDisk.
  - rewrite <- Hid, lookup_insert_eq. simpl.
    by rewrite <- Ht, lookup_insert_eq.
  - destruct (decide (ID (series x) = ID (series w))) as [Hid|Hid].
    + rewrite <- Hid, lookup_insert_eq. simpl.
      rewrite lookup_insert_ne by (intros Ht; apply Hn; by split).
      by destruct (M !! ID (series x)).
    + by rewrite lookup_insert_ne.
Qed.

Lemma find_app_first {A} (f : A -> bool) (l1 l2 : list A) :
  List.find f (l1 ++ l2) =
  match List.find f l1 with Some x => Some x | None => List.find f l2 end.
Proof.
  induction l1 as [|x l1 IH]; simpl; [done|]. by destruct (f x).
Qed.

(** What the first loop of [writesArePresent] leaves under the keys of
    [w]: the last write yielded with these keys. *)
Lemma lookupDisk_fold yielded M w :
  lookupDisk (fold_left recordOnDisk yielded M) w =
  match List.find (fun x => bool_decide (sameKeys x w)) (rev yielded) with
  | Some x => Some x
  | None => lookupDisk M w
  end.
Proof.
  revert M. induction yielded as [|x l IH]; intros M; simpl; [done|].
  rewrite IH, find_app_first.
  destruct (List.find (fun x0 => bool_decide (sameKeys x0 w)) (rev l)); [done|].
  simpl. rewrite lookupDisk_recordOnDisk.
  destruct (decide (sameKeys x w)) as [H|H].
  - by rewrite bool_decide_eq_true_2.
  - by rewrite bool_decide_eq_false_2.
Qed.

Lemma writePresent_spec M w :
  writePresent M w = true <->
  exists gw, lookupDisk M w = Some gw /\ equalFields gw w.
Proof.
  unfold writePresent, lookupDisk, equalFields.
  destruct (M !! ID (series w)) as [seriesMap|]; simpl.
  - destruct (seriesMap !! ToUnixNano (Timestamp (datapoint w))) as [gw|].
    + rewrite negb_true_iff, !orb_false_iff, !negb_false_iff.
      rewrite !bool_decide_eq_true. split.
      * intros [[H1 H2] H3]. eauto.
      * intros (gw' & [= <-] & H1 & H2 & H3). done.
    + split; [done | by intros (gw & [=] & _)].
  - split; [done | by intros (gw & [=] & _)].
Qed.

(** A nil error from [writesArePresent] means that each of [writes]
    was yielded, as far as the keys and the compared fields tell. *)
Lemma writesArePresent_sound yielded writes :
  writesArePresent yielded writes = true ->
  forall w, w ∈ writes ->
    exists gw, gw ∈ yielded /\ sameKeys gw w /\ equalFields gw w.
Proof.
  unfold writesArePresent. rewrite forallb_forall. intros H w Hw.
  apply list_elem_of_In, H, writePresent_spec in Hw as (gw & Hl & Hf).
  rewrite lookupDisk_fold in Hl.
  destruct (List.find _ (rev yielded)) as [x|] eqn:E; [|done].
  injection Hl as ->. apply find_some in E as [Hin Hk].
  apply bool_decide_eq_true in Hk.
  exists gw. split; [|done].
  apply list_elem_of_In. by apply in_rev.
Qed.

(** When the yielded writes are the expected ones and agree on their
    keys, [writesArePresent] returns a nil error. *)
Lemma writesArePresent_complete writes :
  keyConsistent writes -> writesArePresent writes writes = true.
Proof.
  intros Hk. unfold writesArePresent. rewrite forallb_forall. intros w Hw.
  apply writePresent_spec. rewrite lookupDisk_fold.
  destruct (List.find (fun x => bool_decide (sameKeys x w)) (rev writes))
    as [x|] eqn:E.
  - apply find_some in E as [Hin Hs]. apply bool_decide_eq_true in Hs.
    exists x. split; [done|]. apply Hk; [|by apply list_elem_of_In|done].
    apply list_elem_of_In. by apply in_rev.
  - exfalso. apply in_rev in Hw.
    pose proof (find_none _ _ E w Hw) as Hn. simpl in Hn.
    apply bool_decide_eq_false in Hn. apply Hn. by split.
Qed.

Lemma flush_retained s : retained (flush s) = retained s.
Proof. unfold flush. by destruct (active s). Qed.

Lemma Open_accepts o now s :
  state s <> IsOpen ->
  fst (Open o now s) = None /\
  state (snd (Open o now s)) = IsOpen /\
  retained (snd (Open o now s)) = false.
Proof. intros H. unfold Open. by destruct (state s). Qed.

Lemma Write_accepts o w s :
  state s = IsOpen -> retained s = false -> is_Some (encodedSize o w) ->
  fst (Write o w true s) = None /\
  state (snd (Write o w true s)) = IsOpen /\
  retained (snd (Write o w true s)) = false.
Proof.
  intros Hs Hr [n Hn]. unfold Write. rewrite Hs, Hr, Hn.
  rewrite andb_false_r. simpl. split; [done|].
  destruct (match active s with
            | Some f => negb (inWindow f (Timestamp (datapoint w)))
            | None => true
            end);
    destruct (match strategy o with
              | StrategyWriteWait => true
              | StrategyWriteBehind => _
              end);
    simpl; rewrite ?flush_state, ?flush_retained; simpl;
    rewrite ?flush_state, ?flush_retained; done.
Qed.

Lemma Close_accepts s :
  state s = IsOpen -> retained s = false ->
  fst (Close true s) = None /\
  state (snd (Close true s)) = IsClosed /\
  retained (snd (Close true s)) = false.
Proof. intros Hs Hr. unfold Close. by rewrite Hs, Hr. Qed.

Lemma not_open_iff (st : clState) (s : System) :
  (open st = true <-> state s = IsOpen) ->
  (open st = false <-> state s <> IsOpen).
Proof. destruct (open st), (state s); intuition congruence. Qed.

(** One command of the property test keeps the test state and the log
    in agreement, and is accepted by the log. *)
Lemma command_linked o now st s c :
  (forall w, is_Some (encodedSize o w)) ->
  linked st s -> PreCondition st c = true ->
  let res := match c with
             | CmdOpen => Open o now s
             | CmdClose => Close true s
             | CmdWriteBehind w => Write o w true s
             end in
  fst res = None /\ linked (NextState st c) (snd res).
Proof.
  intros Henc (Hc & Ho & Hr) Hpre. destruct c as [| |w]; simpl in *.
  - apply negb_true_iff in Hpre. apply (not_open_iff _ _ Ho) in Hpre.
    destruct (Open_accepts o now s Hpre) as (H1 & H2 & H3).
    split; [done|]. split; [|by split]. by apply Open_consistent.
  - apply Ho in Hpre.
    destruct (Close_accepts s Hpre Hr) as (H1 & H2 & H3).
    split; [done|]. split; [by apply Close_consistent|].
    split; [|done]. rewrite H2. simpl. split; done.
  - pose proof Hpre as Hopen. apply Ho in Hpre.
    destruct (Write_accepts o w s Hpre Hr (Henc w)) as (H1 & H2 & H3).
    split; [done|]. split; [|by rewrite Hopen].
    pose proof (Write_consistent o w true s _ Hc) as Hw.
    by rewrite H1 in Hw.
Qed.

Lemma runCommands_linked o now cs st s st' s' vs :
  (forall w, is_Some (encodedSize o w)) ->
  linked st s ->
  runCommands o now st s cs = Some (st', s', vs) ->
  linked st' s' /\
  (exists more, pendingWrites st' = pendingWrites st ++ more) /\
  (keyConsistent (pendingWrites st') -> indexIdentifies (pendingWrites st') ->
   Forall (fun v => v = true) vs).
Proof.
  intros Henc. revert st s vs.
  induction cs as [|c cs IH]; intros st s vs Hl Hrun; simpl in Hrun.
  - injection Hrun as <- <- <-.
    split; [done|]. split; [exists []; by rewrite app_nil_r | by constructor].
  - destruct (PreCondition st c) eqn:Hpre; [|done].
    destruct (command_linked o now st s c Henc Hl Hpre) as [Hres Hl'].
    cbv zeta in Hres, Hl'.
    destruct (match c with
              | CmdOpen => Open o now s
              | CmdClose => Close true s
              | CmdWriteBehind w => Write o w true s
              end) as [res s1] eqn:Estep.
    simpl in Hres, Hl'. subst res.
    destruct (runCommands o now (NextState st c) s1 cs)
      as [[[st2 s2] vs2]|] eqn:Erest; [|done].
    injection Hrun as <- <- <-.
    destruct (IH _ _ _ Hl' Erest) as (Hl2 & [more Hmore] & Hvs).
    split; [done|]. split.
    + destruct c as [| |w]; simpl in Hmore; eauto.
      exists (w :: more). by rewrite Hmore, <- app_assoc.
    + intros Hk Hi. apply Forall_app. split; [|by apply Hvs].
      destruct c as [| |w]; [constructor | | constructor].
      constructor; [|constructor].
      destruct Hl' as (Hcons & Ho' & _). simpl in *.
      assert (state s1 = IsClosed) as Hcl.
      { destruct Hl as (_ & Hopen & Hret). simpl in Hpre. apply Hopen in Hpre.
        destruct (Close_accepts s Hpre Hret) as (_ & Hcl & _).
        by rewrite Estep in Hcl. }
      rewrite (closed_consistent_iterates _ _ Hcons Hcl).
      * apply writesArePresent_complete.
        intros x w Hx Hw. apply Hk; rewrite Hmore; apply elem_of_app; by left.
      * rewrite Hmore in Hi. by apply indexIdentifies_app_l in Hi.
Qed.

(** The property test on the log, storage answering positively and the
    codec accepting every write: every command is accepted and, when
    the generated writes agree on their keys and their unique indexes
    identify their series, the post-condition of every [Close] holds. *)
Lemma property_test_passes o now cs st s vs :
  (forall w, is_Some (encodedSize o w)) ->
  runCommands o now (mkClState false []) initial cs = Some (st, s, vs) ->
  keyConsistent (pendingWrites st) ->
  indexIdentifies (pendingWrites st) ->
  Forall (fun v => v = true) vs.
Proof.
  intros Henc Hrun.
  apply (runCommands_linked o now cs (mkClState false []) initial st s vs Henc);
    [|done].
  split; [apply consistent_initial|]. split; [|done]. simpl. split; done.
Qed.

End PropertyTestFacts.

(** ** The statements above, at the sample values *)

Section Witnesses.
Import XTime Result Shared Xio CommitLog Samples.

(** Scenario S4: merging two blocks of the same start. *)
Example scenario_S4 :
  segments (Merged blockA blockB) = [seg1; seg2] /\
  fulfilled (Merged blockA blockB) =
  {[ 1%N := [mkRange B0 (B0 + 15 * minute)] ]}.
Proof. split; [by vm_compute|]. apply map_eq. intros i. by vm_compute. Qed.

(** Scenario S5: a fulfilled range that starts before the block. *)
Example scenario_S5 :
  MarkFulfilled B0 fulOut idxopts1h resultsA = (Some RangeOutOfBlock, resultsA).
Proof. by vm_compute. Qed.

(** The zero instant has the Unix nanoseconds Go computes for it. *)
Example ToUnixNano_zeroTime : ToUnixNano zeroTime = -6795364578871345152.
Proof. by vm_compute. Qed.

(** Scenario S6: under write-behind and without any timer expiry, the
    writes enqueued reach the file when the log is closed. *)
Example scenario_S6 :
  let es := [EvOpen B0; EvWrite w1 true; EvWrite (mkW 2 "c" (B0 + 2) 5) true] in
  flat_map records (directory (fst (run logOpts initial es))) = [] /\
  iterate ReadAllPredicate ReadAllSeriesPredicate
    (directory (fst (run logOpts initial (es ++ [EvClose true]))))
  = [w1; mkW 2 "c" (B0 + 2) 5].
Proof. by vm_compute. Qed.

(** Under write-wait every accepted write is on file when [Write]
    returns. *)
Example write_wait_flushes :
  flat_map decodeFile
    (directory (fst (run logOptsWait initial [EvOpen B0; EvWrite w1 true])))
  = [w1].
Proof. by vm_compute. Qed.

(** The second file of the sample trace holds three records; the series
    identity of the series of [w3] is written with its first record
    only. *)
Example identity_written_once :
  entryIdentity <$>
    flat_map records (drop 1 (directory (fst (run logOpts initial trace))))
  = [Some (mkIdentity "ns" "b" 3); Some (mkIdentity "ns" "a" 3); None].
Proof. by vm_compute. Qed.

(** Go's comparison of float64 values, on bit patterns: plus and minus
    zero are equal, a NaN is not equal to itself, one equals one and
    differs from two. *)
Example float64_eq_samples :
  float64_eq 0 0x8000000000000000 = true /\
  float64_eq 0x7FF8000000000000 0x7FF8000000000000 = false /\
  float64_eq 0x3FF0000000000000 0x3FF0000000000000 = true /\
  float64_eq 0x3FF0000000000000 0x4000000000000000 = false.
Proof. by vm_compute. Qed.

(** The commands Open, WriteBehind, WriteBehind, Close of the property
    test: every command is accepted and the post-condition of Close
    holds. *)
Example property_test_run :
  match runCommands logOpts B0 (mkClState false []) initial
          [CmdOpen; CmdWriteBehind w1; CmdWriteBehind w2; CmdClose] with
  | Some (st, _, verdicts) =>
      pendingWrites st = [w1; w2] /\ verdicts = [true]
  | None => False
  end.
Proof. by vm_compute. Qed.

(** Scenario S3: two writes one hour apart end up in two files with
    distinct block starts. *)
Example scenario_S3 :
  fileBlockStart <$> directory (fst (run logOpts initial trace)) = [B0; B0 + hour].
Proof. by vm_compute. Qed.



(** C2, as stated, fails: in a map built by the methods that holds a
    block of 1900 to 2046, a call for an instant of 2602 returns the
    segment of that block, whose start is not the truncation of the
    instant; the two block starts, 2^64 nanoseconds apart, have the
    same int64 key, and no block of the map has the truncation of the
    instant as its start. *)
Lemma GetOrAddSegment_wrapped_key :
  let r1 := snd (GetOrAddSegment tEarly idxoptsWide allocFresh7 ∅) in
  built r1 /\
  GetOrAddSegment tLate idxoptsWide allocFails r1 = (inl fresh7, r1) /\
  forall k b, r1 !! k = Some b ->
    blockStart b = Truncate tEarly (BlockSize idxoptsWide) /\
    blockStart b <> Truncate tLate (BlockSize idxoptsWide).
Proof.
  cbv zeta. split; [apply built_GetOrAddSegment, built_empty|].
  split; [by vm_compute|].
  assert (snd (GetOrAddSegment tEarly idxoptsWide allocFresh7 ∅) =
          {[ ToUnixNano (Truncate tEarly (BlockSize idxoptsWide)) :=
               mkIndexBlock (Truncate tEarly (BlockSize idxoptsWide))
                 [SegMutable fresh7] ∅ ]}) as -> by (by vm_compute).
  intros k b Hb. apply lookup_singleton_Some in Hb as [_ <-].
  split; [done | by vm_compute].
Qed.

Lemma GetOrAddSegment_spec_witness :
  GetOrAddSegment (B0 + hour + 9) idxopts1h allocFails (results bootstrapB)
  = (inl fresh7, results bootstrapB) /\
  exists b,
    snd (GetOrAddSegment (B0 + 5) idxopts1h allocFresh7 resultsA)
      !! ToUnixNano B0 = Some b /\
    SegMutable fresh7 ∈ segments b /\ blockStart b = B0.
Proof.
  split.
  - destruct (GetOrAddSegment_spec (B0 + hour + 9) idxopts1h allocFails
                (results bootstrapB)) as (H & _ & _).
    apply (H [seg2] fresh7 []); [by vm_compute|].
    constructor; [|constructor]. intros m' Hm. discriminate Hm.
  - destruct (GetOrAddSegment_spec (B0 + 5) idxopts1h allocFresh7 resultsA)
      as (_ & _ & H).
    assert (GetOrAddSegment (B0 + 5) idxopts1h allocFresh7 resultsA =
            (inl fresh7,
             snd (GetOrAddSegment (B0 + 5) idxopts1h allocFresh7 resultsA)))
      as Hrun by (by vm_compute).
    destruct (H fresh7 _ Hrun) as (b & H1 & H2 & _ & H4).
    exists b. split; [exact H1|]. split; [exact H2|].
    apply H4.
    + intros k old Hold. unfold resultsA in Hold.
      apply lookup_singleton_Some in Hold as [<- <-]. by vm_compute.
    + by vm_compute.
    + intros old Hold. vm_compute in Hold. injection Hold as <-.
      by vm_compute.
Defined.

Lemma MarkFulfilled_spec_witness :
  STR_IsEmpty fulOut = false /\
  fst (MarkFulfilled B0 fulOut idxopts1h resultsA) = Some RangeOutOfBlock /\
  snd (MarkFulfilled B0 fulOut idxopts1h resultsA) = resultsA.
Proof.
  assert (STR_IsEmpty fulOut = false) as Hne by (by vm_compute).
  split; [exact Hne|].
  destruct (MarkFulfilled_spec B0 fulOut idxopts1h resultsA Hne)
    as (H1 & _ & _ & H3 & _).
  assert (fst (MarkFulfilled B0 fulOut idxopts1h resultsA)
          = Some RangeOutOfBlock) as He.
  { apply H1. unfold Range_within. vm_compute. intros [H _]. apply H. reflexivity. }
  split; [exact He | exact (H3 He)].
Defined.

Lemma Merged_spec_witness :
  blockStart blockA = blockStart blockB /\
  blockStart (Merged blockA blockB) = blockStart blockA /\
  segments (Merged blockA blockB) = segments blockA ++ segments blockB /\
  STR_is_union (fulfilled (Merged blockA blockB)) (fulfilled blockA)
    (fulfilled blockB).
Proof.
  split; [by vm_compute | apply (Merged_spec blockA blockB); by vm_compute].
Defined.

Lemma MergedIndexBootstrapResult_spec_witness :
  valid_order (fun m => map_to_list m) /\
  exists res,
    MergedIndexBootstrapResult (fun m => map_to_list m) heapAB
      (Some 1%positive) (Some 2%positive)
    = (Some 2%positive, <[2%positive := res]> heapAB) /\
    results res !! ToUnixNano B0 = Some blockA /\
    results res !! ToUnixNano (B0 + hour) = Some blockNext /\
    STR_is_union (unfulfilled res) fulA fulC.
Proof.
  assert (valid_order (fun m => map_to_list m)) as Hv
    by (intros m; reflexivity).
  split; [exact Hv|].
  destruct (MergedIndexBootstrapResult_spec _ heapAB Hv) as (_ & _ & H & _).
  assert (heapAB !! 1%positive = Some bootstrapA) as H1 by (by vm_compute).
  assert (heapAB !! 2%positive = Some bootstrapB) as H2 by (by vm_compute).
  specialize (H 1%positive 2%positive bootstrapA bootstrapB H1 H2).
  cbv zeta in H.
  assert ((totalSegments (results bootstrapB)
           <=? totalSegments (results bootstrapA))%nat = false) as E
    by (by vm_compute).
  rewrite E in H. destruct H as (res & Hrun & _ & Hunf & Hlook).
  exists res. split; [exact Hrun|].
  assert (keyed (results bootstrapA)) as Hk.
  { intros k b Hb. unfold bootstrapA, resultsA in Hb. simpl in Hb.
    apply lookup_singleton_Some in Hb as [<- <-]. by vm_compute. }
  split; [|split; [|exact Hunf]].
  - rewrite (Hlook Hk). by vm_compute.
  - rewrite (Hlook Hk). by vm_compute.
Defined.

Lemma MarkFulfilled_within_witness :
  exists b',
    snd (MarkFulfilled (B0 + 5) fulB idxopts1h resultsA) !! ToUnixNano B0
    = Some b' /\
    STR_within B0 (B0 + hour) (fulfilled b').
Proof.
  apply (MarkFulfilled_within (B0 + 5) fulB idxopts1h resultsA).
  - intros b Hb. unfold resultsA in Hb.
    apply lookup_singleton_Some in Hb as [_ <-].
    intros shard l Hl. unfold blockA, fulA in Hl. simpl in Hl.
    apply lookup_singleton_Some in Hl as [_ <-].
    constructor; [|constructor]. unfold Range_within. vm_compute.
    split; discriminate.
  - by vm_compute.
Defined.

Lemma Merged_fulfilled_comm_witness :
  blockStart blockA = blockStart blockC /\
  STR_disjoint (fulfilled blockA) (fulfilled blockC) /\
  STR_equiv (fulfilled (Merged blockA blockC)) (fulfilled (Merged blockC blockA)) /\
  fulfilled (Merged blockA blockC) = fulfilled (Merged blockC blockA).
Proof.
  assert (STR_disjoint (fulfilled blockA) (fulfilled blockC)) as Hd
    by (apply STR_disjointb_sound; by vm_compute).
  assert (blockStart blockA = blockStart blockC) as Hs by (by vm_compute).
  assert (forall x, Start x < Finish x ->
            STR_canonical ({[ 1%N := [x] ]} : gmap N Ranges)) as Hc.
  { intros x Hx shard l Hl. apply lookup_singleton_Some in Hl as [_ <-].
    split; [done|]. simpl. repeat split; [done | constructor]. }
  split; [exact Hs|]. split; [exact Hd|].
  destruct (Merged_fulfilled_comm blockA blockC Hs Hd) as (He & _ & _ & Heq).
  split; [exact He|].
  apply Heq; apply Hc; by vm_compute.
Defined.

Lemma Add_spec_witness :
  Add resultsA blockB = <[ToUnixNano B0 := Merged blockA blockB]> resultsA.
Proof.
  destruct (Add_spec resultsA blockB) as [_ H].
  destruct H as (_ & H & _); [vm_compute; discriminate|].
  apply H. by vm_compute.
Defined.

Lemma Merged_copy_on_write_witness :
  is_Some (exampleStore !! refFulfilled exampleB) /\
  forall extra,
    deref (AddRangesRef (snd (MergedRef exampleStore exampleB exampleA))
             (refFulfilled (fst (MergedRef exampleStore exampleB exampleA)))
             extra)
      (refFulfilled exampleA)
    = deref exampleStore (refFulfilled exampleA).
Proof.
  assert (is_Some (exampleStore !! refFulfilled exampleB)) as Hs
    by (eexists; by vm_compute).
  split; [exact Hs|]. intros extra.
  destruct (Merged_copy_on_write exampleStore exampleB exampleA Hs) as [H _].
  assert (STR_IsEmpty (deref exampleStore (refFulfilled exampleA)) = false)
    as Hne by (by vm_compute).
  destruct (H Hne) as (_ & _ & _ & H').
  apply (H' extra).
Defined.

Lemma segmentReader_Read_spec_witness :
  readAll 6 (NewSegmentReader segHT) buf2 =
  Some [Byte.x01; Byte.x02; Byte.x03; Byte.x04; Byte.x05].
Proof.
  destruct (segmentReader_Read_spec segHT) as (_ & _ & _ & H).
  apply (H buf2). simpl. lia.
Defined.

End Witnesses.
(** * Further properties of the code *)

(** ** Index results: invariants, frames and composition *)

Section IndexResultsMore.
Import XTime Result Samples.

Lemma keyed_empty : keyed (∅ : gmap Z IndexBlock).
Proof. intros k b H. by rewrite lookup_empty in H. Qed.

(** X1.  Index results built from [make(IndexResults)] by [Add],
    [AddResults], [GetOrAddSegment] and [MarkFulfilled] hold every
    block under the Unix nanoseconds of its own start. *)
Theorem built_keyed (r : IndexResults) : built r -> keyed r.
Proof.
  induction 1 as [|r block _ IH|r blocks _ IH|r t io o _ IH|r t ful io _ IH].
  - apply keyed_empty.
  - by apply Add_keyed.
  - by apply AddResults_keyed.
  - by apply GetOrAddSegment_keyed.
  - by apply MarkFulfilled_keyed.
Qed.

Lemma firstMutable_app_None segs m :
  firstMutable segs = None -> firstMutable (segs ++ [SegMutable m]) = Some m.
Proof.
  induction segs as [|s segs IH]; simpl; [done|].
  destruct s as [m'|id]; simpl; [done | apply IH].
Qed.

(** X2.  Once [GetOrAddSegment] has returned a segment for an instant,
    a further call for any instant of the same block returns the same
    segment, whatever its allocator, and leaves the map as it is. *)
Theorem GetOrAddSegment_again t t' idxopts opts opts' (r r1 : IndexResults) m :
  GetOrAddSegment t idxopts opts r = (inl m, r1) ->
  Truncate t' (BlockSize idxopts) = Truncate t (BlockSize idxopts) ->
  GetOrAddSegment t' idxopts opts' r1 = (inl m, r1).
Proof.
  intros Hfirst Ht.
  rewrite GetOrAddSegment_cases in Hfirst.
  rewrite GetOrAddSegment_cases, Ht.
  set (start := Truncate t (BlockSize idxopts)) in *.
  set (key := ToUnixNano start) in *.
  destruct (firstMutable
              (segments (default (NewIndexBlock start [] None) (r !! key))))
    as [m0|] eqn:Hf.
  - injection Hfirst as <- <-. by rewrite Hf.
  - destruct (IndexMutableSegmentAllocator opts tt) as [m0|e]; [|done].
    injection Hfirst as <- <-.
    rewrite lookup_insert_eq. simpl.
    by rewrite (firstMutable_app_None _ _ Hf).
Qed.

Lemma GetOrAddSegment_again_witness :
  GetOrAddSegment (B0 + 15 * minute) idxopts1h allocFails
    (snd (GetOrAddSegment (B0 + 5) idxopts1h allocFresh7 resultsA))
  = (inl fresh7, snd (GetOrAddSegment (B0 + 5) idxopts1h allocFresh7 resultsA)).
Proof.
  apply (GetOrAddSegment_again (B0 + 5) (B0 + 15 * minute) idxopts1h
           allocFresh7 allocFails resultsA); by vm_compute.
Defined.

Lemma built_keyed_witness : built resultsBuilt /\ keyed resultsBuilt.
Proof.
  assert (built resultsBuilt) as Hb.
  { unfold resultsBuilt. apply built_MarkFulfilled, built_GetOrAddSegment.
    apply built_Add, built_empty. }
  split; [exact Hb | exact (built_keyed resultsBuilt Hb)].
Defined.

Lemma totalSegments_insert_None (r : IndexResults) k b :
  r !! k = None ->
  totalSegments (<[k := b]> r) = (length (segments b) + totalSegments r)%nat.
Proof.
  intros Hk. unfold totalSegments.
  by rewrite (map_to_list_insert r k b Hk).
Qed.

Lemma totalSegments_insert_Some (r : IndexResults) k b old :
  r !! k = Some old ->
  (totalSegments (<[k := b]> r) + length (segments old) =
   totalSegments r + length (segments b))%nat.
Proof.
  intros Hk.
  rewrite <- (insert_delete_eq r k b).
  rewrite totalSegments_insert_None by apply lookup_delete_eq.
  rewrite <- (insert_delete_id r k old Hk) at 2.
  rewrite totalSegments_insert_None by apply lookup_delete_eq.
  unfold Segments. lia.
Qed.

Lemma totalSegments_insert_same (r : IndexResults) k b :
  length (segments b)
  = length (segments (default (mkIndexBlock 0 [] ∅) (r !! k))) ->
  totalSegments (<[k := b]> r) = totalSegments r.
Proof.
  destruct (r !! k) as [old|] eqn:E; simpl; intros Hl.
  - pose proof (totalSegments_insert_Some r k b old E). lia.
  - rewrite totalSegments_insert_None by done. lia.
Qed.

(** X3.  [GetOrAddSegment] returns an error only when its block holds
    no mutable segment and the allocator fails, and the error is the
    allocator's; no segment is added then, an existing entry is left as
    it is, and an absent one is left behind as a block of the truncated
    start without segments or fulfilled ranges. *)
Theorem GetOrAddSegment_alloc_error t idxopts opts (r r' : IndexResults) e :
  GetOrAddSegment t idxopts opts r = (inr e, r') ->
  let start := Truncate t (BlockSize idxopts) in
  let key := ToUnixNano start in
  IndexMutableSegmentAllocator opts tt = inr e /\
  firstMutable (segments (default (NewIndexBlock start [] None) (r !! key)))
    = None /\
  (is_Some (r !! key) -> r' = r) /\
  (r !! key = None -> r' = <[key := mkIndexBlock start [] ∅]> r) /\
  totalSegments r' = totalSegments r.
Proof.
  intros Hrun start key. rewrite GetOrAddSegment_cases in Hrun.
  fold start key in Hrun.
  destruct (firstMutable _) as [m|] eqn:Hf; [done|].
  destruct (IndexMutableSegmentAllocator opts tt) as [m|e0]; [done|].
  injection Hrun as <- <-.
  split; [done|]. split; [done|]. split; [|split].
  - intros [b Hb]. rewrite Hb. simpl. by apply insert_id.
  - intros ->. done.
  - apply totalSegments_insert_same. by destruct (r !! key).
Qed.

Lemma GetOrAddSegment_alloc_error_witness :
  IndexMutableSegmentAllocator allocFails tt = inr (AllocError 1) /\
  snd (GetOrAddSegment (B0 + hour) idxopts1h allocFails resultsA)
  = <[ToUnixNano (B0 + hour) := mkIndexBlock (B0 + hour) [] ∅]> resultsA.
Proof.
  assert (GetOrAddSegment (B0 + hour) idxopts1h allocFails resultsA
          = (inr (AllocError 1),
             snd (GetOrAddSegment (B0 + hour) idxopts1h allocFails resultsA)))
    as Hrun by (by vm_compute).
  destruct (GetOrAddSegment_alloc_error _ _ _ _ _ _ Hrun)
    as (H1 & _ & _ & H4 & _).
  split; [exact H1|].
  rewrite H4 by (by vm_compute). by vm_compute.
Defined.


Lemma MarkFulfilled_result t ful idxopts (r : IndexResults) :
  fst (MarkFulfilled t ful idxopts r) = Some RangeOutOfBlock /\
  snd (MarkFulfilled t ful idxopts r) = r \/
  fst (MarkFulfilled t ful idxopts r) = None /\
  snd (MarkFulfilled t ful idxopts r) =
  <[ToUnixNano (Truncate t (BlockSize idxopts)) :=
      Merged (default (NewIndexBlock (Truncate t (BlockSize idxopts)) [] None)
                (r !! ToUnixNano (Truncate t (BlockSize idxopts))))
        (NewIndexBlock (Truncate t (BlockSize idxopts)) [] (Some ful))]> r.
Proof.
  rewrite MarkFulfilled_cases. destruct (_ || _); [by left | by right].
Qed.

(** X5.  [MarkFulfilled] fails with the range error or not at all; it
    never adds, removes or reorders a segment and never changes the
    start of a block: every entry that existed keeps its start and its
    segments, entries at other keys are untouched, and an entry it
    creates has the truncated start and no segments. *)
Theorem MarkFulfilled_frame t ful idxopts (r : IndexResults) :
  let start := Truncate t (BlockSize idxopts) in
  let key := ToUnixNano start in
  let r' := snd (MarkFulfilled t ful idxopts r) in
  (fst (MarkFulfilled t ful idxopts r) = Some RangeOutOfBlock \/
   fst (MarkFulfilled t ful idxopts r) = None) /\
  (forall k, k <> key -> r' !! k = r !! k) /\
  (forall k b, r !! k = Some b ->
     exists b', r' !! k = Some b' /\
       blockStart b' = blockStart b /\ segments b' = segments b) /\
  (forall b', r !! key = None -> r' !! key = Some b' ->
     blockStart b' = start /\ segments b' = []) /\
  totalSegments r' = totalSegments r.
Proof.
  intros start key r'. unfold r'.
  destruct (MarkFulfilled_result t ful idxopts r) as [[He ->]|[He ->]];
    fold start key.
  - split; [by left|]. split; [done|]. split; [by eauto|].
    split; [by intros b' ->|done].
  - set (block := default (NewIndexBlock start [] None) (r !! key)).
    set (nb := Merged block (NewIndexBlock start [] (Some ful))).
    assert (blockStart nb = blockStart block) as Hs
      by apply Merged_blockStart.
    assert (segments nb = segments block) as Hg.
    { unfold nb. rewrite Merged_segments. simpl. by rewrite app_nil_r. }
    split; [by right|]. split; [by intros k Hk; rewrite lookup_insert_ne|].
    split; [|split].
    + intros k b Hb. destruct (decide (k = key)) as [->|Hne].
      * exists nb. rewrite lookup_insert_eq. unfold block in *.
        rewrite Hb in *. done.
      * exists b. by rewrite lookup_insert_ne.
    + intros b' Hn. rewrite lookup_insert_eq. intros [= <-].
      unfold block in *. rewrite Hn in *. done.
    + apply totalSegments_insert_same. rewrite Hg. unfold block.
      by destruct (r !! key).
Qed.

(** X6.  [MarkFulfilled] never takes a fulfilled instant away: what the
    fulfilled ranges of an entry cover before the call, the fulfilled
    ranges of the entry at the same key cover after it. *)
Theorem MarkFulfilled_keeps_fulfilled t ful idxopts (r : IndexResults) k b :
  r !! k = Some b ->
  exists b', snd (MarkFulfilled t ful idxopts r) !! k = Some b' /\
    forall shard u,
      STR_covers (fulfilled b) shard u -> STR_covers (fulfilled b') shard u.
Proof.
  intros Hb.
  destruct (MarkFulfilled_result t ful idxopts r) as [[_ ->]|[_ ->]].
  - by exists b.
  - destruct (decide (k = ToUnixNano (Truncate t (BlockSize idxopts))))
      as [->|Hne].
    + eexists. split; [by rewrite lookup_insert_eq|].
      intros shard u Hc. rewrite Hb. simpl.
      apply Merged_fulfilled_union. by left.
    + exists b. by rewrite lookup_insert_ne.
Qed.

Lemma MarkFulfilled_keeps_fulfilled_witness :
  exists b',
    snd (MarkFulfilled (B0 + 5) fulB idxopts1h resultsA) !! ToUnixNano B0
    = Some b' /\
    STR_covers (fulfilled b') 1%N (B0 + minute).
Proof.
  destruct (MarkFulfilled_keeps_fulfilled (B0 + 5) fulB idxopts1h resultsA
              (ToUnixNano B0) blockA) as (b' & Hb' & Hc); [by vm_compute|].
  exists b'. split; [exact Hb'|]. apply Hc.
  apply STR_coversb_spec. by vm_compute.
Defined.

Lemma Add_totalSegments (r : IndexResults) block :
  totalSegments (Add r block) =
  (totalSegments r +
   if nonZeroStart block then length (segments block) else 0)%nat.
Proof.
  unfold Add, nonZeroStart. destruct (IsZero (BlockStart block)); simpl; [lia|].
  destruct (r !! ToUnixNano (BlockStart block)) as [existing|] eqn:E.
  - pose proof (totalSegments_insert_Some r _ (Merged existing block) _ E) as H.
    rewrite Merged_segments, length_app in H. lia.
  - rewrite totalSegments_insert_None by done. lia.
Qed.

(** X7.  [Add] and [AddResults] lose no segment and invent none: the
    number of segments of the map grows by the number of segments of
    the blocks added, those of the blocks whose start is the zero
    instant aside, which are dropped. *)
Theorem AddResults_totalSegments (r : IndexResults) blocks :
  totalSegments (AddResults r blocks) =
  (totalSegments r + segmentCount (List.filter nonZeroStart blocks))%nat.
Proof.
  unfold AddResults, segmentCount. revert r.
  induction blocks as [|b blocks IH]; intros r; simpl; [lia|].
  rewrite IH, Add_totalSegments.
  destruct (nonZeroStart b); simpl; unfold Segments, fmap; lia.
Qed.









Lemma Add_comm (r : IndexResults) x y :
  ToUnixNano (BlockStart x) <> ToUnixNano (BlockStart y) ->
  Add (Add r x) y = Add (Add r y) x.
Proof.
  intros Hne. rewrite !Add_alt.
  destruct (IsZero (BlockStart x)), (IsZero (BlockStart y)); try done.
  rewrite !lookup_insert_ne by done. by apply insert_insert_ne.
Qed.

Lemma fold_left_perm_keys {A B K} (f : B -> A -> B) (g : A -> K)
    (l1 l2 : list A) :
  (forall b x y, g x <> g y -> f (f b x) y = f (f b y) x) ->
  l1 ≡ₚ l2 -> NoDup (g <$> l1) ->
  forall b, fold_left f l1 b = fold_left f l2 b.
Proof.
  intros Hcomm. induction 1 as [|x l l' _ IH|x y l|l l' l'' Hp IH1 _ IH2];
    intros Hnd b; simpl.
  - done.
  - apply IH. by apply NoDup_cons in Hnd as [_ Hnd].
  - f_equal. apply Hcomm.
    simpl in Hnd. apply NoDup_cons in Hnd as [Hin _].
    intros Heq. apply Hin. rewrite Heq. by left.
  - rewrite IH1 by done. apply IH2. by rewrite <- Hp.
Qed.

Lemma keyed_values_NoDup (m : IndexResults) l :
  keyed m -> l ≡ₚ map_to_list m ->
  NoDup ((fun b => ToUnixNano (BlockStart b)) <$> (snd <$> l)).
Proof.
  intros Hk Hl. rewrite Hl.
  assert (((fun b => ToUnixNano (BlockStart b)) <$> (snd <$> map_to_list m))
          = fst <$> map_to_list m) as ->.
  { rewrite <- list_fmap_compose. apply Forall_fmap_ext, Forall_forall.
    intros [k b] Hin. apply elem_of_map_to_list in Hin. simpl.
    by apply Hk. }
  apply NoDup_fst_map_to_list.
Qed.

Lemma AddResults_orders (order1 order2 : IterOrder) (r other : IndexResults) :
  valid_order order1 -> valid_order order2 -> keyed other ->
  AddResults r (snd <$> order1 other) = AddResults r (snd <$> order2 other).
Proof.
  intros H1 H2 Hk. unfold AddResults.
  apply (fold_left_perm_keys Add (fun b => ToUnixNano (BlockStart b))).
  - intros b x y. apply Add_comm.
  - by rewrite (H1 other), (H2 other).
  - by apply (keyed_values_NoDup other).
Qed.

(** X9.  The order in which the [range] loop of [AddResults] visits a
    Go map does not show in the result when the map added holds every
    block under the key of its own start: any two orders give the same
    map, and [MergedIndexBootstrapResult] over results with such maps
    returns the same pointer and leaves the same heap. *)
Theorem AddResults_order_independent (order1 order2 : IterOrder) :
  valid_order order1 -> valid_order order2 ->
  (forall r other : IndexResults,
     keyed other ->
     AddResults r (snd <$> order1 other) = AddResults r (snd <$> order2 other)) /\
  (forall (h : Heap) i j,
     (forall p x, h !! p = Some x -> keyed (results x)) ->
     MergedIndexBootstrapResult order1 h i j =
     MergedIndexBootstrapResult order2 h i j).
Proof.
  intros H1 H2. split.
  - intros r other Hk. by apply AddResults_orders.
  - intros h [pi|] [pj|] Hk; simpl; try done.
    destruct (h !! pi) as [ri|] eqn:Ei; [|done].
    destruct (h !! pj) as [rj|] eqn:Ej; [|done].
    unfold foldInto.
    rewrite (AddResults_orders order1 order2 (results ri) (results rj))
      by eauto.
    rewrite (AddResults_orders order1 order2 (results rj) (results ri))
      by eauto.
    done.
Qed.

Lemma AddResults_order_independent_witness :
  AddResults resultsA (snd <$> map_to_list resultsBuilt) =
  AddResults resultsA (snd <$> reverse (map_to_list resultsBuilt)).
Proof.
  assert (valid_order (fun m => map_to_list m)) as H1
    by (intros m; reflexivity).
  assert (valid_order (fun m => reverse (map_to_list m))) as H2
    by (intros m; apply reverse_Permutation).
  assert (keyed resultsBuilt) as Hk.
  { unfold resultsBuilt. apply MarkFulfilled_keyed, GetOrAddSegment_keyed.
    apply Add_keyed, keyed_empty. }
  destruct (AddResults_order_independent
              (fun m => map_to_list m) (fun m => reverse (map_to_list m))
              H1 H2) as [H _].
  apply (H resultsA resultsBuilt Hk).
Defined.

(** X10.  Merging is associative on the start and on the segments, and
    on the instants the fulfilled ranges cover; a block without
    segments and without fulfilled ranges, as [NewIndexBlock] makes it
    from nil arguments, changes nothing when it is merged in, whatever
    its start. *)
Theorem Merged_assoc (a b c : IndexBlock) :
  blockStart (Merged (Merged a b) c) = blockStart (Merged a (Merged b c)) /\
  segments (Merged (Merged a b) c) = segments (Merged a (Merged b c)) /\
  STR_equiv (fulfilled (Merged (Merged a b) c))
    (fulfilled (Merged a (Merged b c))) /\
  (forall start, Merged a (NewIndexBlock start [] None) = a).
Proof.
  split; [by rewrite !Merged_blockStart|].
  split; [by rewrite !Merged_segments, app_assoc|]. split.
  - intros shard u.
    rewrite (Merged_fulfilled_union (Merged a b) c shard u).
    rewrite (Merged_fulfilled_union a b shard u).
    rewrite (Merged_fulfilled_union a (Merged b c) shard u).
    rewrite (Merged_fulfilled_union b c shard u). tauto.
  - intros start. unfold Merged, NewIndexBlock. simpl.
    rewrite STR_IsEmpty_empty. by destruct a.
Qed.

(** X11.  [GetOrAddSegment] accepts an instant that truncates to the
    zero instant and stores a block for it, while [Add] drops every
    block whose start is the zero instant: the index results it
    returns, once passed to [AddResults], add nothing to any map, so
    the segment just obtained does not survive a merge. *)
Theorem zero_start_block_lost t idxopts opts m (r1 : IndexResults) :
  Truncate t (BlockSize idxopts) = zeroTime ->
  GetOrAddSegment t idxopts opts ∅ = (inl m, r1) ->
  r1 = {[ ToUnixNano zeroTime := mkIndexBlock zeroTime [SegMutable m] ∅ ]} /\
  forall order (r : IndexResults),
    valid_order order -> AddResults r (snd <$> order r1) = r.
Proof.
  intros Ht Hrun. rewrite GetOrAddSegment_cases, Ht in Hrun.
  rewrite lookup_empty in Hrun. simpl in Hrun.
  destruct (IndexMutableSegmentAllocator opts tt) as [m0|e]; [|done].
  injection Hrun as <- <-. split; [done|].
  intros order r Hv.
  assert (order (<[ToUnixNano zeroTime :=
                     mkIndexBlock zeroTime [SegMutable m0] ∅]> ∅)
          = [(ToUnixNano zeroTime, mkIndexBlock zeroTime [SegMutable m0] ∅)])
    as ->.
  { apply Permutation_singleton_r. rewrite (Hv _).
    by rewrite insert_empty, map_to_list_singleton. }
  done.
Qed.

Lemma zero_start_block_lost_witness :
  Truncate 5 (BlockSize idxopts1h) = zeroTime /\
  AddResults resultsA
    (snd <$> map_to_list (snd (GetOrAddSegment 5 idxopts1h allocFresh7 ∅)))
  = resultsA.
Proof.
  assert (valid_order (fun m => map_to_list m)) as Hv
    by (intros m; reflexivity).
  assert (Truncate 5 (BlockSize idxopts1h) = zeroTime) as Ht
    by (by vm_compute).
  split; [exact Ht|].
  destruct (zero_start_block_lost 5 idxopts1h allocFresh7 fresh7
              (snd (GetOrAddSegment 5 idxopts1h allocFresh7 ∅)) Ht)
    as [_ H]; [by vm_compute|].
  apply (H (fun m => map_to_list m) resultsA Hv).
Defined.

(** X12.  Merging a result that holds a single block into another one
    comes to calling [indexBootstrapResult.Add] with that block and the
    unfulfilled ranges of the former, under whatever key the block was
    held. *)
Theorem foldInto_single_block (order : IterOrder) base k block unf :
  valid_order order ->
  foldInto order base (mkIndexBootstrapResult {[ k := block ]} unf)
  = BootstrapAdd base block unf.
Proof.
  intros Hv. unfold foldInto, BootstrapAdd. simpl.
  assert (order ({[ k := block ]} : gmap Z IndexBlock) = [(k, block)]) as ->.
  { apply Permutation_singleton_r. by rewrite (Hv _), map_to_list_singleton. }
  done.
Qed.

Lemma foldInto_single_block_witness :
  foldInto (fun m => map_to_list m) bootstrapA bootstrapB
  = BootstrapAdd bootstrapA blockNext fulA.
Proof.
  apply (foldInto_single_block (fun m => map_to_list m) bootstrapA
           (ToUnixNano (B0 + hour)) blockNext fulA).
  intros m. reflexivity.
Defined.

End IndexResultsMore.

(** ** Segment reader: the contract of [Read], [Clone] and [Reset] *)

Section SegmentReaderMore.
Import Xio Samples.

(** X13.  Every call of [Read] keeps the length of the buffer, fills at
    most the buffer, leaves the bytes past the count as they were,
    keeps the segment and advances the position by the count; it never
    returns bytes together with [io.EOF], never returns no byte and no
    error for a buffer that is not empty, and never moves the position
    past the end of the data. *)
Theorem Read_contract (sr : segmentReader) (b : list Byte.byte) :
  let res := Read sr b in
  let total := length (contents (segment sr)) in
  (countOf res <= length b)%nat /\
  length (bufferOf res) = length b /\
  drop (countOf res) (bufferOf res) = drop (countOf res) b /\
  readerOf res = mkSegmentReader (segment sr) (si sr + countOf res) /\
  (errorOf res = Some EOF -> countOf res = 0%nat /\ bufferOf res = b) /\
  (errorOf res = None -> (0 < length b)%nat -> (0 < countOf res)%nat) /\
  ((si sr <= total)%nat -> (si sr + countOf res <= total)%nat).
Proof.
  intros res total. unfold res.
  destruct (decide (length b = 0)%nat) as [H0|Hpos].
  - rewrite Read_empty_buffer by done. simpl. rewrite Nat.add_0_r.
    split; [lia|]. split; [done|]. split; [done|].
    split; [by destruct sr|]. split; [done|]. split; lia.
  - rewrite Read_nonempty_buffer by lia. fold total. simpl.
    set (n := Nat.min (length b) (total - si sr)).
    assert (length (take n (drop (si sr) (contents (segment sr)))) = n) as Hn.
    { rewrite length_take, length_drop. fold total. lia. }
    split; [lia|]. split; [rewrite length_app, Hn, length_drop; lia|].
    split; [by rewrite drop_app_length' by done|]. split; [done|].
    destruct (total <=? si sr)%nat eqn:E.
    + apply Nat.leb_le in E.
      assert (n = 0%nat) as -> by lia. simpl.
      split; [by rewrite drop_0|]. split; [done | lia].
    + apply Nat.leb_gt in E. split; [done|]. split; lia.
Qed.

(** X14.  [io.EOF] is final: a call that returns it leaves the reader as
    it was, and every later call with a buffer that is not empty
    returns [io.EOF] again, with no byte and the buffer untouched. *)
Theorem Read_EOF_sticky (sr : segmentReader) (b : list Byte.byte) :
  errorOf (Read sr b) = Some EOF ->
  readerOf (Read sr b) = sr /\
  forall b', (0 < length b')%nat -> Read sr b' = (b', 0%nat, Some EOF, sr).
Proof.
  intros He.
  destruct (decide (length b = 0)%nat) as [H0|Hpos].
  { by rewrite Read_empty_buffer in He. }
  rewrite Read_nonempty_buffer in He |- * by lia. simpl in *.
  destruct (length (contents (segment sr)) <=? si sr)%nat eqn:E; [|done].
  apply Nat.leb_le in E.
  replace (length (contents (segment sr)) - si sr)%nat with 0%nat by lia.
  rewrite Nat.min_0_r, Nat.add_0_r. split; [by destruct sr|].
  intros b' Hb'. rewrite Read_nonempty_buffer by done.
  apply Nat.leb_le in E as E'. rewrite E'.
  replace (length (contents (segment sr)) - si sr)%nat with 0%nat by lia.
  rewrite Nat.min_0_r, Nat.add_0_r. simpl. rewrite drop_0. by destruct sr.
Qed.

Lemma Read_EOF_sticky_witness :
  errorOf (Read (mkSegmentReader segHT 5) buf2) = Some EOF /\
  Read (mkSegmentReader segHT 5) [Byte.x07]
  = ([Byte.x07], 0%nat, Some EOF, mkSegmentReader segHT 5).
Proof.
  assert (errorOf (Read (mkSegmentReader segHT 5) buf2) = Some EOF) as He
    by (by vm_compute).
  split; [exact He|].
  destruct (Read_EOF_sticky _ _ He) as [_ H]. apply H. simpl. lia.
Defined.

(** X15.  A clone does not inherit the read position: whatever has been
    read from a reader, reading its clone until [io.EOF] delivers the
    whole segment, while the reader itself delivers what it had not
    read yet; after [Reset] a reader delivers the whole of the new
    segment. *)
Theorem Clone_reads_from_start (sr : segmentReader) (b : list Byte.byte) :
  (0 < length b)%nat ->
  let data := contents (segment sr) in
  readAll (S (length data)) (Clone sr) b = Some data /\
  readAll (S (length data)) sr b = Some (drop (si sr) data) /\
  forall seg,
    readAll (S (length (contents seg))) (Reset sr seg) b = Some (contents seg).
Proof.
  intros Hb data. split; [|split].
  - rewrite readAll_spec; simpl; [by rewrite drop_0 | done | fold data; lia].
  - rewrite readAll_spec; [done | done | fold data; lia].
  - intros seg. rewrite readAll_spec; simpl; [by rewrite drop_0 | done | lia].
Qed.

Lemma Clone_reads_from_start_witness :
  readAll 6 (Clone (mkSegmentReader segHT 4)) buf2
  = Some [Byte.x01; Byte.x02; Byte.x03; Byte.x04; Byte.x05] /\
  readAll 6 (mkSegmentReader segHT 4) buf2 = Some [Byte.x05].
Proof.
  destruct (Clone_reads_from_start (mkSegmentReader segHT 4) buf2)
    as (H1 & H2 & _); [simpl; lia|].
  split; [exact H1 | exact H2].
Defined.

(** X16.  Reads compose: after any sequence of reads with buffers of
    any sizes, reading on until [io.EOF] delivers the rest, so that
    every byte of the segment is delivered once, in order. *)
Theorem read_then_readAll (seg : Segment)
    (bufs : list (list Byte.byte)) (b : list Byte.byte) :
  (0 < length b)%nat ->
  exists rest,
    readAll (S (length (contents seg)))
      (snd (readMany (NewSegmentReader seg) bufs)) b = Some rest /\
    fst (readMany (NewSegmentReader seg) bufs) ++ rest = contents seg.
Proof.
  intros Hb. rewrite readMany_spec. unfold NewSegmentReader.
  cbn [fst snd segment si].
  set (data := contents seg). set (total := sum_list (length <$> bufs)).
  exists (drop (Nat.min total (length data - 0)) data). split.
  - rewrite readAll_spec; [done | done |].
    cbn [segment si]. fold data. lia.
  - rewrite drop_0, Nat.sub_0_r.
    destruct (decide (total <= length data)%nat) as [Hle|Hgt].
    + rewrite Nat.min_l by done. apply take_drop.
    + rewrite Nat.min_r by lia. rewrite take_ge, drop_all by lia.
      by rewrite app_nil_r.
Qed.

Lemma read_then_readAll_witness :
  exists rest,
    readAll 6 (snd (readMany (NewSegmentReader segHT) [buf2; []; buf2])) buf2
    = Some rest /\
    fst (readMany (NewSegmentReader segHT) [buf2; []; buf2]) ++ rest
    = contents segHT.
Proof. apply (read_then_readAll segHT [buf2; []; buf2] buf2). simpl. lia. Defined.

End SegmentReaderMore.

(** ** The helpers of the commit log property test *)

Section TestHelpersMore.
Import XTime CommitLog Samples.

Lemma uniqueID_fst st ns s :
  fst (uniqueID st ns s) = default (idx st) (recordedIdx st ns s).
Proof.
  unfold uniqueID, recordedIdx.
  destruct (idToIdx st !! ns) as [nsMap|]; simpl.
  - by destruct (nsMap !! s).
  - by rewrite lookup_empty.
Qed.

Lemma uniqueID_idx st ns s :
  idx (snd (uniqueID st ns s)) =
  match recordedIdx st ns s with
  | Some _ => idx st
  | None => ((idx st + 1) mod 2 ^ 64)%N
  end.
Proof.
  unfold uniqueID, recordedIdx.
  destruct (idToIdx st !! ns) as [nsMap|]; simpl.
  - by destruct (nsMap !! s).
  - by rewrite lookup_empty.
Qed.

Lemma recordedIdx_uniqueID st ns s ns' s' :
  recordedIdx (snd (uniqueID st ns s)) ns' s' =
  if decide (ns' = ns /\ s' = s) then Some (fst (uniqueID st ns s))
  else recordedIdx st ns' s'.
Proof.
  unfold uniqueID, recordedIdx.
  destruct (idToIdx st !! ns) as [nsMap|] eqn:Ens; simpl.
  - destruct (nsMap !! s) as [i|] eqn:Es; simpl.
    + case_decide as Hd; [|done]. destruct Hd as [-> ->].
      by rewrite Ens; simpl.
    + destruct (decide (ns' = ns)) as [->|Hns].
      * rewrite lookup_insert_eq. simpl.
        destruct (decide (s' = s)) as [->|Hs].
        -- rewrite lookup_insert_eq. by rewrite decide_True.
        -- rewrite lookup_insert_ne by done. rewrite decide_False by tauto.
           by rewrite Ens.
      * rewrite lookup_insert_ne by done. by rewrite decide_False by tauto.
  - rewrite lookup_empty. simpl. rewrite insert_insert_eq.
    destruct (decide (ns' = ns)) as [->|Hns].
    + rewrite lookup_insert_eq. simpl.
      destruct (decide (s' = s)) as [->|Hs].
      * rewrite lookup_insert_eq. by rewrite decide_True.
      * rewrite lookup_insert_ne by done. rewrite decide_False by tauto.
        by rewrite lookup_empty, Ens.
    + rewrite lookup_insert_ne by done. by rewrite decide_False by tauto.
Qed.

(** An index, once recorded, stays recorded. *)
Lemma recordedIdx_kept st ns s ns' s' v :
  recordedIdx st ns' s' = Some v ->
  recordedIdx (snd (uniqueID st ns s)) ns' s' = Some v.
Proof.
  intros Hv. rewrite recordedIdx_uniqueID. case_decide as Hd; [|done].
  destruct Hd as [-> ->]. by rewrite uniqueID_fst, Hv.
Qed.

Lemma uniqueID_recorded st ns s :
  recordedIdx (snd (uniqueID st ns s)) ns s = Some (fst (uniqueID st ns s)).
Proof. rewrite recordedIdx_uniqueID. by rewrite decide_True. Qed.

Lemma recordedIdx_kept_many st calls ns s v :
  recordedIdx st ns s = Some v ->
  recordedIdx (snd (uniqueIDs st calls)) ns s = Some v.
Proof.
  revert st. induction calls as [|[ns0 s0] calls IH]; intros st Hv; [done|].
  simpl. pose proof (recordedIdx_kept st ns0 s0 ns s v Hv) as H1.
  destruct (uniqueID st ns0 s0) as [i st1]. simpl in H1.
  specialize (IH st1 H1). by destruct (uniqueIDs st1 calls).
Qed.

(** X17.  [uniqueID] is consistent: the index it returns for a series
    is the one it returns for that series ever after, whatever it is
    called with in between. *)
Theorem uniqueID_consistent (st : globalMetricIdx) (ns s : string)
    (calls : list (string * string)) :
  fst (uniqueID (snd (uniqueIDs (snd (uniqueID st ns s)) calls)) ns s)
  = fst (uniqueID st ns s).
Proof.
  rewrite (uniqueID_fst (snd (uniqueIDs _ calls))).
  by rewrite (recordedIdx_kept_many _ calls ns s _ (uniqueID_recorded st ns s)).
Qed.

Lemma uniqueIDs_recorded st calls k ns s a :
  calls !! k = Some (ns, s) ->
  fst (uniqueIDs st calls) !! k = Some a ->
  recordedIdx (snd (uniqueIDs st calls)) ns s = Some a.
Proof.
  revert st k. induction calls as [|[ns0 s0] calls IH]; intros st k Hc Ha;
    [done|].
  simpl in *. pose proof (uniqueID_recorded st ns0 s0) as Hr.
  destruct (uniqueID st ns0 s0) as [i st1]. simpl in Hr.
  pose proof (recordedIdx_kept_many st1 calls ns0 s0 i Hr) as Hk.
  specialize (IH st1).
  destruct (uniqueIDs st1 calls) as [ids st2]. simpl in *.
  destruct k as [|k]; simpl in *.
  - injection Hc as -> ->. by injection Ha as <-.
  - by apply (IH k).
Qed.

Lemma uniqueID_distinct st ns s :
  distinctIdx st -> (idx st + 1 < 2 ^ 64)%N ->
  distinctIdx (snd (uniqueID st ns s)) /\
  (idx (snd (uniqueID st ns s)) <= idx st + 1)%N.
Proof.
  intros [Hlt Hinj] Hb.
  assert (idx (snd (uniqueID st ns s)) =
          match recordedIdx st ns s with
          | Some _ => idx st
          | None => (idx st + 1)%N
          end) as Hidx.
  { rewrite uniqueID_idx. destruct (recordedIdx st ns s); [done|].
    by apply N.mod_small. }
  assert (forall ns' s' v,
            recordedIdx (snd (uniqueID st ns s)) ns' s' = Some v ->
            recordedIdx st ns' s' = Some v \/
            (recordedIdx st ns s = None /\ ns' = ns /\ s' = s /\ v = idx st))
    as Hcases.
  { intros ns' s' v. rewrite recordedIdx_uniqueID, uniqueID_fst.
    case_decide as Hd; [|by left]. destruct Hd as [-> ->].
    destruct (recordedIdx st ns s) as [i|]; simpl; intros [= <-];
      [by left | by right]. }
  split; [split|].
  - intros ns' s' v Hv. rewrite Hidx.
    destruct (Hcases _ _ _ Hv) as [Hold|(Hn & _ & _ & ->)].
    + apply Hlt in Hold. destruct (recordedIdx st ns s); lia.
    + rewrite Hn. lia.
  - intros ns1 s1 ns2 s2 v H1 H2.
    destruct (Hcases _ _ _ H1) as [Ho1|(_ & -> & -> & ->)],
             (Hcases _ _ _ H2) as [Ho2|(_ & -> & -> & Hv2)].
    + by apply (Hinj _ _ _ _ v).
    + subst v. apply Hlt in Ho1. lia.
    + apply Hlt in Ho2. lia.
    + done.
  - rewrite Hidx. destruct (recordedIdx st ns s); lia.
Qed.

Lemma uniqueIDs_distinct st calls :
  distinctIdx st -> (idx st + N.of_nat (length calls) < 2 ^ 64)%N ->
  distinctIdx (snd (uniqueIDs st calls)).
Proof.
  revert st. induction calls as [|[ns s] calls IH]; intros st Hd Hb; [done|].
  simpl in *.
  destruct (uniqueID_distinct st ns s Hd) as [Hd1 Hi1]; [lia|].
  destruct (uniqueID st ns s) as [i st1]. simpl in *.
  specialize (IH st1 Hd1).
  destruct (uniqueIDs st1 calls) as [ids st2]. simpl in *.
  apply IH. lia.
Qed.

Lemma distinctIdx_metricIdx0 : distinctIdx metricIdx0.
Proof.
  split.
  - intros ns s v H. unfold recordedIdx, metricIdx0 in H. simpl in H.
    by rewrite lookup_empty in H.
  - intros ns s ns' s' v H. unfold recordedIdx, metricIdx0 in H. simpl in H.
    by rewrite lookup_empty in H.
Qed.

(** X18.  [uniqueID] is unique: in any run of fewer than 2^64 calls from
    the initial [metricIdx], two calls return the same index exactly
    when they are for the same namespace and series ID. *)
Theorem uniqueID_unique (calls : list (string * string)) i j c c' a a' :
  (N.of_nat (length calls) < 2 ^ 64)%N ->
  calls !! i = Some c -> calls !! j = Some c' ->
  fst (uniqueIDs metricIdx0 calls) !! i = Some a ->
  fst (uniqueIDs metricIdx0 calls) !! j = Some a' ->
  a = a' <-> c = c'.
Proof.
  intros Hb Hi Hj Ha Ha'. destruct c as [ns s], c' as [ns' s'].
  pose proof (uniqueIDs_recorded _ _ _ _ _ _ Hi Ha) as Hr.
  pose proof (uniqueIDs_recorded _ _ _ _ _ _ Hj Ha') as Hr'.
  split.
  - intros <-.
    destruct (uniqueIDs_distinct metricIdx0 calls distinctIdx_metricIdx0)
      as [_ Hinj]; [simpl; lia|].
    destruct (Hinj _ _ _ _ _ Hr Hr') as [-> ->]. done.
  - intros [= <- <-]. rewrite Hr in Hr'. by injection Hr'.
Qed.

Lemma uniqueID_unique_witness :
  fst (uniqueIDs metricIdx0 idCalls) = [0; 1; 0; 2]%N /\
  ((0 = 0)%N <-> ("ns", "a") = ("ns", "a")) /\
  ((1 = 2)%N <-> ("ns", "b") = ("other", "a")).
Proof.
  split; [by vm_compute|].
  assert (N.of_nat (length idCalls) < 2 ^ 64)%N as Hb by (by vm_compute).
  split.
  - apply (uniqueID_unique idCalls 0 2 _ _ _ _ Hb); by vm_compute.
  - apply (uniqueID_unique idCalls 1 3 _ _ _ _ Hb); by vm_compute.
Defined.

Lemma find_split {A} (f : A -> bool) (l : list A) x :
  List.find f l = Some x <->
  exists a b, l = a ++ x :: b /\ f x = true /\ Forall (fun y => f y = false) a.
Proof.
  split.
  - revert x. induction l as [|y l IH]; intros x H; [done|]. simpl in H.
    destruct (f y) eqn:E.
    + injection H as ->. by exists [], l.
    + destruct (IH x H) as (a & b & -> & Hx & Ha).
      exists (y :: a), b. split; [done|]. split; [done|]. by constructor.
  - intros (a & b & -> & Hx & Ha). induction Ha as [|y a Hy Ha IH]; simpl.
    + by rewrite Hx.
    + by rewrite Hy.
Qed.

Lemma find_filter_implied {A} (f g : A -> bool) (l : list A) :
  (forall x, f x = true -> g x = true) ->
  List.find f (List.filter g l) = List.find f l.
Proof.
  intros Hfg. induction l as [|x l IH]; [done|]. simpl.
  destruct (g x) eqn:Eg; simpl.
  - by rewrite IH.
  - destruct (f x) eqn:Ef; [|done]. apply Hfg in Ef. congruence.
Qed.

Lemma forallb_eq_on {A} (f g : A -> bool) (l : list A) :
  (forall x, In x l -> f x = g x) -> forallb f l = forallb g l.
Proof.
  induction l as [|x l IH]; intros H; [done|]. simpl.
  rewrite (H x) by (by left). rewrite IH; [done|].
  intros y Hy. apply H. by right.
Qed.

(** X19.  [writesArePresent] returns a nil error exactly when, for each
    expected write, the last record the iterator yields under its series
    ID and timestamp has its namespace and shard and a value equal to
    its value under Go's float comparison: an earlier record that
    agrees does not make up for a later one that differs. *)
Theorem writesArePresent_last_wins (yielded writes : list generatedWrite) :
  writesArePresent yielded writes = true <->
  forall w, w ∈ writes ->
    exists pre gw post,
      yielded = pre ++ gw :: post /\ sameKeys gw w /\ equalFields gw w /\
      Forall (fun x => ~ sameKeys x w) post.
Proof.
  unfold writesArePresent. rewrite forallb_forall.
  split; intros H w Hw.
  - apply list_elem_of_In, H, writePresent_spec in Hw as (gw & Hl & Hf).
    rewrite lookupDisk_fold in Hl.
    destruct (List.find _ (rev yielded)) as [x|] eqn:E; [|done].
    injection Hl as ->.
    apply find_split in E as (a & b & Hr & Hx & Ha).
    exists (rev b), gw, (rev a). split; [|split; [|split]].
    + rewrite <- (rev_involutive yielded), Hr, rev_app_distr. simpl.
      by rewrite <- app_assoc.
    + by apply bool_decide_eq_true in Hx.
    + done.
    + apply Forall_forall. intros x Hin.
      apply list_elem_of_In, in_rev in Hin.
      rewrite Forall_forall in Ha.
      apply list_elem_of_In, Ha in Hin. by apply bool_decide_eq_false in Hin.
  - apply list_elem_of_In, H in Hw as (pre & gw & post & -> & Hk & Hf & Hp).
    apply writePresent_spec. exists gw. split; [|done].
    rewrite lookupDisk_fold.
    replace (List.find _ _) with (Some gw); [done|]. symmetry.
    apply find_split. exists (rev post), (rev pre).
    split; [|split].
    + rewrite rev_app_distr. simpl. by rewrite <- app_assoc.
    + by apply bool_decide_eq_true.
    + apply Forall_forall. intros x Hin.
      apply list_elem_of_In, in_rev, list_elem_of_In in Hin.
      rewrite Forall_forall in Hp. apply bool_decide_eq_false. by apply Hp.
Qed.

(** X20.  [writesArePresent] takes no notice of the records that no
    expected write asks for: dropping from what the iterator yields every
    record whose series ID and timestamp are those of no expected write
    leaves the verdict as it is. *)
Theorem writesArePresent_ignores_others (yielded writes : list generatedWrite) :
  writesArePresent (List.filter (askedFor writes) yielded) writes
  = writesArePresent yielded writes.
Proof.
  unfold writesArePresent. apply forallb_eq_on. intros w Hw.
  apply eq_true_iff_eq. rewrite !writePresent_spec, !lookupDisk_fold.
  rewrite <- filter_rev, find_filter_implied; [done|].
  intros x Hx. unfold askedFor. apply existsb_exists. by exists w.
Qed.

Lemma sameKeys_alike x x' w w' :
  comparedAlike x x' -> comparedAlike w w' ->
  sameKeys x w <-> sameKeys x' w'.
Proof.
  unfold comparedAlike, sameKeys. intros [[H1 H2] _] [[H3 H4] _].
  rewrite H1, H2, H3, H4. done.
Qed.

Lemma equalFields_alike x x' w w' :
  comparedAlike x x' -> comparedAlike w w' ->
  equalFields x w <-> equalFields x' w'.
Proof.
  unfold comparedAlike, sameFields, equalFields. intros [_ (H1 & H2 & H3)] [_ (H4 & H5 & H6)].
  rewrite H1, H2, H3, H4, H5, H6. done.
Qed.

Lemma lookupDisk_alike ys ys' M M' w w' :
  Forall2 comparedAlike ys ys' -> comparedAlike w w' ->
  option_Forall2 comparedAlike (lookupDisk M w) (lookupDisk M' w') ->
  option_Forall2 comparedAlike
    (lookupDisk (fold_left recordOnDisk ys M) w)
    (lookupDisk (fold_left recordOnDisk ys' M') w').
Proof.
  intros Hys Hw. revert M M'.
  induction Hys as [|x x' ys ys' Hx Hys IH]; intros M M' HM; [done|].
  simpl. apply IH. rewrite !lookupDisk_recordOnDisk.
  pose proof (sameKeys_alike _ _ _ _ Hx Hw) as Hk.
  destruct (decide (sameKeys x w)) as [H|H],
           (decide (sameKeys x' w')) as [H'|H']; try tauto.
  by constructor.
Qed.

Lemma writePresent_alike M M' w w' :
  comparedAlike w w' ->
  option_Forall2 comparedAlike (lookupDisk M w) (lookupDisk M' w') ->
  writePresent M w = writePresent M' w'.
Proof.
  intros Hw HM. apply eq_true_iff_eq. rewrite !writePresent_spec.
  destruct HM as [gw gw' Hg|].
  - pose proof (equalFields_alike _ _ _ _ Hg Hw) as Hf.
    split; intros (g & [= <-] & Hs); eexists; (split; [done|]); tauto.
  - split; by intros (g & [=] & _).
Qed.

(** X21.  [writesArePresent] reads the series ID, the timestamp as Unix
    nanoseconds, the namespace, the shard and the value, and nothing
    else: records and expected writes that differ only in the unit, the
    annotation or the unique index of the series get the same verdict. *)
Theorem writesArePresent_compared_fields
    (yielded yielded' writes writes' : list generatedWrite) :
  Forall2 comparedAlike yielded yielded' ->
  Forall2 comparedAlike writes writes' ->
  writesArePresent yielded writes = writesArePresent yielded' writes'.
Proof.
  intros Hy Hw. unfold writesArePresent.
  induction Hw as [|w w' ws ws' Hww Hw IH]; [done|]. simpl.
  rewrite IH. f_equal. apply writePresent_alike; [done|].
  apply lookupDisk_alike; [done..|].
  unfold lookupDisk. rewrite !lookup_empty. constructor.
Qed.

Lemma writesArePresent_compared_fields_witness :
  w1OnDisk <> w1 /\
  writesArePresent [w1] [w1] = writesArePresent [w1OnDisk] [w1].
Proof.
  split; [by vm_compute|].
  apply writesArePresent_compared_fields;
    repeat constructor; by vm_compute.
Defined.

Lemma seriesEntry_insert m k v id :
  seriesEntry (<[k := v]> m) id = if decide (id = k) then v else seriesEntry m id.
Proof.
  unfold seriesEntry. case_decide as H.
  - subst. by rewrite lookup_insert_eq.
  - by rewrite lookup_insert_ne.
Qed.

Lemma ofSeries_cons id x l :
  ofSeries id (x :: l) =
  if decide (ID (series x) = id) then x :: ofSeries id l else ofSeries id l.
Proof.
  unfold ofSeries. simpl. case_decide as H.
  - by rewrite bool_decide_eq_true_2.
  - by rewrite bool_decide_eq_false_2.
Qed.

Lemma ofSeries_app id l1 l2 :
  ofSeries id (l1 ++ l2) = ofSeries id l1 ++ ofSeries id l2.
Proof. apply List.filter_app. Qed.

(** What the grouping loop leaves under a series ID. *)
Lemma seriesEntry_fold ws m id :
  seriesEntry (fold_left groupWrite ws m) id =
  mkSeriesWrites (writes (seriesEntry m id) ++ ofSeries id ws)
                 (readPosition (seriesEntry m id)).
Proof.
  revert m. induction ws as [|w ws IH]; intros m.
  - simpl. rewrite app_nil_r. by destruct (seriesEntry m id).
  - cbn [fold_left]. rewrite IH. unfold groupWrite.
    rewrite seriesEntry_insert, ofSeries_cons.
    destruct (decide (id = ID (series w))) as [->|Hne].
    + rewrite decide_True by done. simpl. by rewrite <- app_assoc.
    + by rewrite decide_False by done.
Qed.

Lemma checkAll_count ys m i m' i' :
  checkAll ys (m, i) = Some (m', i') -> i' = (i + length ys)%nat.
Proof.
  revert m i. induction ys as [|x ys IH]; intros m i H; simpl in H.
  - injection H as _ <-. simpl. lia.
  - destruct (writes (seriesEntry m (ID (series x)))
                !! readPosition (seriesEntry m (ID (series x)))) as [w|];
      [|done].
    destruct (requireEqual w x); [|done].
    apply IH in H. simpl. lia.
Qed.

Lemma checkAll_fits ys m i : is_Some (checkAll ys (m, i)) <-> fits m ys.
Proof.
  revert m i. induction ys as [|x ys IH]; intros m i.
  - simpl. split; [|by eauto]. intros _ id.
    exists [], (drop (readPosition (seriesEntry m id))
                  (writes (seriesEntry m id))).
    split; [done | constructor].
  - simpl. set (k := ID (series x)).
    destruct (writes (seriesEntry m k) !! readPosition (seriesEntry m k))
      as [w|] eqn:Hw.
    + destruct (requireEqual w x) eqn:Hreq.
      * rewrite IH. split; intros Hfit id.
        -- destruct (Hfit id) as (matched & rest & Hd & Hm).
           rewrite seriesEntry_insert in Hd. rewrite ofSeries_cons.
           fold k. destruct (decide (k = id)) as [<-|Hne].
           ++ rewrite decide_True in Hd by done. simpl in Hd.
              exists (w :: matched), rest. split.
              ** rewrite (drop_S _ _ _ Hw), Hd. done.
              ** by constructor.
           ++ rewrite decide_False in Hd by done. by exists matched, rest.
        -- destruct (Hfit id) as (matched & rest & Hd & Hm).
           rewrite ofSeries_cons in Hm. fold k in Hm.
           rewrite seriesEntry_insert.
           destruct (decide (k = id)) as [<-|Hne].
           ++ rewrite decide_True by done. simpl.
              inversion Hm as [|? w' ? matched' Hxw Hm']; subst.
              rewrite (drop_S _ _ _ Hw) in Hd. injection Hd as -> Hd.
              by exists matched', rest.
           ++ rewrite decide_False by done. by exists matched, rest.
      * split; [by intros [? [=]]|]. intros Hfit. exfalso.
        destruct (Hfit k) as (matched & rest & Hd & Hm).
        rewrite ofSeries_cons in Hm. fold k in Hm.
        rewrite decide_True in Hm by done.
        inversion Hm as [|? w' ? matched' Hxw Hm']; subst.
        rewrite (drop_S _ _ _ Hw) in Hd. injection Hd as -> Hd.
        congruence.
    + split; [by intros [? [=]]|]. intros Hfit. exfalso.
      destruct (Hfit k) as (matched & rest & Hd & Hm).
      rewrite ofSeries_cons in Hm. fold k in Hm.
      rewrite decide_True in Hm by done.
      inversion Hm as [|? w' ? matched' Hxw Hm']; subst.
      apply lookup_ge_None in Hw. rewrite drop_ge in Hd by done.
      done.
Qed.

Lemma ofSeries_ID id l : Forall (fun w => ID (series w) = id) (ofSeries id l).
Proof.
  apply Forall_forall. intros w Hw.
  apply list_elem_of_In, filter_In in Hw as [_ Hw].
  by apply bool_decide_eq_true in Hw.
Qed.

(** Counting by series: when no series has more records than writes,
    there are no more records than writes, and as many only if each
    series has as many. *)
Lemma count_by_series ys ws :
  (forall id, (length (ofSeries id ys) <= length (ofSeries id ws))%nat) ->
  (length ys <= length ws)%nat /\
  (length ys = length ws ->
   forall id, length (ofSeries id ys) = length (ofSeries id ws)).
Proof.
  revert ws. induction ys as [|y ys IH]; intros ws H.
  - split; [simpl; lia|]. intros Hl id.
    destruct ws; [done | simpl in Hl; lia].
  - pose proof (H (ID (series y))) as Hk.
    rewrite ofSeries_cons, decide_True in Hk by done. simpl in Hk.
    destruct (ofSeries (ID (series y)) ws) as [|w l] eqn:E;
      [simpl in Hk; lia|].
    assert (In w ws /\ ID (series w) = ID (series y)) as [Hin Hid].
    { assert (In w (ofSeries (ID (series y)) ws)) as Hw
        by (rewrite E; by left).
      apply filter_In in Hw as [? Hw]. by apply bool_decide_eq_true in Hw. }
    apply in_split in Hin as (a & b & ->).
    assert (forall id,
              length (ofSeries id (a ++ w :: b)) =
              if decide (ID (series y) = id)
              then S (length (ofSeries id (a ++ b)))
              else length (ofSeries id (a ++ b))) as Hsplit.
    { intros id. rewrite !ofSeries_app, ofSeries_cons, Hid, !length_app.
      case_decide; simpl; lia. }
    destruct (IH (a ++ b)) as [Hle Heq].
    { intros id. specialize (H id).
      rewrite Hsplit, ofSeries_cons in H. case_decide; simpl in H; lia. }
    rewrite length_app in *. cbn [length]. split; [lia|].
    intros Hl id. rewrite Hsplit, ofSeries_cons.
    rewrite <- (Heq ltac:(lia) id). by case_decide.
Qed.

Lemma requireEqual_readBack id l1 l2 :
  Forall (fun w => ID (series w) = id) l1 ->
  Forall (fun w => ID (series w) = id) l2 ->
  Forall2 (fun x w => requireEqual w x = true) l1 l2 <->
  Forall2 readBack l1 l2.
Proof.
  intros H1 H2. split; intros HF.
  - eapply Forall2_impl; [exact HF|]. intros x w Hr.
    unfold requireEqual in Hr.
    rewrite !andb_true_iff, !bool_decide_eq_true in Hr.
    unfold readBack. tauto.
  - revert H1 H2. induction HF as [|x w l1 l2 Hr HF IH]; intros H1 H2;
      [constructor|].
    apply Forall_cons in H1 as [Hx H1]. apply Forall_cons in H2 as [Hw H2].
    constructor; [|by apply IH].
    unfold requireEqual. rewrite !andb_true_iff, !bool_decide_eq_true.
    destruct Hr as (? & ? & ? & ?). rewrite Hx, Hw. tauto.
Qed.

Lemma fits_writesBySeries ws ys :
  fits (writesBySeries ws) ys <->
  forall id, exists matched rest,
    ofSeries id ws = matched ++ rest /\
    Forall2 (fun x w => requireEqual w x = true) (ofSeries id ys) matched.
Proof.
  unfold fits, writesBySeries.
  assert (forall id, seriesEntry (fold_left groupWrite ws ∅) id
                     = mkSeriesWrites (ofSeries id ws) 0) as He.
  { intros id. rewrite seriesEntry_fold. unfold seriesEntry.
    by rewrite lookup_empty. }
  split; intros H id; specialize (H id); rewrite He in *; exact H.
Qed.

(** X22.  The check of [TestCommitLogReadWrite] passes exactly when, for
    each series ID, the records the iterator yields for the series are,
    one for one and in order, the writes of the series, with their
    namespace, shard and instant and with values equal under Go's float
    comparison; the order of records of different series is not looked
    at, and neither are the unit and the annotation. *)
Theorem readWriteCheck_by_series (ws yielded : list generatedWrite) :
  readWriteCheck ws yielded = true <->
  forall id, Forall2 readBack (ofSeries id yielded) (ofSeries id ws).
Proof.
  unfold readWriteCheck. split.
  - destruct (checkAll yielded (writesBySeries ws, 0%nat)) as [[m' i']|] eqn:E;
      [|done].
    intros Hi. apply bool_decide_eq_true in Hi.
    pose proof (checkAll_count _ _ _ _ _ E) as Hc. simpl in Hc.
    assert (fits (writesBySeries ws) yielded) as Hfit
      by (eapply checkAll_fits; rewrite E; eauto).
    rewrite fits_writesBySeries in Hfit.
    destruct (count_by_series yielded ws) as [_ Heq].
    { intros id. destruct (Hfit id) as (matched & rest & -> & Hm).
      rewrite (Forall2_length _ _ _ Hm), length_app. lia. }
    intros id. specialize (Heq ltac:(lia) id).
    destruct (Hfit id) as (matched & rest & Hs & Hm).
    rewrite Hs, (Forall2_length _ _ _ Hm), length_app in Heq.
    destruct rest; [|simpl in Heq; lia]. rewrite app_nil_r in Hs.
    rewrite Hs. apply (requireEqual_readBack id); [apply ofSeries_ID| |done].
    rewrite <- Hs. apply ofSeries_ID.
  - intros H.
    assert (is_Some (checkAll yielded (writesBySeries ws, 0%nat)))
      as [[m' i'] E].
    { apply checkAll_fits, fits_writesBySeries. intros id.
      exists (ofSeries id ws), []. split; [by rewrite app_nil_r|].
      apply (requireEqual_readBack id); [apply ofSeries_ID..|done]. }
    rewrite E. apply bool_decide_eq_true.
    pose proof (checkAll_count _ _ _ _ _ E) as Hc. simpl in Hc.
    destruct (count_by_series yielded ws) as [H1 _].
    { intros id. by rewrite (Forall2_length _ _ _ (H id)). }
    destruct (count_by_series ws yielded) as [H2 _].
    { intros id. by rewrite (Forall2_length _ _ _ (H id)). }
    lia.
Qed.

End TestHelpersMore.
